(** * RNG-Library: a shallow embedding of the scalar and AVX2 PCG generators
    and of the bit-stream utilities built on them.

    Sources embedded here:
    - [src/src/random_sisd.c]  rng_init, rng_next, rng_bias, rng_vndb,
      rng_cycc, rng_rand, rng_bino
    - [src/src/random_simd.c]  simd_rng_init, simd_rng_next,
      simd_rng_next_partial
    - [src/test/random_test.c] mix, pcg32i_next (the reference PCG32i)

    Unsigned C integers are modelled as [Z] with the wrap-around written out
    ([u64], [u32]); a [__m256i] is a record of four 64-bit blocks; a bit
    stream is a list of 64-bit words; [double] is IEEE-754 binary64 as given
    by [SpecFloat]. *)

From Stdlib Require Import ZArith List Lia Bool.
From Stdlib Require Import Floats.SpecFloat.
Import ListNotations.
Local Open Scope Z_scope.

(** ** Machine integers *)

Definition u64 (x : Z) : Z := x mod 2 ^ 64.
Definition u32 (x : Z) : Z := x mod 2 ^ 32.

(** GCC builtins on [unsigned long long].  None of them is part of the
    repository; they follow the GCC manual.  [__builtin_ctzll] and
    [__builtin_clzll] are undefined at 0 in C; the model returns 64 there. *)

Fixpoint pos_ctz (p : positive) : Z :=
  match p with
  | xO q => 1 + pos_ctz q
  | _ => 0
  end.

Definition __builtin_ctzll (x : Z) : Z :=
  match x with
  | Zpos p => pos_ctz p
  | _ => 64
  end.

Fixpoint pos_bits (p : positive) : Z :=
  match p with
  | xH => 1
  | xO q | xI q => 1 + pos_bits q
  end.

Definition __builtin_clzll (x : Z) : Z :=
  match x with
  | Zpos p => 64 - pos_bits p
  | _ => 64
  end.

Fixpoint pos_popcount (p : positive) : Z :=
  match p with
  | xH => 1
  | xO q => pos_popcount q
  | xI q => 1 + pos_popcount q
  end.

Definition __builtin_popcountll (x : Z) : Z :=
  match x with
  | Zpos p => pos_popcount p
  | _ => 0
  end.

(** ** random_utils.h

    The header declares [rdrand] and [rng_hash]; their implementation file is
    not among the sources, so both are parameters of the development.
    [rdrand] is an entropy source with a boolean success contract: a draw
    either yields a word or fails, and moves the source on. *)

Class RandomUtils := {
  entropy : Type;
  rdrand : entropy -> option Z * entropy;
  rng_hash : Z -> Z
}.

(** ** random_sisd.h: the two value types *)

Record random_t := mk_random { state : Z; increment : Z }.

Record stream_t := mk_stream { used : Z; filled : Z }.

Definition zero_random : random_t := {| state := 0; increment := 0 |}.

(** ** random_sisd.c *)

(** [rng_next]: returns the output word and the updated generator. *)
Definition rng_next (rng : random_t) : Z * random_t :=
  let x := state rng in
  let rng' :=
    {| state := u64 (state rng * 0x5851F42D4C957F2D + increment rng);
       increment := increment rng |} in
  let fx := u64 (Z.lxor (Z.shiftr x (Z.shiftr x 59 + 5)) x * 0xAEF17502108EF2D9) in
  (Z.lxor (Z.shiftr fx 43) fx, rng').

(** [rng_init]: the [success] label forces the increment odd, the failure
    path jumps over it to [terminate]. *)
Definition rng_init `{RandomUtils} (seed : Z) (e : entropy) : random_t * entropy :=
  if negb (seed =? 0) then
    ({| state := rng_hash seed;
        increment := Z.lor (rng_hash (rng_hash seed)) 1 |}, e)
  else
    match rdrand e with
    | (Some s, e1) =>
        match rdrand e1 with
        | (Some i, e2) => ({| state := s; increment := Z.lor i 1 |}, e2)
        | (None, e2) => (zero_random, e2)
        end
    | (None, e1) => (zero_random, e1)
    end.

(** [rng_bias]: the [for] loop runs while [pc < m] and moves [pc] on by one
    each round, so from [pc = ctz n] it makes at most [m - ctz n] rounds:
    that much fuel covers every call. *)
Fixpoint rng_bias_loop (fuel : nat) (n m pc accumulator : Z) (rng : random_t)
  : Z * random_t :=
  match fuel with
  | O => (accumulator, rng)
  | S fuel' =>
      if pc <? m then
        let (w, rng') := rng_next rng in
        let accumulator' :=
          match Z.land (Z.shiftr n pc) 1 with
          | 0 => Z.land accumulator w
          | 1 => Z.lor accumulator w
          | _ => accumulator
          end in
        rng_bias_loop fuel' n m (pc + 1) accumulator' rng'
      else (accumulator, rng)
  end.

Definition rng_bias (rng : random_t) (n m : Z) : Z * random_t :=
  rng_bias_loop (Z.to_nat (m - __builtin_ctzll n)) n m (__builtin_ctzll n) 0 rng.

(** [rng_rand]: the [do ... while] rejection loop has no bound in C; the
    model takes the number of draws it may make and answers [None] when
    every one of them was rejected. *)
Fixpoint rng_rand_loop (fuel : nat) (rng : random_t) (bitmask scaled_max : Z)
  : option (Z * random_t) :=
  match fuel with
  | O => None
  | S fuel' =>
      let (w, rng') := rng_next rng in
      let sample := Z.land w bitmask in
      if sample >? scaled_max
      then rng_rand_loop fuel' rng' bitmask scaled_max
      else Some (sample, rng')
  end.

Definition rand_bitmask (scaled_max : Z) : Z :=
  Z.shiftr (u64 (Z.lnot 0)) (__builtin_clzll scaled_max).

Definition rng_rand (fuel : nat) (rng : random_t) (min max : Z)
  : option (Z * random_t) :=
  let scaled_max := u64 (max - min) in
  let bitmask := rand_bitmask scaled_max in
  match rng_rand_loop fuel rng bitmask scaled_max with
  | Some (sample, rng') => Some (u64 (sample + min), rng')
  | None => None
  end.

(** [rng_bino]: [for (; k > 64; k -= 64)] followed by the final chunk.  The
    loop state on exit is (success, remaining k, generator). *)
Fixpoint rng_bino_loop (fuel : nat) (rng : random_t) (k n m success : Z)
  : Z * Z * random_t :=
  match fuel with
  | O => (success, k, rng)
  | S fuel' =>
      if k >? 64 then
        let (w, rng') := rng_bias rng n m in
        rng_bino_loop fuel' rng' (u64 (k - 64)) n m
                      (u64 (success + __builtin_popcountll w))
      else (success, k, rng)
  end.

Definition rng_bino (rng : random_t) (k n m : Z) : Z * random_t :=
  let '(success, k', rng1) := rng_bino_loop (Z.to_nat (k / 64)) rng k n m 0 in
  let (w, rng2) := rng_bias rng1 n m in
  (u64 (success + __builtin_popcountll (Z.shiftr w (64 - k'))), rng2).

(** ** bitarray.h

    Modelled from the spec: the header [bitarray.h] with the macros
    [u64_bitarray_test], [u64_bitarray_set] and [u64_bitarray_mask_at] is not
    among the sources.  The spec's BitStreamView addresses a buffer of
    fixed-width words by a global bit index: word = index / bitwidth,
    bit = index % bitwidth. *)

Definition word_at (a : list Z) (i : Z) : Z := nth (Z.to_nat (i / 64)) a 0.

Definition u64_bitarray_test (a : list Z) (i : Z) : bool :=
  negb (Z.land (Z.shiftr (word_at a i) (i mod 64)) 1 =? 0).

Definition u64_bitarray_mask_at (a : list Z) (i mask : Z) : Z :=
  Z.land (Z.shiftr (word_at a i) (i mod 64)) mask.

Fixpoint list_update (a : list Z) (j : nat) (f : Z -> Z) : list Z :=
  match a, j with
  | [], _ => []
  | w :: a', O => f w :: a'
  | w :: a', S j' => w :: list_update a' j' f
  end.

Definition u64_bitarray_set (a : list Z) (i : Z) : list Z :=
  list_update a (Z.to_nat (i / 64)) (fun w => Z.lor w (Z.shiftl 1 (i mod 64))).

(** [memset (dest, 0, bytes)] over an array of 64-bit words on the
    little-endian x86 targets of the library: byte [b] of the buffer holds
    bits [8b .. 8b+7] of word [b / 8]. *)
Fixpoint memset_zero (dest : list Z) (bytes : Z) : list Z :=
  match dest with
  | [] => []
  | w :: dest' =>
      if bytes <=? 0 then w :: dest'
      else if 8 <=? bytes then 0 :: memset_zero dest' (bytes - 8)
      else Z.shiftl (Z.shiftr w (8 * bytes)) (8 * bytes) :: dest'
  end.

(** [rng_vndb]: every round of the [while] loop moves [read_pos] on by 2, so
    [n] rounds of fuel are more than the loop can use. *)
Fixpoint rng_vndb_loop (fuel : nat) (src dest : list Z) (n m read_pos write_pos : Z)
  : list Z * Z * Z :=
  match fuel with
  | O => (dest, read_pos, write_pos)
  | S fuel' =>
      if read_pos <? n then
        let '(dest1, write_pos1) :=
          match u64_bitarray_mask_at src read_pos 3 with
          | 1 => (u64_bitarray_set dest write_pos, u64 (write_pos + 1))
          | 2 => (dest, u64 (write_pos + 1))
          | _ => (dest, write_pos)
          end in
        let read_pos1 := u64 (read_pos + 2) in
        if write_pos1 =? m then (dest1, read_pos1, write_pos1)
        else rng_vndb_loop fuel' src dest1 n m read_pos1 write_pos1
      else (dest, read_pos, write_pos)
  end.

Definition rng_vndb (src dest : list Z) (n m : Z) : list Z * stream_t :=
  let dest0 := memset_zero dest ((m - 1) / 8 + 1) in
  let '(dest1, read_pos, write_pos) :=
    rng_vndb_loop (Z.to_nat n) src dest0 n m 0 0 in
  (dest1, {| used := read_pos; filled := write_pos |}).

(** [rng_cycc]: the two counters, then the quotient in binary64. *)
Fixpoint rng_cycc_loop (fuel : nat) (src : list Z) (n k i x1 x2 : Z) : Z * Z :=
  match fuel with
  | O => (x1, x2)
  | S fuel' =>
      if i <? n then
        let '(x1', x2') :=
          if u64_bitarray_test src i then
            ((if u64_bitarray_test src (u64 (i + k) mod n)
              then u64 (x1 + 1) else x1),
             u64 (x2 + 1))
          else (x1, x2) in
        rng_cycc_loop fuel' src n k (u64 (i + 1)) x1' x2'
      else (x1, x2)
  end.

Definition double_of_u64 (x : Z) : spec_float := binary_normalize 53 1024 x 0 false.
Definition dmul := SFmul 53 1024.
Definition dsub := SFsub 53 1024.
Definition ddiv := SFdiv 53 1024.
Definition dle (x y : spec_float) : bool := SFleb x y.
Definition d_one : spec_float := double_of_u64 1.
Definition d_minus_one : spec_float := SFopp d_one.

Definition cycc_numerator (n x1 x2 : Z) : spec_float :=
  dsub (dmul (double_of_u64 n) (double_of_u64 x1))
       (dmul (double_of_u64 x2) (double_of_u64 x2)).

Definition cycc_denominator (n x2 : Z) : spec_float :=
  dsub (dmul (double_of_u64 n) (double_of_u64 x2))
       (dmul (double_of_u64 x2) (double_of_u64 x2)).

(** The value of [numerator/denominator] for a stream, as a release build
    returns it. *)
Definition rng_cycc_quotient (src : list Z) (n k : Z) : spec_float :=
  let '(x1, x2) := rng_cycc_loop (Z.to_nat n) src n k 0 0 0 in
  ddiv (cycc_numerator n x1 x2) (cycc_denominator n x2).

(** The outcome of a call in a build with assertions enabled. *)
Inductive cycc_outcome :=
| Returned (r : spec_float)
| LowerBoundViolation
| UpperBoundViolation.

Definition rng_cycc (src : list Z) (n k : Z) : cycc_outcome :=
  let q := rng_cycc_quotient src n k in
  if negb (dle d_minus_one q) then LowerBoundViolation
  else if negb (dle q d_one) then UpperBoundViolation
  else Returned q.

(** ** AVX2 intrinsics

    A [__m256i] is four 64-bit blocks, [q0] the lowest; each block holds two
    32-bit elements, the low one in bits 0..31.  The intrinsics are not part
    of the repository; each follows its operation in the Intel Intrinsics
    Guide, on whole registers (nothing assumes the upper halves are zero). *)

Record m256i := mk256 { q0 : Z; q1 : Z; q2 : Z; q3 : Z }.

Definition map64 (f : Z -> Z) (a : m256i) : m256i :=
  mk256 (f (q0 a)) (f (q1 a)) (f (q2 a)) (f (q3 a)).

Definition map64_2 (f : Z -> Z -> Z) (a b : m256i) : m256i :=
  mk256 (f (q0 a) (q0 b)) (f (q1 a) (q1 b)) (f (q2 a) (q2 b)) (f (q3 a) (q3 b)).

Definition lo32 (q : Z) : Z := u32 q.
Definition hi32 (q : Z) : Z := u32 (Z.shiftr q 32).
Definition pack32 (lo hi : Z) : Z := Z.lor lo (Z.shiftl hi 32).

(** An operation on 32-bit elements, applied to both halves of a block. *)
Definition each32 (f : Z -> Z) (q : Z) : Z := pack32 (f (lo32 q)) (f (hi32 q)).
Definition each32_2 (f : Z -> Z -> Z) (q r : Z) : Z :=
  pack32 (f (lo32 q) (lo32 r)) (f (hi32 q) (hi32 r)).

Definition _mm256_setzero_si256 : m256i := mk256 0 0 0 0.
Definition _mm256_set1_epi64x (a : Z) : m256i := mk256 (u64 a) (u64 a) (u64 a) (u64 a).
Definition _mm256_set1_epi32 (a : Z) : m256i :=
  let q := pack32 (u32 a) (u32 a) in mk256 q q q q.
(** [_mm256_set_epi64x (e3, e2, e1, e0)]: the last argument is block 0. *)
Definition _mm256_set_epi64x (e3 e2 e1 e0 : Z) : m256i :=
  mk256 (u64 e0) (u64 e1) (u64 e2) (u64 e3).

Definition _mm256_and_si256 : m256i -> m256i -> m256i := map64_2 Z.land.
Definition _mm256_or_si256 : m256i -> m256i -> m256i := map64_2 Z.lor.
Definition _mm256_xor_si256 : m256i -> m256i -> m256i := map64_2 Z.lxor.

Definition _mm256_add_epi32 : m256i -> m256i -> m256i :=
  map64_2 (each32_2 (fun x y => u32 (x + y))).
Definition _mm256_add_epi64 : m256i -> m256i -> m256i :=
  map64_2 (fun x y => u64 (x + y)).
Definition _mm256_mul_epu32 : m256i -> m256i -> m256i :=
  map64_2 (fun x y => lo32 x * lo32 y).
Definition _mm256_srli_epi32 (a : m256i) (imm8 : Z) : m256i :=
  map64 (each32 (fun x => if imm8 >? 31 then 0 else Z.shiftr x imm8)) a.
Definition _mm256_srlv_epi32 : m256i -> m256i -> m256i :=
  map64_2 (each32_2 (fun x count => if count <? 32 then Z.shiftr x count else 0)).
Definition _mm256_slli_epi64 (a : m256i) (imm8 : Z) : m256i :=
  map64 (fun x => if imm8 >? 63 then 0 else u64 (Z.shiftl x imm8)) a.

(** ** random_simd.h, random_simd.c *)

Record simd_random_t := mk_simd { simd_state : m256i; simd_increment : m256i }.

Definition zero_simd : simd_random_t :=
  {| simd_state := _mm256_setzero_si256; simd_increment := _mm256_setzero_si256 |}.

(** [rdrand(&LL) && rdrand(&LH) && rdrand(&HL) && rdrand(&HH)]: four draws in
    this order, cut short at the first failure. *)
Definition rdrand4 `{RandomUtils} (e : entropy)
  : option (Z * Z * Z * Z) * entropy :=
  match rdrand e with
  | (Some LL, e1) =>
      match rdrand e1 with
      | (Some LH, e2) =>
          match rdrand e2 with
          | (Some HL, e3) =>
              match rdrand e3 with
              | (Some HH, e4) => (Some (LL, LH, HL, HH), e4)
              | (None, e4) => (None, e4)
              end
          | (None, e3) => (None, e3)
          end
      | (None, e2) => (None, e2)
      end
  | (None, e1) => (None, e1)
  end.

(** The [success] label of [simd_rng_init]. *)
Definition simd_init_success (st inc : m256i) : simd_random_t :=
  let mask := _mm256_set1_epi64x 0xFFFFFFFF in
  let odd := _mm256_set1_epi64x 0x1 in
  let st := _mm256_and_si256 st mask in
  let inc := _mm256_and_si256 inc mask in
  let inc := _mm256_or_si256 inc odd in
  {| simd_state := st; simd_increment := inc |}.

Definition simd_rng_init `{RandomUtils} (seed_1 seed_2 seed_3 seed_4 : Z) (e : entropy)
  : simd_random_t * entropy :=
  if negb (seed_1 =? 0) && negb (seed_2 =? 0) && negb (seed_3 =? 0) && negb (seed_4 =? 0)
  then
    let LL := rng_hash seed_4 in
    let LH := rng_hash seed_3 in
    let HL := rng_hash seed_2 in
    let HH := rng_hash seed_1 in
    let st := _mm256_set_epi64x LL LH HL HH in
    let LL := rng_hash LL in
    let LH := rng_hash LH in
    let HL := rng_hash HL in
    let HH := rng_hash HH in
    let inc := _mm256_set_epi64x LL LH HL HH in
    (simd_init_success st inc, e)
  else
    match rdrand4 e with
    | (Some (LL, LH, HL, HH), e1) =>
        let st := _mm256_set_epi64x LL LH HL HH in
        match rdrand4 e1 with
        | (Some (LL, LH, HL, HH), e2) =>
            let inc := _mm256_set_epi64x LL LH HL HH in
            (simd_init_success st inc, e2)
        | (None, e2) => (zero_simd, e2)
        end
    | (None, e1) => (zero_simd, e1)
    end.

Definition simd_rng_next_partial (rng : simd_random_t) : m256i * simd_random_t :=
  let lcg_mult := _mm256_set1_epi64x 0x2C9277B5 in
  let rxs_mult := _mm256_set1_epi64x 0x108EF2D9 in
  let mod_mask := _mm256_set1_epi64x 0xFFFFFFFF in
  let x := simd_state rng in
  let fx := _mm256_add_epi32 (_mm256_srli_epi32 x 28) (_mm256_set1_epi32 4) in
  let fx := _mm256_srlv_epi32 x fx in
  let fx := _mm256_xor_si256 x fx in
  let fx := _mm256_mul_epu32 fx rxs_mult in
  let fx := _mm256_and_si256 fx mod_mask in
  let fx := _mm256_xor_si256 (_mm256_srli_epi32 fx 22) fx in
  let st := _mm256_mul_epu32 (simd_state rng) lcg_mult in
  let st := _mm256_and_si256 st mod_mask in
  let st := _mm256_add_epi64 st (simd_increment rng) in
  let st := _mm256_and_si256 st mod_mask in
  (fx, {| simd_state := st; simd_increment := simd_increment rng |}).

Definition simd_rng_next (rng : simd_random_t) : m256i * simd_random_t :=
  let (lower, rng1) := simd_rng_next_partial rng in
  let (upper, rng2) := simd_rng_next_partial rng1 in
  let upper := _mm256_slli_epi64 upper 32 in
  let output := _mm256_or_si256 upper lower in
  (output, rng2).

(** ** random_test.c: the reference generator of the SIMD unit test *)

Definition mix (value : Z) : Z :=
  let value := Z.lxor value (Z.shiftr value 30) in
  let value := u64 (value * 0xbf58476d1ce4e5b9) in
  let value := Z.lxor value (Z.shiftr value 27) in
  let value := u64 (value * 0x94d049bb133111eb) in
  let value := Z.lxor value (Z.shiftr value 31) in
  value.

Record pcg32i := mk_pcg32i { current : Z; increment32 : Z }.

Definition pcg32i_next (st : pcg32i) : Z * pcg32i :=
  let x := current st in
  let st' :=
    {| current := u32 (current st * 747796405 + increment32 st);
       increment32 := increment32 st |} in
  let fx := u32 (Z.lxor (Z.shiftr x (Z.shiftr x 28 + 4)) x * 277803737) in
  (Z.lxor (Z.shiftr fx 22) fx, st').

(** The seeding of one reference stream in the test: [current = (uint32_t) h],
    [increment = (uint32_t) (h' | 1)], for the two rounds [h], [h'] of the
    seed's hash. *)
Definition pcg32i_seed (hash : Z -> Z) (seed : Z) : pcg32i :=
  {| current := u32 (hash seed);
     increment32 := u32 (Z.lor (hash (hash seed)) 1) |}.

(** ** Definitions used to state the properties *)

(** A generator is a step function from a state to an output and the next
    state; [outputs step t s] are its first [t] outputs from [s] and
    [after step t s] is the state they leave. *)
Section Streams.
Context {St Out : Type} (step : St -> Out * St).

Fixpoint outputs (t : nat) (s : St) : list Out :=
  match t with
  | O => []
  | S t' => fst (step s) :: outputs t' (snd (step s))
  end.

Fixpoint after (t : nat) (s : St) : St :=
  match t with
  | O => s
  | S t' => after t' (snd (step s))
  end.

End Streams.

(** An entropy source that replays a script of draws and fails once the
    script is used up; and the utilities the unit test assumes ([rng_hash] is
    the test's [mix]). *)
Definition scripted_rdrand (e : list (option Z)) : option Z * list (option Z) :=
  match e with
  | [] => (None, [])
  | r :: e' => (r, e')
  end.

Definition test_utils : RandomUtils :=
  {| entropy := list (option Z); rdrand := scripted_rdrand; rng_hash := mix |}.

(** Failure of the entropy source during an initialisation: of the first
    draw, or of the one made after it. *)
Definition draw_fails `{RandomUtils} (e : entropy) : Prop :=
  fst (rdrand e) = None \/ fst (rdrand (snd (rdrand e))) = None.

Definition quadruple_draw_fails `{RandomUtils} (e : entropy) : Prop :=
  fst (rdrand4 e) = None \/ fst (rdrand4 (snd (rdrand4 e))) = None.

(** A property of all four 64-bit blocks of a register. *)
Definition all_lanes (P : Z -> Prop) (v : m256i) : Prop :=
  P (q0 v) /\ P (q1 v) /\ P (q2 v) /\ P (q3 v).

Definition low_bit_set (q : Z) : Prop := Z.testbit q 0 = true.

(** The bitcode interpretation of a numerator [n], as the specification
    words it: scan the bit positions [pc, pc + 1, ...], one generator word
    per position, and combine the accumulator with the word by AND when the
    bit of [n] is 0 and by OR when it is 1. *)
Fixpoint positions_from (pc : Z) (count : nat) : list Z :=
  match count with
  | O => []
  | S count' => pc :: positions_from (pc + 1) count'
  end.

Definition bitcode_step (n accumulator : Z) (pcw : Z * Z) : Z :=
  let (pc, w) := pcw in
  if Z.testbit n pc then Z.lor accumulator w else Z.land accumulator w.

Definition bitcode_fold (n p0 m : Z) (words : list Z) : Z :=
  fold_left (bitcode_step n) (combine (positions_from p0 (Z.to_nat (m - p0))) words) 0.

(** One word of [rng_bias] for the probability [n / 2^m], as a generator
    step. *)
Definition bias_step (n m : Z) (rng : random_t) : Z * random_t := rng_bias rng n m.

Definition popcount_sum (ws : list Z) : Z :=
  fold_right (fun w acc => __builtin_popcountll w + acc) 0 ws.

(** The binomial sampler as the specification words it: one full word per
    chunk of 64 trials until fewer than 64 trials remain, then the final
    partial chunk of the [remaining] trials, its word shifted right by
    [64 - remaining].  When no trial remains there is no partial chunk, and
    no word is drawn for it. *)
Fixpoint bino_spec_loop (fuel : nat) (rng : random_t) (k n m success : Z)
  : Z * Z * random_t :=
  match fuel with
  | O => (success, k, rng)
  | S fuel' =>
      if 64 <=? k then
        let (w, rng') := rng_bias rng n m in
        bino_spec_loop fuel' rng' (k - 64) n m (success + __builtin_popcountll w)
      else (success, k, rng)
  end.

Definition bino_spec (rng : random_t) (k n m : Z) : Z * random_t :=
  let '(success, remaining, rng1) := bino_spec_loop (Z.to_nat (k / 64 + 1)) rng k n m 0 in
  if remaining =? 0 then (success, rng1)
  else
    let (w, rng2) := rng_bias rng1 n m in
    (success + __builtin_popcountll (Z.shiftr w (64 - remaining)), rng2).

(** The output a generator hands out at call number [t] (from 0). *)
Definition output_at {St Out : Type} (step : St -> Out * St) (t : nat) (s : St) : Out :=
  fst (step (after step t s)).

(** The upper 32 bits of a 64-bit block are zero. *)
Definition upper32_clear (q : Z) : Prop := 0 <= q < 2 ^ 64 /\ hi32 q = 0.

(** The state predicate of the vector generator: every block of the state
    and of the increment has its upper half clear, and every increment
    block is odd. *)
Definition simd_invariant (rng : simd_random_t) : Prop :=
  all_lanes upper32_clear (simd_state rng)
  /\ all_lanes (fun q => upper32_clear q /\ low_bit_set q) (simd_increment rng).

(** A 64-bit block holding two 32-bit outputs, the first in its low half. *)
Definition holds_pair (q first second : Z) : Prop :=
  q = pack32 first second /\ lo32 q = first /\ hi32 q = second.

(** Four reference streams side by side, stream [sa] in block 0. *)
Definition lift4 (sa sb sc sd : pcg32i) : simd_random_t :=
  {| simd_state := mk256 (current sa) (current sb) (current sc) (current sd);
     simd_increment :=
       mk256 (increment32 sa) (increment32 sb) (increment32 sc) (increment32 sd) |}.

Definition wf32 (s : pcg32i) : Prop :=
  0 <= current s < 2 ^ 32 /\ 0 <= increment32 s < 2 ^ 32.

(** What [simd_rng_next_partial] computes in one 64-bit block: the output
    block from the state block, and the next state block. *)
Definition lane_out (x : Z) : Z :=
  let count :=
    each32_2 (fun a b => u32 (a + b))
             (each32 (fun v => if 28 >? 31 then 0 else Z.shiftr v 28) x)
             (pack32 (u32 4) (u32 4)) in
  let fx := each32_2 (fun v c => if c <? 32 then Z.shiftr v c else 0) x count in
  let fx := Z.lxor x fx in
  let fx := lo32 fx * lo32 (u64 0x108EF2D9) in
  let fx := Z.land fx (u64 0xFFFFFFFF) in
  Z.lxor (each32 (fun v => if 22 >? 31 then 0 else Z.shiftr v 22) fx) fx.

Definition lane_step (s i : Z) : Z :=
  Z.land (u64 (Z.land (lo32 s * lo32 (u64 0x2C9277B5)) (u64 0xFFFFFFFF) + i))
         (u64 0xFFFFFFFF).

(** Bit [i] of a bit stream held in 64-bit words. *)
Definition stream_bit (a : list Z) (i : Z) : bool :=
  Z.testbit (word_at a i) (i mod 64).

(** The Von Neumann extractor as the specification words it.  Group [g] of
    the source is the pair of stream bits [2g] (the low bit of the group's
    value) and [2g + 1]; the value 01 emits a 1, the value 10 emits a 0, and
    00 and 11 emit nothing.  [emitted src c] are the bits the first [c]
    groups emit. *)
Definition group (src : list Z) (g : nat) : bool * bool :=
  (stream_bit src (2 * Z.of_nat g), stream_bit src (2 * Z.of_nat g + 1)).

Definition emits (g : bool * bool) : list bool :=
  match g with
  | (true, false) => [true]
  | (false, true) => [false]
  | _ => []
  end.

Fixpoint emitted (src : list Z) (c : nat) : list bool :=
  match c with
  | O => []
  | S c' => emitted src c' ++ emits (group src c')
  end.

(** The first [m] bits of [dest] are [bits], followed by zeros. *)
Definition dest_holds (dest : list Z) (m : Z) (bits : list bool) : Prop :=
  forall j, 0 <= j < m -> stream_bit dest j = nth (Z.to_nat j) bits false.

(** ** Further definitions used to state properties *)

(** The inverse of the scalar generator's state update:
    [0xC097EF87329E28A5] is the inverse of the LCG multiplier modulo 2^64.
    It is not part of the library; it states that the update is a
    bijection. *)
Definition rng_prev (rng : random_t) : random_t :=
  {| state := u64 ((state rng - increment rng) * 0xC097EF87329E28A5);
     increment := increment rng |}.

(** [rng'] continues the stream of [rng]: the increment is the same, and a
    64-bit state stays a 64-bit state. *)
Definition keeps_stream (rng rng' : random_t) : Prop :=
  increment rng' = increment rng
  /\ (0 <= state rng < 2 ^ 64 -> 0 <= state rng' < 2 ^ 64).

(** The two "bad mask" assertions of [rng_rand] (lines 218-219), on the mask
    and the span the function computes. *)
Definition rng_rand_mask_asserts (min max : Z) : bool :=
  let scaled_max := u64 (max - min) in
  let bitmask := rand_bitmask scaled_max in
  (__builtin_clzll bitmask =? __builtin_clzll scaled_max)
  && (__builtin_popcountll bitmask =? 64 - __builtin_clzll scaled_max).

(** The number of positions [i] in [[from, from + len)] at which [f] holds. *)
Fixpoint count_from (f : Z -> bool) (from : Z) (len : nat) : Z :=
  match len with
  | O => 0
  | S len' => (if f from then 1 else 0) + count_from f (from + 1) len'
  end.

(** The two counters [rng_cycc] computes before it turns to floating
    point: [(x1, x2)]. *)
Definition rng_cycc_counts (src : list Z) (n k : Z) : Z * Z :=
  rng_cycc_loop (Z.to_nat n) src n k 0 0 0.

(** The input of the test of the alternating stream: every word is
    [0xAAAAAAAAAAAAAAAA]. *)
Definition alternating_stream (words : nat) : list Z :=
  repeat 0xAAAAAAAAAAAAAAAA words.

(** The scalar stream a block of the vector generator carries: the low
    halves of the block's state and increment. *)
Definition lane_stream (rng : simd_random_t) (lane : m256i -> Z) : pcg32i :=
  {| current := lo32 (lane (simd_state rng));
     increment32 := lo32 (lane (simd_increment rng)) |}.

(** The vector generator with the upper half of every block cleared. *)
Definition low_halves (rng : simd_random_t) : simd_random_t :=
  lift4 (lane_stream rng q0) (lane_stream rng q1)
        (lane_stream rng q2) (lane_stream rng q3).

(** The inverse of the state update of [pcg32i_next]: [0xCC2BFE9D] is the
    inverse of the LCG multiplier modulo 2^32.  It is not part of the
    repository; it states that the update is a bijection. *)
Definition pcg32i_prev (st : pcg32i) : pcg32i :=
  {| current := u32 ((current st - increment32 st) * 0xCC2BFE9D);
     increment32 := increment32 st |}.

(** The inverse of [x ^ (x >> t)] on 64-bit words, by [k] rounds of
    substitution; 12 rounds are enough for every [t >= 5]. *)
Fixpoint unxorshift (k : nat) (t v : Z) : Z :=
  match k with
  | O => v
  | S k' => Z.lxor v (Z.shiftr (unxorshift k' t v) t)
  end.

(** The state on which [rng_next] returns the word [w]: the output
    permutation undone step by step.  [0xD04CA582ACB86D69] is the inverse of
    the permutation's multiplier modulo 2^64.  It is not part of the
    library; it states that every word is returned by some state. *)
Definition rng_unpermute (w : Z) : Z :=
  let fx := Z.lxor w (Z.shiftr w 43) in
  let v := u64 (fx * 0xD04CA582ACB86D69) in
  unxorshift 12 (Z.shiftr v 59 + 5) v.

(** * Properties *)

(** ** Machine-integer facts *)

Lemma u64_range (x : Z) : 0 <= u64 x < 2 ^ 64.
Proof. unfold u64. apply Z.mod_pos_bound. reflexivity. Qed.

Lemma u64_small (x : Z) : 0 <= x < 2 ^ 64 -> u64 x = x.
Proof. intros Hx. unfold u64. apply Z.mod_small. exact Hx. Qed.

Lemma u32_range (x : Z) : 0 <= u32 x < 2 ^ 32.
Proof. unfold u32. apply Z.mod_pos_bound. reflexivity. Qed.

Lemma u32_small (x : Z) : 0 <= x < 2 ^ 32 -> u32 x = x.
Proof. intros Hx. unfold u32. apply Z.mod_small. exact Hx. Qed.

(** A value fits in [w] bits exactly when every bit from [w] on is clear. *)
Lemma range_of_bits (x w : Z) :
  0 <= w -> (forall i, w <= i -> Z.testbit x i = false) -> 0 <= x < 2 ^ w.
Proof.
  intros Hw Hhi.
  assert (E : x = x mod 2 ^ w).
  { apply Z.bits_inj'. intros i Hi.
    destruct (Z.lt_ge_cases i w) as [Hlt|Hge].
    - rewrite Z.mod_pow2_bits_low by lia. reflexivity.
    - rewrite Z.mod_pow2_bits_high by lia. apply Hhi. exact Hge. }
  rewrite E. apply Z.mod_pos_bound. apply Z.pow_pos_nonneg; lia.
Qed.

Lemma bits_of_range (x w : Z) :
  0 <= w -> 0 <= x < 2 ^ w -> forall i, w <= i -> Z.testbit x i = false.
Proof.
  intros Hw Hx i Hi.
  rewrite <- (Z.mod_small x (2 ^ w)) by exact Hx.
  apply Z.mod_pow2_bits_high. lia.
Qed.

Lemma land_range (a b w : Z) :
  0 <= w -> 0 <= a < 2 ^ w -> 0 <= Z.land a b < 2 ^ w.
Proof.
  intros Hw Ha. apply range_of_bits; [exact Hw|]. intros i Hi.
  rewrite Z.land_spec, (bits_of_range a w Hw Ha i Hi). reflexivity.
Qed.

Lemma lor_range (a b w : Z) :
  0 <= w -> 0 <= a < 2 ^ w -> 0 <= b < 2 ^ w -> 0 <= Z.lor a b < 2 ^ w.
Proof.
  intros Hw Ha Hb. apply range_of_bits; [exact Hw|]. intros i Hi.
  rewrite Z.lor_spec, (bits_of_range a w Hw Ha i Hi), (bits_of_range b w Hw Hb i Hi).
  reflexivity.
Qed.

Lemma lxor_range (a b w : Z) :
  0 <= w -> 0 <= a < 2 ^ w -> 0 <= b < 2 ^ w -> 0 <= Z.lxor a b < 2 ^ w.
Proof.
  intros Hw Ha Hb. apply range_of_bits; [exact Hw|]. intros i Hi.
  rewrite Z.lxor_spec, (bits_of_range a w Hw Ha i Hi), (bits_of_range b w Hw Hb i Hi).
  reflexivity.
Qed.

Lemma shiftr_range (a k w : Z) :
  0 <= a < 2 ^ w -> 0 <= k -> 0 <= Z.shiftr a k < 2 ^ w.
Proof.
  intros [Ha0 Ha] Hk. rewrite Z.shiftr_div_pow2 by exact Hk.
  assert (0 < 2 ^ k) by (apply Z.pow_pos_nonneg; lia).
  split.
  - apply Z.div_pos; lia.
  - apply Z.le_lt_trans with a; [|exact Ha].
    apply Z.div_le_upper_bound; nia.
Qed.

Lemma lor_1_odd (x : Z) : Z.testbit (Z.lor x 1) 0 = true.
Proof. rewrite Z.lor_spec. apply orb_true_r. Qed.

Lemma testbit0_nonzero (x : Z) : Z.testbit x 0 = true -> x <> 0.
Proof. intros Hb E. subst x. discriminate Hb. Qed.

Lemma rng_next_output_range (rng : random_t) : 0 <= fst (rng_next rng) < 2 ^ 64.
Proof.
  cbn [rng_next fst].
  set (fx := u64 _).
  pose proof (u64_range (Z.lxor (Z.shiftr (state rng) (Z.shiftr (state rng) 59 + 5))
                                (state rng) * 0xAEF17502108EF2D9)) as Hfx.
  fold fx in Hfx.
  apply lxor_range; [lia| |exact Hfx].
  apply shiftr_range; [exact Hfx|lia].
Qed.

(** ** Generator streams *)

Section StreamFacts.
Context {St Out : Type} (step : St -> Out * St).

Lemma outputs_succ (t : nat) (s : St) :
  outputs step (S t) s = fst (step s) :: outputs step t (snd (step s)).
Proof. reflexivity. Qed.

Lemma after_succ (t : nat) (s : St) :
  after step (S t) s = after step t (snd (step s)).
Proof. reflexivity. Qed.

Lemma after_succ_last (t : nat) :
  forall s, after step (S t) s = snd (step (after step t s)).
Proof.
  induction t as [|t IH]; intros s; [reflexivity|].
  rewrite after_succ, IH, <- after_succ. reflexivity.
Qed.

Lemma outputs_length (t : nat) : forall s, length (outputs step t s) = t.
Proof.
  induction t as [|t IH]; intros s; [reflexivity|].
  rewrite outputs_succ. cbn [length]. rewrite IH. reflexivity.
Qed.

End StreamFacts.

Lemma after_add {St Out : Type} (step : St -> Out * St) (a b : nat) :
  forall s, after step (a + b) s = after step b (after step a s).
Proof.
  induction a as [|a IH]; intros s; [reflexivity|].
  change (S a + b)%nat with (S (a + b)). rewrite !after_succ. apply IH.
Qed.

Lemma output_at_after {St Out : Type} (step : St -> Out * St) (a b : nat) (s : St) :
  output_at step b (after step a s) = output_at step (a + b) s.
Proof. unfold output_at. rewrite after_add. reflexivity. Qed.

(** ** rng_next *)

(** C2: one call of [rng_next] on the state [(s, inc)] returns
    [fx ^ (fx >> 43)] for [fx = ((s >> ((s >> 59) + 5)) ^ s) * 0xAEF17502108EF2D9]
    in 64-bit arithmetic and leaves the state [s * 0x5851F42D4C957F2D + inc]
    modulo 2^64 with the increment untouched; the returned word depends on
    the pre-call state value only (any other increment gives the same word)
    and is not the updated state (from the state (1, 1) the two differ); the
    call is defined for every state, with a 64-bit word and a 64-bit state
    as its result. *)
Theorem rng_next_permutes_precall_state (s inc : Z) :
  let fx := u64 (Z.lxor (Z.shiftr s (Z.shiftr s 59 + 5)) s * 0xAEF17502108EF2D9) in
  rng_next (mk_random s inc)
  = (Z.lxor fx (Z.shiftr fx 43),
     mk_random (u64 (s * 0x5851F42D4C957F2D + inc)) inc)
  /\ (forall inc', fst (rng_next (mk_random s inc'))
                   = fst (rng_next (mk_random s inc)))
  /\ (fst (rng_next (mk_random 1 1)) =? state (snd (rng_next (mk_random 1 1)))) = false
  /\ 0 <= fst (rng_next (mk_random s inc)) < 2 ^ 64
  /\ 0 <= state (snd (rng_next (mk_random s inc))) < 2 ^ 64.
Proof.
  intros fx. split; [|split; [|split; [|split]]].
  - unfold rng_next. cbn [state increment]. fold fx.
    rewrite Z.lxor_comm. reflexivity.
  - intros inc'. reflexivity.
  - vm_compute. reflexivity.
  - apply rng_next_output_range.
  - cbn [rng_next snd state]. apply u64_range.
Qed.

(** ** rng_init *)

(** C3: with a nonzero seed [rng_init] returns [state = rng_hash seed] and
    [increment = rng_hash (rng_hash seed) | 1] and draws nothing; with seed 0
    it draws the state and then the increment from the entropy source,
    returns the all-zero pair when the first draw fails or when the second
    one does, and otherwise returns the drawn state with the drawn increment
    forced odd. *)
Theorem rng_init_deterministic_or_drawn `{RandomUtils} (seed : Z) (e : entropy) :
  (seed <> 0 ->
   rng_init seed e
   = (mk_random (rng_hash seed) (Z.lor (rng_hash (rng_hash seed)) 1), e))
  /\ (seed = 0 ->
      match rdrand e with
      | (None, e1) => rng_init seed e = (zero_random, e1)
      | (Some s, e1) =>
          match rdrand e1 with
          | (None, e2) => rng_init seed e = (zero_random, e2)
          | (Some i, e2) =>
              rng_init seed e = (mk_random s (Z.lor i 1), e2)
              /\ Z.odd (Z.lor i 1) = true
          end
      end).
Proof.
  split.
  - intros Hseed. unfold rng_init.
    destruct (Z.eqb_spec seed 0) as [E|_]; [contradiction|]. reflexivity.
  - intros ->. unfold rng_init. cbn [Z.eqb negb].
    destruct (rdrand e) as [[s|] e1]; [|reflexivity].
    destruct (rdrand e1) as [[i|] e2]; [|reflexivity].
    split; [reflexivity|].
    rewrite <- Z.bit0_odd. apply lor_1_odd.
Qed.

Lemma rng_init_deterministic_or_drawn_witness :
  rng_init (H := test_utils) 42 [] = (mk_random (mix 42) (Z.lor (mix (mix 42)) 1), [])
  /\ rng_init (H := test_utils) 0 [Some 6; Some 8; None] = (mk_random 6 9, [None])
  /\ rng_init (H := test_utils) 0 [Some 6] = (zero_random, [])
  /\ rng_init (H := test_utils) 0 [None; Some 8] = (zero_random, [Some 8]).
Proof.
  split; [|split; [|split]].
  - apply (proj1 (rng_init_deterministic_or_drawn (H := test_utils) 42 [])).
    discriminate.
  - apply (proj2 (rng_init_deterministic_or_drawn (H := test_utils) 0
                    [Some 6; Some 8; None]) eq_refl).
  - apply (proj2 (rng_init_deterministic_or_drawn (H := test_utils) 0 [Some 6]) eq_refl).
  - apply (proj2 (rng_init_deterministic_or_drawn (H := test_utils) 0 [None; Some 8])
             eq_refl).
Defined.

(** ** The failure sentinel of the two initialisers *)

Lemma simd_init_success_increment_odd (st inc : m256i) :
  all_lanes low_bit_set (simd_increment (simd_init_success st inc)).
Proof.
  unfold all_lanes, low_bit_set, simd_init_success.
  cbn [simd_increment _mm256_or_si256 _mm256_and_si256 _mm256_set1_epi64x
       map64_2 q0 q1 q2 q3].
  change (u64 1) with 1.
  repeat split; apply lor_1_odd.
Qed.

Lemma simd_init_success_not_zero (st inc : m256i) :
  simd_init_success st inc <> zero_simd.
Proof.
  intros E.
  destruct (simd_init_success_increment_odd st inc) as [Hodd _].
  rewrite E in Hodd. discriminate Hodd.
Qed.

(** C10: [rng_init] returns the all-zero pair exactly when the seed is 0 and a
    draw from the entropy source fails, and [simd_rng_init] returns the
    all-zero vectors exactly when some seed is 0 and a quadruple draw fails;
    every other result has the low bit of its increment (of each increment
    block) set, so it is not the sentinel, and in particular no
    initialisation from nonzero seeds is. *)
Theorem init_sentinel_iff_entropy_failure `{RandomUtils} :
  (forall seed e,
      fst (rng_init seed e) = zero_random <-> seed = 0 /\ draw_fails e)
  /\ (forall seed e,
         fst (rng_init seed e) <> zero_random ->
         low_bit_set (increment (fst (rng_init seed e)))
         /\ increment (fst (rng_init seed e)) <> 0)
  /\ (forall s1 s2 s3 s4 e,
         fst (simd_rng_init s1 s2 s3 s4 e) = zero_simd
         <-> (s1 = 0 \/ s2 = 0 \/ s3 = 0 \/ s4 = 0) /\ quadruple_draw_fails e)
  /\ (forall s1 s2 s3 s4 e,
         fst (simd_rng_init s1 s2 s3 s4 e) <> zero_simd ->
         all_lanes (fun q => low_bit_set q /\ q <> 0)
                   (simd_increment (fst (simd_rng_init s1 s2 s3 s4 e)))).
Proof.
  assert (Hnz : forall x s, mk_random s (Z.lor x 1) <> zero_random).
  { intros x s E. injection E as _ E. exact (testbit0_nonzero _ (lor_1_odd x) E). }
  split; [|split; [|split]].
  - intros seed e. unfold rng_init, draw_fails.
    destruct (Z.eqb_spec seed 0) as [->|Hseed]; cbn [negb].
    + destruct (rdrand e) as [[s|] e1]; cbn [fst snd].
      * destruct (rdrand e1) as [[i|] e2]; cbn [fst].
        -- split.
           ++ intros E. exfalso. exact (Hnz _ _ E).
           ++ intros [_ [E|E]]; discriminate E.
        -- split; [intros _; split; [reflexivity|right; reflexivity]|reflexivity].
      * split; [intros _; split; [reflexivity|left; reflexivity]|reflexivity].
    + cbn [fst]. split.
      * intros E. exfalso. exact (Hnz _ _ E).
      * intros [E _]. contradiction.
  - intros seed e. unfold rng_init.
    destruct (Z.eqb_spec seed 0) as [->|Hseed]; cbn [negb].
    + destruct (rdrand e) as [[s|] e1].
      * destruct (rdrand e1) as [[i|] e2]; cbn [fst increment].
        -- intros _. split; [apply lor_1_odd|apply testbit0_nonzero, lor_1_odd].
        -- intros E. exfalso. apply E. reflexivity.
      * cbn [fst]. intros E. exfalso. apply E. reflexivity.
    + cbn [fst increment]. intros _.
      split; [apply lor_1_odd|apply testbit0_nonzero, lor_1_odd].
  - intros s1 s2 s3 s4 e. unfold simd_rng_init, quadruple_draw_fails.
    destruct (Z.eqb_spec s1 0) as [E1|E1]; cbn [negb andb].
    2: destruct (Z.eqb_spec s2 0) as [E2|E2]; cbn [negb andb].
    3: destruct (Z.eqb_spec s3 0) as [E3|E3]; cbn [negb andb].
    4: destruct (Z.eqb_spec s4 0) as [E4|E4]; cbn [negb andb].
    5: { cbn [fst]. split.
         - intros E. exfalso. exact (simd_init_success_not_zero _ _ E).
         - intros [[E|[E|[E|E]]] _]; contradiction. }
    all: assert (Hz : s1 = 0 \/ s2 = 0 \/ s3 = 0 \/ s4 = 0) by tauto.
    all: destruct (rdrand4 e) as [[[[[LL LH] HL] HH]|] e1]; cbn [fst snd];
      [destruct (rdrand4 e1) as [[[[[LL' LH'] HL'] HH']|] e2]; cbn [fst]|].
    all: try (split; [intros _; split; [exact Hz|tauto]|reflexivity]).
    all: split;
      [intros E; exfalso; exact (simd_init_success_not_zero _ _ E)
      |intros [_ [E|E]]; discriminate E].
  - intros s1 s2 s3 s4 e. unfold simd_rng_init.
    assert (Hok : forall st inc,
               all_lanes (fun q => low_bit_set q /\ q <> 0)
                         (simd_increment (simd_init_success st inc))).
    { intros st inc.
      destruct (simd_init_success_increment_odd st inc) as (H0 & H1 & H2 & H3).
      unfold all_lanes, low_bit_set in *.
      repeat split; try assumption; apply testbit0_nonzero; assumption. }
    destruct (negb (s1 =? 0) && negb (s2 =? 0) && negb (s3 =? 0) && negb (s4 =? 0))%bool.
    + cbn [fst]. intros _. apply Hok.
    + destruct (rdrand4 e) as [[[[[LL LH] HL] HH]|] e1]; cbn [fst];
        [destruct (rdrand4 e1) as [[[[[LL' LH'] HL'] HH']|] e2]; cbn [fst]|].
      * intros _. apply Hok.
      * intros E. exfalso. apply E. reflexivity.
      * intros E. exfalso. apply E. reflexivity.
Qed.

(** ** rng_bias *)

Lemma pos_ctz_nonneg (p : positive) : 0 <= pos_ctz p.
Proof. induction p as [q IH|q IH|]; cbn [pos_ctz]; lia. Qed.

Lemma pos_ctz_lowest_set_bit (p : positive) :
  Z.testbit (Zpos p) (pos_ctz p) = true
  /\ forall i, 0 <= i < pos_ctz p -> Z.testbit (Zpos p) i = false.
Proof.
  induction p as [q IH|q [IHset IHclear]|]; cbn [pos_ctz].
  - split; [reflexivity|intros i Hi; lia].
  - pose proof (pos_ctz_nonneg q) as Hq.
    change (Zpos q~0) with (2 * Zpos q).
    split.
    + replace (1 + pos_ctz q) with (Z.succ (pos_ctz q)) by lia.
      rewrite Z.double_bits_succ. exact IHset.
    + intros i Hi. destruct (Z.eq_dec i 0) as [->|Hi0].
      * apply Z.testbit_even_0.
      * replace i with (Z.succ (i - 1)) by lia.
        rewrite Z.double_bits_succ. apply IHclear. lia.
  - split; [reflexivity|intros i Hi; lia].
Qed.

Lemma ctzll_lowest_set_bit (n m : Z) :
  0 < n < 2 ^ m -> 0 <= m ->
  0 <= __builtin_ctzll n < m
  /\ Z.testbit n (__builtin_ctzll n) = true
  /\ forall i, 0 <= i < __builtin_ctzll n -> Z.testbit n i = false.
Proof.
  intros Hn Hm. destruct n as [|p|p]; try lia.
  cbn [__builtin_ctzll].
  destruct (pos_ctz_lowest_set_bit p) as [Hset Hclear].
  pose proof (pos_ctz_nonneg p) as H0.
  repeat split; try assumption.
  destruct (Z.lt_ge_cases (pos_ctz p) m) as [Hlt|Hge]; [exact Hlt|].
  rewrite (bits_of_range (Zpos p) m Hm) in Hset by lia. discriminate Hset.
Qed.

Lemma bit_select (n pc : Z) :
  0 <= pc -> Z.land (Z.shiftr n pc) 1 = Z.b2z (Z.testbit n pc).
Proof.
  intros Hpc. change 1 with (Z.ones 1) at 1.
  rewrite Z.land_ones by lia.
  rewrite Z.shiftr_div_pow2 by exact Hpc.
  rewrite Z.testbit_spec' by exact Hpc. reflexivity.
Qed.

Lemma rng_next_split (rng : random_t) :
  rng_next rng = (fst (rng_next rng), snd (rng_next rng)).
Proof. destruct (rng_next rng). reflexivity. Qed.

Lemma rng_bias_loop_fold (n m : Z) (fuel : nat) :
  forall pc accumulator rng,
    0 <= pc -> (Z.to_nat (m - pc) <= fuel)%nat ->
    rng_bias_loop fuel n m pc accumulator rng
    = (fold_left (bitcode_step n)
                 (combine (positions_from pc (Z.to_nat (m - pc)))
                          (outputs rng_next (Z.to_nat (m - pc)) rng))
                 accumulator,
       after rng_next (Z.to_nat (m - pc)) rng).
Proof.
  induction fuel as [|fuel IH]; intros pc acc rng Hpc Hfuel.
  - replace (Z.to_nat (m - pc)) with O by lia. reflexivity.
  - cbn [rng_bias_loop]. destruct (Z.ltb_spec pc m) as [Hlt|Hge].
    + replace (Z.to_nat (m - pc)) with (S (Z.to_nat (m - (pc + 1)))) by lia.
      cbn [positions_from outputs rng_next after rng_next combine fold_left].
      rewrite (rng_next_split rng).
      rewrite IH by lia. f_equal. f_equal.
      cbn [bitcode_step]. rewrite bit_select by exact Hpc.
      destruct (Z.testbit n pc); reflexivity.
    + replace (Z.to_nat (m - pc)) with O by lia. reflexivity.
Qed.

(** C4: for [0 < n < 2^m] and [0 < m <= 64], with [p0 = ctz n] the index of
    the lowest set bit of [n], [rng_bias rng n m] is the fold that starts from
    the accumulator 0 and, for the bit positions [p0 .. m-1] in turn, ANDs the
    next generator word into the accumulator when that bit of [n] is 0 and ORs
    it in when the bit is 1; it consumes exactly the first [m - p0] words of
    the generator and leaves it advanced [m - p0] times. *)
Theorem rng_bias_interprets_bitcode (rng : random_t) (n m : Z) :
  0 < n < 2 ^ m -> 0 < m <= 64 ->
  let p0 := __builtin_ctzll n in
  let calls := Z.to_nat (m - p0) in
  (0 <= p0 < m /\ Z.testbit n p0 = true
   /\ forall i, 0 <= i < p0 -> Z.testbit n i = false)
  /\ rng_bias rng n m
     = (bitcode_fold n p0 m (outputs rng_next calls rng), after rng_next calls rng)
  /\ Z.of_nat (length (outputs rng_next calls rng)) = m - p0.
Proof.
  intros Hn Hm p0 calls.
  pose proof (ctzll_lowest_set_bit n m Hn ltac:(lia)) as Hp0. fold p0 in Hp0.
  split; [exact Hp0|]. split.
  - unfold rng_bias, bitcode_fold. fold p0.
    apply rng_bias_loop_fold; lia.
  - rewrite outputs_length. unfold calls. lia.
Qed.

Lemma rng_bias_interprets_bitcode_witness :
  (0 < 5 < 2 ^ 3 /\ 0 < 3 <= 64)
  /\ rng_bias (mk_random 1 1) 5 3
     = (bitcode_fold 5 0 3 (outputs rng_next 3 (mk_random 1 1)), after rng_next 3 (mk_random 1 1)).
Proof.
  split; [lia|].
  apply (proj1 (proj2 (rng_bias_interprets_bitcode (mk_random 1 1) 5 3
                         ltac:(lia) ltac:(lia)))).
Defined.

(** ** rng_rand *)

Lemma pos_bits_log2 (p : positive) : pos_bits p = Z.log2 (Zpos p) + 1.
Proof.
  assert (Hsize : forall q, pos_bits q = Zpos (Pos.size q)).
  { induction q as [q IH|q IH|]; cbn [pos_bits Pos.size];
      rewrite ?IH, ?Pos2Z.inj_succ; lia. }
  rewrite Hsize. destruct p as [q|q|]; cbn [Z.log2 Pos.size];
    rewrite ?Pos2Z.inj_succ; lia.
Qed.

Lemma clzll_bits (x : Z) :
  0 < x < 2 ^ 64 ->
  0 <= __builtin_clzll x < 64
  /\ 2 ^ (63 - __builtin_clzll x) <= x < 2 ^ (64 - __builtin_clzll x).
Proof.
  intros Hx. destruct x as [|p|p]; try lia.
  cbn [__builtin_clzll]. rewrite pos_bits_log2.
  pose proof (Z.log2_spec (Zpos p) ltac:(lia)) as Hlog.
  pose proof (Z.log2_nonneg (Zpos p)) as Hnn.
  assert (Z.log2 (Zpos p) < 64) by (apply Z.log2_lt_pow2; lia).
  replace (63 - (64 - (Z.log2 (Zpos p) + 1))) with (Z.log2 (Zpos p)) by lia.
  replace (64 - (64 - (Z.log2 (Zpos p) + 1))) with (Z.succ (Z.log2 (Zpos p))) by lia.
  split; [lia|exact Hlog].
Qed.

Lemma shiftr_all_ones (c : Z) :
  0 <= c <= 64 -> Z.shiftr (u64 (Z.lnot 0)) c = Z.ones (64 - c).
Proof.
  intros Hc. change (u64 (Z.lnot 0)) with (Z.ones 64).
  apply Z.bits_inj'. intros i Hi.
  rewrite Z.shiftr_spec by exact Hi.
  destruct (Z.lt_ge_cases i (64 - c)) as [Hlt|Hge].
  - rewrite !Z.ones_spec_low by lia. reflexivity.
  - rewrite !Z.ones_spec_high by lia. reflexivity.
Qed.

(** The mask of [rng_rand] covers exactly the bits of the span. *)
Lemma rand_bitmask_covers (span : Z) :
  0 < span < 2 ^ 64 ->
  rand_bitmask span = Z.ones (64 - __builtin_clzll span)
  /\ span <= rand_bitmask span <= 2 * span - 1.
Proof.
  intros Hspan. destruct (clzll_bits span Hspan) as [Hc [Hlo Hhi]].
  assert (E : rand_bitmask span = Z.ones (64 - __builtin_clzll span)).
  { unfold rand_bitmask. apply shiftr_all_ones. lia. }
  split; [exact E|]. rewrite E, Z.ones_equiv.
  replace (64 - __builtin_clzll span) with (Z.succ (63 - __builtin_clzll span)) in * by lia.
  rewrite Z.pow_succ_r in * by lia. lia.
Qed.

Lemma rng_rand_loop_accepts (bitmask scaled_max : Z) (fuel : nat) :
  forall rng sample rng',
    rng_rand_loop fuel rng bitmask scaled_max = Some (sample, rng') ->
    exists j : nat,
      (j < fuel)%nat
      /\ sample = Z.land (nth j (outputs rng_next fuel rng) 0) bitmask
      /\ sample <= scaled_max
      /\ (forall i : nat, (i < j)%nat ->
            scaled_max < Z.land (nth i (outputs rng_next fuel rng) 0) bitmask)
      /\ rng' = after rng_next (S j) rng.
Proof.
  induction fuel as [|fuel IH]; intros rng sample rng' Hrun; [discriminate Hrun|].
  cbn [rng_rand_loop] in Hrun.
  change (outputs rng_next (S fuel) rng)
    with (fst (rng_next rng) :: outputs rng_next fuel (snd (rng_next rng))).
  cbn [after].
  destruct (rng_next rng) as [w rng1]. cbn [fst snd] in *.
  destruct (Z.gtb_spec (Z.land w bitmask) scaled_max) as [Hrej|Hacc].
  - destruct (IH rng1 sample rng' Hrun) as (j & Hj & Hs & Hle & Hbefore & Hrng).
    exists (S j). split; [lia|]. split; [exact Hs|]. split; [exact Hle|]. split.
    + intros [|i] Hi; cbn [nth]; [lia|]. apply Hbefore. lia.
    + rewrite Hrng. reflexivity.
  - injection Hrun as Es Er. exists O.
    split; [lia|]. split; [symmetry; exact Es|]. split; [lia|]. split.
    + intros i Hi. lia.
    + rewrite <- Er. reflexivity.
Qed.

Lemma rng_rand_loop_returns (bitmask scaled_max : Z) (fuel : nat) :
  forall rng (j : nat),
    (j < fuel)%nat ->
    Z.land (nth j (outputs rng_next fuel rng) 0) bitmask <= scaled_max ->
    (forall i : nat, (i < j)%nat ->
        scaled_max < Z.land (nth i (outputs rng_next fuel rng) 0) bitmask) ->
    rng_rand_loop fuel rng bitmask scaled_max
    = Some (Z.land (nth j (outputs rng_next fuel rng) 0) bitmask,
            after rng_next (S j) rng).
Proof.
  induction fuel as [|fuel IH]; intros rng j Hj Hacc Hbefore; [lia|].
  cbn [rng_rand_loop].
  change (outputs rng_next (S fuel) rng)
    with (fst (rng_next rng) :: outputs rng_next fuel (snd (rng_next rng))) in *.
  rewrite (after_succ rng_next j rng).
  destruct (rng_next rng) as [w rng1]. cbn [fst snd] in *.
  destruct j as [|j]; cbn [nth] in *.
  - destruct (Z.gtb_spec (Z.land w bitmask) scaled_max) as [Hrej|_]; [lia|reflexivity].
  - pose proof (Hbefore O ltac:(lia)) as H0. cbn [nth] in H0.
    destruct (Z.gtb_spec (Z.land w bitmask) scaled_max) as [_|Hle]; [|lia].
    apply IH; [lia|exact Hacc|].
    intros i Hi. apply (Hbefore (S i)). lia.
Qed.

Lemma rng_words_range (t : nat) :
  forall rng j, 0 <= nth j (outputs rng_next t rng) 0 < 2 ^ 64.
Proof.
  induction t as [|t IH]; intros rng j; cbn [outputs].
  - destruct j; cbn [nth]; lia.
  - destruct j as [|j]; cbn [nth]; [apply rng_next_output_range|apply IH].
Qed.

(** C8: for [min < max], [rng_rand] works with [span = max - min] and the
    mask [~0 >> clz span], which is [2^b - 1] for the bit length [b] of
    [span] (so [span <= mask <= 2 * span]); it returns exactly when one of
    the draws it may make has a masked value [<= span], and then the value
    returned is [accepted + min] for the first such masked draw [accepted]
    (every earlier masked draw exceeded [span]); every value it returns lies
    in [min, max]. *)
Theorem rng_rand_accepts_within_span
  (fuel : nat) (rng rng' : random_t) (min max v : Z) :
  0 <= min -> min < max -> max < 2 ^ 64 ->
  let span := max - min in
  let mask := rand_bitmask span in
  let masked (i : nat) := Z.land (nth i (outputs rng_next fuel rng) 0) mask in
  (mask = Z.ones (64 - __builtin_clzll span) /\ span <= mask <= 2 * span)
  /\ (rng_rand fuel rng min max = Some (v, rng')
      <-> exists j : nat,
            (j < fuel)%nat
            /\ 0 <= masked j <= span
            /\ (forall i : nat, (i < j)%nat -> span < masked i)
            /\ v = masked j + min
            /\ rng' = after rng_next (S j) rng)
  /\ (rng_rand fuel rng min max = Some (v, rng') -> min <= v <= max).
Proof.
  intros Hmin Hlt Hmax span mask masked.
  assert (Hspan : 0 < span < 2 ^ 64) by (unfold span; lia).
  destruct (rand_bitmask_covers span Hspan) as [Hmask Hcover]. fold mask in Hmask, Hcover.
  assert (Hnonneg : forall i, 0 <= masked i).
  { intros i. unfold masked. apply Z.land_nonneg. left. apply rng_words_range. }
  assert (Hrun : rng_rand fuel rng min max
                 = match rng_rand_loop fuel rng mask span with
                   | Some (sample, rng1) => Some (u64 (sample + min), rng1)
                   | None => None
                   end).
  { unfold rng_rand. rewrite (u64_small (max - min)) by (fold span; lia). reflexivity. }
  assert (Hiff : rng_rand fuel rng min max = Some (v, rng')
                 <-> exists j : nat,
                       (j < fuel)%nat
                       /\ 0 <= masked j <= span
                       /\ (forall i : nat, (i < j)%nat -> span < masked i)
                       /\ v = masked j + min
                       /\ rng' = after rng_next (S j) rng).
  { rewrite Hrun. split.
    - destruct (rng_rand_loop fuel rng mask span) as [[sample rng1]|] eqn:Hloop;
        [|intros E; discriminate E].
      intros E. injection E as Hv Hrng. subst rng1.
      destruct (rng_rand_loop_accepts _ _ _ _ _ _ Hloop)
        as (j & Hj & Hs & Hle & Hbefore & Hadv).
      fold (masked j) in Hs. subst sample.
      pose proof (Hnonneg j) as H0.
      rewrite u64_small in Hv by lia.
      exists j. split; [exact Hj|]. split; [lia|]. split; [exact Hbefore|].
      split; [lia|exact Hadv].
    - intros (j & Hj & Hacc & Hbefore & Hv & Hrng).
      rewrite (rng_rand_loop_returns mask span fuel rng j Hj (proj2 Hacc) Hbefore).
      fold (masked j). rewrite u64_small by lia.
      rewrite Hv, Hrng. reflexivity. }
  split; [split; [exact Hmask|lia]|]. split; [exact Hiff|].
  intros Hsome. apply Hiff in Hsome.
  destruct Hsome as (j & _ & Hacc & _ & Hv & _). lia.
Qed.

Lemma rng_rand_accepts_within_span_witness :
  (0 <= 5 /\ 5 < 9 /\ 9 < 2 ^ 64)
  /\ rng_rand 10 (mk_random 1 1) 5 9
     = Some (9, mk_random 14340359694176818205 1)
  /\ 5 <= 9 <= 9.
Proof.
  split; [lia|].
  split; [vm_compute; reflexivity|].
  apply (proj2 (proj2 (rng_rand_accepts_within_span
                         10 (mk_random 1 1) (mk_random 14340359694176818205 1) 5 9 9
                         ltac:(lia) ltac:(lia) ltac:(lia)))).
  vm_compute. reflexivity.
Defined.

(** ** rng_bino *)

Lemma rng_bias_loop_range (n m : Z) (fuel : nat) :
  forall pc accumulator rng,
    0 <= accumulator < 2 ^ 64 ->
    0 <= fst (rng_bias_loop fuel n m pc accumulator rng) < 2 ^ 64.
Proof.
  induction fuel as [|fuel IH]; intros pc acc rng Hacc; cbn [rng_bias_loop].
  - exact Hacc.
  - destruct (pc <? m); [|exact Hacc].
    pose proof (rng_next_output_range rng) as Hw.
    destruct (rng_next rng) as [w rng1]. cbn [fst] in Hw.
    apply IH.
    destruct (Z.land (Z.shiftr n pc) 1) as [|[q|q|]|q]; try exact Hacc.
    + apply land_range; [lia|exact Hacc].
    + apply lor_range; [lia|exact Hacc|exact Hw].
Qed.

Lemma rng_bias_range (rng : random_t) (n m : Z) :
  0 <= fst (rng_bias rng n m) < 2 ^ 64.
Proof. unfold rng_bias. apply rng_bias_loop_range. lia. Qed.

Lemma pos_popcount_le_bits (p : positive) : 1 <= pos_popcount p <= pos_bits p.
Proof. induction p as [q IH|q IH|]; cbn [pos_popcount pos_bits]; lia. Qed.

(** At most [w] bits of a [w]-bit value are set. *)
Lemma popcountll_le_width (x w : Z) :
  0 <= w -> 0 <= x < 2 ^ w -> 0 <= __builtin_popcountll x <= w.
Proof.
  intros Hw Hx. destruct x as [|p|p]; cbn [__builtin_popcountll]; try lia.
  pose proof (pos_popcount_le_bits p) as Hp.
  rewrite pos_bits_log2 in Hp.
  assert (Z.log2 (Zpos p) < w) by (apply Z.log2_lt_pow2; lia).
  lia.
Qed.

Lemma shiftr_width (x s : Z) :
  0 <= x < 2 ^ 64 -> 0 <= s <= 64 -> 0 <= Z.shiftr x s < 2 ^ (64 - s).
Proof.
  intros Hx Hs. rewrite Z.shiftr_div_pow2 by lia.
  assert (Hp : 0 < 2 ^ s) by (apply Z.pow_pos_nonneg; lia).
  split; [apply Z.div_pos; lia|].
  apply Z.div_lt_upper_bound; [exact Hp|].
  rewrite <- Z.pow_add_r by lia.
  replace (s + (64 - s)) with 64 by lia. lia.
Qed.

Lemma popcount_sum_cons (w : Z) (ws : list Z) :
  popcount_sum (w :: ws) = __builtin_popcountll w + popcount_sum ws.
Proof. reflexivity. Qed.

Lemma popcount_sum_bias_words (n m : Z) (t : nat) :
  forall rng, 0 <= popcount_sum (outputs (bias_step n m) t rng) <= 64 * Z.of_nat t.
Proof.
  induction t as [|t IH]; intros rng.
  - cbn [outputs popcount_sum fold_right]. lia.
  - rewrite outputs_succ, popcount_sum_cons.
    pose proof (IH (snd (bias_step n m rng))) as Hrest.
    pose proof (popcountll_le_width _ 64 ltac:(lia) (rng_bias_range rng n m)) as Hw.
    fold (bias_step n m rng) in Hw. lia.
Qed.

Lemma rng_bino_loop_done (n m : Z) (fuel : nat) (rng : random_t) (k success : Z) :
  k <= 64 -> rng_bino_loop fuel rng k n m success = (success, k, rng).
Proof.
  intros Hk. destruct fuel as [|fuel]; cbn [rng_bino_loop]; [reflexivity|].
  destruct (Z.gtb_spec k 64); [lia|reflexivity].
Qed.

Lemma rng_bino_loop_chunk (n m : Z) (fuel : nat) (rng : random_t) (k success : Z) :
  64 < k < 2 ^ 64 -> 0 <= success -> success + 64 < 2 ^ 64 ->
  rng_bino_loop (S fuel) rng k n m success
  = rng_bino_loop fuel (snd (bias_step n m rng)) (k - 64) n m
                  (success + __builtin_popcountll (fst (bias_step n m rng))).
Proof.
  intros Hk Hs Hsum. unfold bias_step. cbn [rng_bino_loop].
  destruct (Z.gtb_spec k 64) as [_|Hle]; [|lia].
  pose proof (popcountll_le_width _ 64 ltac:(lia) (rng_bias_range rng n m)) as Hw.
  destruct (rng_bias rng n m) as [w rng1]. cbn [fst snd] in Hw |- *.
  rewrite (u64_small (k - 64)) by lia.
  rewrite (u64_small (success + __builtin_popcountll w)) by lia.
  reflexivity.
Qed.

Lemma rng_bino_loop_chunks (n m : Z) (full : nat) :
  forall fuel rng k remaining success,
    k = 64 * Z.of_nat full + remaining -> 1 <= remaining <= 64 -> k < 2 ^ 64 ->
    0 <= success -> success + 64 * Z.of_nat full < 2 ^ 64 ->
    (full <= fuel)%nat ->
    rng_bino_loop fuel rng k n m success
    = (success + popcount_sum (outputs (bias_step n m) full rng), remaining,
       after (bias_step n m) full rng).
Proof.
  induction full as [|full IH]; intros fuel rng k remaining success Hk Hrem Hk64 Hs Hsum Hfuel.
  - assert (E : k = remaining) by lia. subst k.
    rewrite rng_bino_loop_done by lia.
    cbn [outputs after popcount_sum fold_right].
    rewrite Z.add_0_r. reflexivity.
  - destruct fuel as [|fuel]; [lia|].
    rewrite rng_bino_loop_chunk by lia.
    rewrite outputs_succ, after_succ, popcount_sum_cons.
    pose proof (popcountll_le_width _ 64 ltac:(lia) (rng_bias_range rng n m)) as Hw.
    fold (bias_step n m rng) in Hw.
    rewrite (IH fuel (snd (bias_step n m rng)) (k - 64) remaining
               (success + __builtin_popcountll (fst (bias_step n m rng)))) by lia.
    rewrite Z.add_assoc. reflexivity.
Qed.

Lemma outputs_snoc {St Out : Type} (step : St -> Out * St) (t : nat) :
  forall s, outputs step (S t) s = outputs step t s ++ [fst (step (after step t s))].
Proof.
  induction t as [|t IH]; intros s; [reflexivity|].
  rewrite outputs_succ, IH, after_succ. reflexivity.
Qed.

Lemma popcount_sum_app (ws vs : list Z) :
  popcount_sum (ws ++ vs) = popcount_sum ws + popcount_sum vs.
Proof.
  induction ws as [|w ws IH]; [reflexivity|].
  change ((w :: ws) ++ vs) with (w :: (ws ++ vs)).
  rewrite !popcount_sum_cons, IH. lia.
Qed.

(** The code: full words while more than 64 trials remain, then one word
    for the 1 to 64 trials that are left. *)
Lemma rng_bino_code_form (rng : random_t) (k n m : Z) :
  1 <= k < 2 ^ 64 ->
  let full := Z.to_nat ((k - 1) / 64) in
  let left := k - 64 * Z.of_nat full in
  rng_bino rng k n m
  = (popcount_sum (outputs (bias_step n m) full rng)
     + __builtin_popcountll
         (Z.shiftr (fst (rng_bias (after (bias_step n m) full rng) n m)) (64 - left)),
     after (bias_step n m) (S full) rng).
Proof.
  intros Hk full left.
  assert (Hq : 0 <= (k - 1) / 64) by (apply Z.div_pos; lia).
  assert (Hfull : Z.of_nat full = (k - 1) / 64) by (unfold full; lia).
  pose proof (Z.div_mod (k - 1) 64 ltac:(lia)) as Hdm.
  pose proof (Z.mod_pos_bound (k - 1) 64 ltac:(lia)) as Hmod.
  assert (Hleft : 1 <= left <= 64) by (unfold left; lia).
  assert (Hfuel : (full <= Z.to_nat (k / 64))%nat).
  { assert ((k - 1) / 64 <= k / 64) by (apply Z.div_le_mono; lia). lia. }
  pose proof (rng_bino_loop_chunks n m full (Z.to_nat (k / 64)) rng k left 0
                ltac:(unfold left; lia) Hleft ltac:(lia) ltac:(lia) ltac:(lia) Hfuel)
    as Hloop.
  rewrite Z.add_0_l in Hloop.
  pose proof (popcount_sum_bias_words n m full rng) as Hsum.
  pose proof (shiftr_width (fst (rng_bias (after (bias_step n m) full rng) n m))
                (64 - left) (rng_bias_range _ n m) ltac:(lia)) as Hsh.
  replace (64 - (64 - left)) with left in Hsh by lia.
  pose proof (popcountll_le_width _ left ltac:(lia) Hsh) as Hlast.
  unfold rng_bino. rewrite Hloop, after_succ_last.
  replace (snd (bias_step n m (after (bias_step n m) full rng)))
    with (snd (rng_bias (after (bias_step n m) full rng) n m)) by reflexivity.
  destruct (rng_bias (after (bias_step n m) full rng) n m) as [w rng2].
  cbn [fst snd] in Hlast |- *.
  rewrite u64_small by (unfold left in *; lia). reflexivity.
Qed.

(** The loop of the specification: [q] full words, [r < 64] trials left. *)
Lemma bino_spec_loop_chunks (n m : Z) (q : nat) :
  forall fuel rng k r success,
    k = 64 * Z.of_nat q + r -> 0 <= r < 64 -> (q <= fuel)%nat ->
    bino_spec_loop fuel rng k n m success
    = (success + popcount_sum (outputs (bias_step n m) q rng), r,
       after (bias_step n m) q rng).
Proof.
  induction q as [|q IH]; intros fuel rng k r success Hk Hr Hfuel.
  - assert (E : k = r) by lia. clear Hk. subst k.
    cbn [outputs after popcount_sum fold_right]. rewrite Z.add_0_r.
    destruct fuel as [|fuel]; cbn [bino_spec_loop]; [reflexivity|].
    destruct (Z.leb_spec 64 r); [lia|reflexivity].
  - destruct fuel as [|fuel]; [lia|].
    cbn [bino_spec_loop]. destruct (Z.leb_spec 64 k) as [_|Hlt]; [|lia].
    rewrite outputs_succ, after_succ, popcount_sum_cons.
    unfold bias_step at 1 3 5.
    destruct (rng_bias rng n m) as [w rng1]. cbn [fst snd].
    rewrite (IH fuel rng1 (k - 64) r (success + __builtin_popcountll w)) by lia.
    rewrite Z.add_assoc. reflexivity.
Qed.

(** C7: for [k >= 1], [0 < n < 2^m], [0 < m <= 64], [rng_bino] returns the
    value, and leaves the generator in the state, of the procedure that adds
    the population count of one full [rng_bias] word per chunk of 64 trials
    until fewer than 64 trials remain and counts the final partial chunk by
    shifting its biased word right by [64 - remaining]: the shifted word
    has only its [remaining] low-order bits to count.  The chunks cover
    exactly [k] trials, [64 * full + remaining = k], and the value returned
    does not exceed [k]. *)
Theorem rng_bino_counts_k_trials (rng : random_t) (k n m : Z) :
  1 <= k < 2 ^ 64 -> 0 < n < 2 ^ m -> 0 < m <= 64 ->
  let full := Z.to_nat (k / 64) in
  let remaining := k mod 64 in
  let words := outputs (bias_step n m) full rng in
  let rng1 := after (bias_step n m) full rng in
  let tail_word := Z.shiftr (fst (rng_bias rng1 n m)) (64 - remaining) in
  rng_bino rng k n m = bino_spec rng k n m
  /\ bino_spec_loop (Z.to_nat (k / 64 + 1)) rng k n m 0
     = (popcount_sum words, remaining, rng1)
  /\ 0 <= remaining < 64
  /\ 64 * Z.of_nat full + remaining = k
  /\ rng_bino rng k n m
     = (if remaining =? 0 then (popcount_sum words, rng1)
        else (popcount_sum words + __builtin_popcountll tail_word,
              snd (rng_bias rng1 n m)))
  /\ 0 <= popcount_sum words <= 64 * Z.of_nat full
  /\ 0 <= tail_word < 2 ^ remaining
  /\ 0 <= __builtin_popcountll tail_word <= remaining
  /\ 0 <= fst (rng_bino rng k n m) <= k.
Proof.
  intros Hk Hn Hm full remaining words rng1 tail_word.
  assert (Hq : 0 <= k / 64) by (apply Z.div_pos; lia).
  assert (Hfull : Z.of_nat full = k / 64) by (unfold full; lia).
  pose proof (Z.div_mod k 64 ltac:(lia)) as Hdm.
  pose proof (Z.mod_pos_bound k 64 ltac:(lia)) as Hrem. fold remaining in Hdm, Hrem.
  assert (Hq1 : 0 <= (k - 1) / 64) by (apply Z.div_pos; lia).
  pose proof (Z.div_mod (k - 1) 64 ltac:(lia)) as Hdm1.
  pose proof (Z.mod_pos_bound (k - 1) 64 ltac:(lia)) as Hrem1.
  assert (Hspec : bino_spec_loop (Z.to_nat (k / 64 + 1)) rng k n m 0
                  = (popcount_sum words, remaining, rng1)).
  { pose proof (bino_spec_loop_chunks n m full (Z.to_nat (k / 64 + 1)) rng k remaining 0
                  ltac:(lia) Hrem ltac:(lia)) as Hloop.
    rewrite Z.add_0_l in Hloop. exact Hloop. }
  pose proof (popcount_sum_bias_words n m full rng) as Hsum. fold words in Hsum.
  assert (Htail : 0 <= tail_word < 2 ^ remaining).
  { pose proof (shiftr_width (fst (rng_bias rng1 n m)) (64 - remaining)
                  (rng_bias_range _ n m) ltac:(lia)) as Hsh.
    replace (64 - (64 - remaining)) with remaining in Hsh by lia. exact Hsh. }
  assert (Hcount : 0 <= __builtin_popcountll tail_word <= remaining)
    by (apply popcountll_le_width; [lia|exact Htail]).
  assert (Hform : rng_bino rng k n m
                  = (if remaining =? 0 then (popcount_sum words, rng1)
                     else (popcount_sum words + __builtin_popcountll tail_word,
                           snd (rng_bias rng1 n m)))).
  { rewrite (rng_bino_code_form rng k n m Hk).
    destruct (Z.eqb_spec remaining 0) as [Hzero|Hpos].
    - assert (Hsucc : exists p, full = S p /\ Z.to_nat ((k - 1) / 64) = p)
        by (exists (pred full); lia).
      destruct Hsucc as (p & Hsucc & Hprev). rewrite Hprev.
      replace (64 - (k - 64 * Z.of_nat p)) with 0 by lia.
      rewrite Z.shiftr_0_r.
      unfold words, rng1. rewrite Hsucc.
      rewrite outputs_snoc, popcount_sum_app, popcount_sum_cons.
      cbn [popcount_sum fold_right]. rewrite Z.add_0_r. reflexivity.
    - assert (Hsame : Z.to_nat ((k - 1) / 64) = full) by lia.
      rewrite Hsame.
      replace (64 - (k - 64 * Z.of_nat full)) with (64 - remaining) by lia.
      rewrite after_succ_last. reflexivity. }
  split.
  { rewrite Hform. unfold bino_spec. rewrite Hspec.
    destruct (remaining =? 0); [reflexivity|].
    unfold tail_word. destruct (rng_bias rng1 n m) as [w rng2]. reflexivity. }
  split; [exact Hspec|]. split; [exact Hrem|]. split; [lia|].
  split; [exact Hform|]. split; [exact Hsum|]. split; [exact Htail|].
  split; [exact Hcount|].
  rewrite Hform. destruct (Z.eqb_spec remaining 0); cbn [fst]; lia.
Qed.

Lemma rng_bino_counts_k_trials_witness :
  (1 <= 128 < 2 ^ 64 /\ 0 < 3 < 2 ^ 2 /\ 0 < 2 <= 64)
  /\ rng_bino (mk_random 1 1) 128 3 2 = bino_spec (mk_random 1 1) 128 3 2.
Proof.
  split; [lia|].
  apply (proj1 (rng_bino_counts_k_trials (mk_random 1 1) 128 3 2
                  ltac:(lia) ltac:(lia) ltac:(lia))).
Defined.

(** ** rng_cycc *)

(** C6 fails on the code: on a stream whose bits are all equal the
    denominator is 0, the quotient is 0/0 = NaN, and the function's own
    lower-bound assertion does not hold. *)
Lemma rng_cycc_constant_stream_is_nan :
  rng_cycc_quotient [0] 64 1 = S754_nan
  /\ rng_cycc [0] 64 1 = LowerBoundViolation
  /\ rng_cycc_quotient [0xFFFFFFFFFFFFFFFF] 64 1 = S754_nan
  /\ rng_cycc [0xFFFFFFFFFFFFFFFF] 64 1 = LowerBoundViolation
  /\ rng_cycc [0] 1 0 = LowerBoundViolation.
Proof. vm_compute. repeat split. Qed.

(** ** The vector generator, block by block *)

Lemma lo32_small (x : Z) : 0 <= x < 2 ^ 32 -> lo32 x = x.
Proof. apply u32_small. Qed.

Lemma hi32_small (x : Z) : 0 <= x < 2 ^ 32 -> hi32 x = 0.
Proof.
  intros Hx. unfold hi32. rewrite Z.shiftr_div_pow2 by lia.
  rewrite Z.div_small by exact Hx. reflexivity.
Qed.

Lemma pack32_add (lo hi : Z) :
  0 <= lo < 2 ^ 32 -> pack32 lo hi = lo + hi * 2 ^ 32.
Proof.
  intros Hlo. unfold pack32.
  pose proof (Z.add_lor_land lo (Z.shiftl hi 32)) as Hadd.
  assert (Hdisj : Z.land lo (Z.shiftl hi 32) = 0).
  { apply Z.bits_inj'. intros i Hi. rewrite Z.land_spec, Z.bits_0.
    destruct (Z.lt_ge_cases i 32) as [Hlt|Hge].
    - rewrite Z.shiftl_spec_low by exact Hlt. apply andb_false_r.
    - rewrite (bits_of_range lo 32) by (lia || exact Hlo). reflexivity. }
  rewrite Hdisj, Z.add_0_r in Hadd. rewrite Hadd.
  rewrite Z.shiftl_mul_pow2 by lia. reflexivity.
Qed.

Lemma pack32_zero (lo : Z) : pack32 lo 0 = lo.
Proof. unfold pack32. rewrite Z.shiftl_0_l. apply Z.lor_0_r. Qed.

Lemma lo32_pack32 (lo hi : Z) : 0 <= lo < 2 ^ 32 -> lo32 (pack32 lo hi) = lo.
Proof.
  intros Hlo. rewrite pack32_add by exact Hlo. unfold lo32, u32.
  rewrite Z.mod_add by lia. apply Z.mod_small. exact Hlo.
Qed.

Lemma hi32_pack32 (lo hi : Z) :
  0 <= lo < 2 ^ 32 -> 0 <= hi < 2 ^ 32 -> hi32 (pack32 lo hi) = hi.
Proof.
  intros Hlo Hhi. rewrite pack32_add by exact Hlo. unfold hi32, u32.
  rewrite Z.shiftr_div_pow2 by lia.
  rewrite Z.div_add by lia. rewrite Z.div_small by exact Hlo.
  apply Z.mod_small. lia.
Qed.

Lemma land_mask32 (x : Z) : Z.land x (u64 0xFFFFFFFF) = u32 x.
Proof. change (u64 0xFFFFFFFF) with (Z.ones 32). apply Z.land_ones. lia. Qed.

Lemma upper32_clear_iff (q : Z) : upper32_clear q <-> 0 <= q < 2 ^ 32.
Proof.
  unfold upper32_clear, hi32, u32. split.
  - intros [Hq Hhi]. rewrite Z.shiftr_div_pow2 in Hhi by lia.
    assert (Hdiv : 0 <= q / 2 ^ 32 < 2 ^ 32).
    { split; [apply Z.div_pos; lia|apply Z.div_lt_upper_bound; lia]. }
    rewrite Z.mod_small in Hhi by exact Hdiv.
    pose proof (Z.div_mod q (2 ^ 32) ltac:(lia)) as Hdm.
    pose proof (Z.mod_pos_bound q (2 ^ 32) ltac:(lia)) as Hmod.
    rewrite Hhi in Hdm. lia.
  - intros Hq. split; [lia|].
    rewrite Z.shiftr_div_pow2 by lia. rewrite Z.div_small by exact Hq. reflexivity.
Qed.

Lemma each32_low (f : Z -> Z) (x : Z) :
  0 <= x < 2 ^ 32 -> f 0 = 0 -> each32 f x = f x.
Proof.
  intros Hx Hf. unfold each32.
  rewrite lo32_small, hi32_small by exact Hx. rewrite Hf. apply pack32_zero.
Qed.

Lemma each32_2_low_pack (g : Z -> Z -> Z) (x lo hi : Z) :
  0 <= x < 2 ^ 32 -> 0 <= lo < 2 ^ 32 -> 0 <= hi < 2 ^ 32 ->
  each32_2 g x (pack32 lo hi) = pack32 (g x lo) (g 0 hi).
Proof.
  intros Hx Hlo Hhi. unfold each32_2.
  rewrite lo32_small, hi32_small by exact Hx.
  rewrite lo32_pack32, hi32_pack32 by assumption. reflexivity.
Qed.

Lemma simd_rng_next_partial_lanes (rng : simd_random_t) :
  simd_rng_next_partial rng
  = (map64 lane_out (simd_state rng),
     {| simd_state := map64_2 lane_step (simd_state rng) (simd_increment rng);
        simd_increment := simd_increment rng |}).
Proof. reflexivity. Qed.

Lemma shiftr28_small (x : Z) : 0 <= x < 2 ^ 32 -> 0 <= Z.shiftr x 28 < 16.
Proof.
  intros Hx. rewrite Z.shiftr_div_pow2 by lia. split.
  - apply Z.div_pos; lia.
  - apply Z.div_lt_upper_bound; lia.
Qed.

(** In a block whose upper half is clear, the partial step computes the
    output of the reference PCG32i on the lower half. *)
Lemma lane_out_pcg32i (s : pcg32i) :
  0 <= current s < 2 ^ 32 -> lane_out (current s) = fst (pcg32i_next s).
Proof.
  intros Hx. set (x := current s) in *.
  pose proof (shiftr28_small x Hx) as H28.
  unfold lane_out.
  change (28 >? 31) with false. change (22 >? 31) with false. cbv iota.
  change (u32 4) with 4.
  rewrite (each32_low (fun v => Z.shiftr v 28)) by (exact Hx || reflexivity).
  rewrite (each32_2_low_pack (fun a b => u32 (a + b))) by lia.
  cbv beta. change (u32 (0 + 4)) with 4.
  rewrite (u32_small (Z.shiftr x 28 + 4)) by lia.
  rewrite (each32_2_low_pack (fun v c => if c <? 32 then Z.shiftr v c else 0)) by lia.
  cbv beta. change (4 <? 32) with true. cbv iota.
  change (Z.shiftr 0 4) with 0. rewrite pack32_zero.
  destruct (Z.ltb_spec (Z.shiftr x 28 + 4) 32) as [_|Hge]; [|lia].
  assert (Hsh : 0 <= Z.shiftr x (Z.shiftr x 28 + 4) < 2 ^ 32)
    by (apply shiftr_range; lia).
  assert (Hxor : 0 <= Z.lxor x (Z.shiftr x (Z.shiftr x 28 + 4)) < 2 ^ 32)
    by (apply lxor_range; lia).
  rewrite (lo32_small _ Hxor).
  change (lo32 (u64 0x108EF2D9)) with 277803737.
  rewrite land_mask32.
  rewrite (each32_low (fun v => Z.shiftr v 22)) by (apply u32_range || reflexivity).
  unfold pcg32i_next. cbn [fst]. fold x.
  rewrite (Z.lxor_comm (Z.shiftr x (Z.shiftr x 28 + 4)) x). reflexivity.
Qed.

Lemma lane_step_pcg32i (s : pcg32i) :
  wf32 s -> lane_step (current s) (increment32 s) = current (snd (pcg32i_next s)).
Proof.
  intros [Hx Hi]. unfold lane_step, pcg32i_next. cbn [snd current].
  rewrite (lo32_small _ Hx). change (lo32 (u64 0x2C9277B5)) with 747796405.
  rewrite !land_mask32.
  pose proof (u32_range (current s * 747796405)) as Hm.
  rewrite u64_small by lia.
  unfold u32. rewrite Z.add_mod_idemp_l by lia. reflexivity.
Qed.

Lemma pcg32i_next_wf (s : pcg32i) :
  wf32 s -> wf32 (snd (pcg32i_next s)) /\ 0 <= fst (pcg32i_next s) < 2 ^ 32.
Proof.
  intros [Hx Hi]. unfold wf32, pcg32i_next. cbn [fst snd current increment32].
  split; [split; [apply u32_range|exact Hi]|].
  set (fx := u32 _). pose proof (u32_range
    (Z.lxor (Z.shiftr (current s) (Z.shiftr (current s) 28 + 4)) (current s) * 277803737)) as Hfx.
  fold fx in Hfx.
  apply lxor_range; [lia| |exact Hfx]. apply shiftr_range; [exact Hfx|lia].
Qed.

Lemma pcg32i_after_wf (t : nat) : forall s, wf32 s -> wf32 (after pcg32i_next t s).
Proof.
  induction t as [|t IH]; intros s Hs; [exact Hs|].
  rewrite after_succ. apply IH. apply pcg32i_next_wf. exact Hs.
Qed.

Lemma simd_rng_next_partial_lift4 (sa sb sc sd : pcg32i) :
  wf32 sa -> wf32 sb -> wf32 sc -> wf32 sd ->
  simd_rng_next_partial (lift4 sa sb sc sd)
  = (mk256 (fst (pcg32i_next sa)) (fst (pcg32i_next sb))
           (fst (pcg32i_next sc)) (fst (pcg32i_next sd)),
     lift4 (snd (pcg32i_next sa)) (snd (pcg32i_next sb))
           (snd (pcg32i_next sc)) (snd (pcg32i_next sd))).
Proof.
  intros Ha Hb Hc Hd. rewrite simd_rng_next_partial_lanes.
  unfold lift4, map64, map64_2. cbn [simd_state simd_increment q0 q1 q2 q3].
  rewrite !lane_out_pcg32i by (apply Ha || apply Hb || apply Hc || apply Hd).
  rewrite !lane_step_pcg32i by assumption.
  reflexivity.
Qed.

Lemma or_shifted_upper (lower upper : Z) :
  0 <= lower < 2 ^ 32 -> 0 <= upper < 2 ^ 32 ->
  Z.lor (if 32 >? 63 then 0 else u64 (Z.shiftl upper 32)) lower = pack32 lower upper.
Proof.
  intros Hl Hu. change (32 >? 63) with false. cbv iota.
  rewrite u64_small by (rewrite Z.shiftl_mul_pow2 by lia; lia).
  apply Z.lor_comm.
Qed.

(** One call of [simd_rng_next] on four reference streams side by side: each
    block packs two successive outputs of its stream, and each stream has
    moved on twice. *)
Lemma simd_rng_next_lift4 (sa sb sc sd : pcg32i) :
  wf32 sa -> wf32 sb -> wf32 sc -> wf32 sd ->
  simd_rng_next (lift4 sa sb sc sd)
  = (mk256 (pack32 (output_at pcg32i_next 0 sa) (output_at pcg32i_next 1 sa))
           (pack32 (output_at pcg32i_next 0 sb) (output_at pcg32i_next 1 sb))
           (pack32 (output_at pcg32i_next 0 sc) (output_at pcg32i_next 1 sc))
           (pack32 (output_at pcg32i_next 0 sd) (output_at pcg32i_next 1 sd)),
     lift4 (after pcg32i_next 2 sa) (after pcg32i_next 2 sb)
           (after pcg32i_next 2 sc) (after pcg32i_next 2 sd)).
Proof.
  intros Ha Hb Hc Hd.
  destruct (pcg32i_next_wf sa Ha) as [Ha1 Hoa], (pcg32i_next_wf sb Hb) as [Hb1 Hob],
    (pcg32i_next_wf sc Hc) as [Hc1 Hoc], (pcg32i_next_wf sd Hd) as [Hd1 Hod].
  destruct (pcg32i_next_wf _ Ha1) as [_ Hoa2], (pcg32i_next_wf _ Hb1) as [_ Hob2],
    (pcg32i_next_wf _ Hc1) as [_ Hoc2], (pcg32i_next_wf _ Hd1) as [_ Hod2].
  unfold simd_rng_next.
  rewrite simd_rng_next_partial_lift4 by assumption.
  rewrite simd_rng_next_partial_lift4 by assumption.
  unfold _mm256_slli_epi64, _mm256_or_si256, map64, map64_2.
  cbn [q0 q1 q2 q3].
  rewrite !or_shifted_upper by assumption.
  reflexivity.
Qed.

(** ** The state predicate of the vector generator *)

Lemma masked_upper32_clear (x : Z) : upper32_clear (Z.land x (u64 0xFFFFFFFF)).
Proof. rewrite land_mask32. apply upper32_clear_iff. apply u32_range. Qed.

Lemma masked_odd_increment (x : Z) :
  upper32_clear (Z.lor (Z.land x (u64 0xFFFFFFFF)) (u64 1))
  /\ low_bit_set (Z.lor (Z.land x (u64 0xFFFFFFFF)) (u64 1)).
Proof.
  change (u64 1) with 1. split; [|apply lor_1_odd].
  apply upper32_clear_iff. rewrite land_mask32.
  apply lor_range; [lia|apply u32_range|lia].
Qed.

Lemma all_lanes_intro (P : Z -> Prop) (a b c d : Z) :
  P a -> P b -> P c -> P d -> all_lanes P (mk256 a b c d).
Proof. intros Ha Hb Hc Hd. exact (conj Ha (conj Hb (conj Hc Hd))). Qed.

Lemma simd_init_success_invariant (st inc : m256i) :
  simd_invariant (simd_init_success st inc).
Proof.
  unfold simd_invariant, simd_init_success,
    _mm256_and_si256, _mm256_or_si256, _mm256_set1_epi64x, map64_2.
  cbn [simd_state simd_increment q0 q1 q2 q3].
  split; apply all_lanes_intro;
    first [apply masked_upper32_clear | apply masked_odd_increment].
Qed.

Lemma lane_step_upper32_clear (s i : Z) : upper32_clear (lane_step s i).
Proof. unfold lane_step. apply masked_upper32_clear. Qed.

Lemma simd_rng_next_state (rng : simd_random_t) :
  snd (simd_rng_next rng)
  = snd (simd_rng_next_partial (snd (simd_rng_next_partial rng))).
Proof.
  unfold simd_rng_next. rewrite (simd_rng_next_partial_lanes rng). cbv iota.
  rewrite simd_rng_next_partial_lanes. reflexivity.
Qed.

Lemma simd_rng_next_partial_keeps (rng : simd_random_t) :
  all_lanes upper32_clear (simd_state (snd (simd_rng_next_partial rng)))
  /\ simd_increment (snd (simd_rng_next_partial rng)) = simd_increment rng.
Proof.
  rewrite simd_rng_next_partial_lanes. cbn [snd simd_state simd_increment].
  split; [|reflexivity].
  unfold map64_2. apply all_lanes_intro; apply lane_step_upper32_clear.
Qed.

(** C9: every result of [simd_rng_init] other than the all-zero sentinel has
    the upper 32 bits of each 64-bit block of its state and of its increment
    clear and each increment block odd; [simd_rng_next] and each of its two
    partial steps preserve this: the new state is the lane product masked to
    32 bits, plus the increment, masked again, and the increment vector is
    returned unchanged. *)
Theorem simd_invariant_established_and_preserved `{RandomUtils} :
  (forall s1 s2 s3 s4 e,
      fst (simd_rng_init s1 s2 s3 s4 e) <> zero_simd ->
      simd_invariant (fst (simd_rng_init s1 s2 s3 s4 e)))
  /\ (forall rng,
         simd_invariant rng ->
         simd_invariant (snd (simd_rng_next rng))
         /\ simd_increment (snd (simd_rng_next rng)) = simd_increment rng)
  /\ (forall rng,
         let mask := _mm256_set1_epi64x 0xFFFFFFFF in
         let product := _mm256_mul_epu32 (simd_state rng) (_mm256_set1_epi64x 0x2C9277B5) in
         simd_state (snd (simd_rng_next_partial rng))
         = _mm256_and_si256
             (_mm256_add_epi64 (_mm256_and_si256 product mask) (simd_increment rng))
             mask
         /\ simd_increment (snd (simd_rng_next_partial rng)) = simd_increment rng
         /\ (simd_invariant rng -> simd_invariant (snd (simd_rng_next_partial rng)))).
Proof.
  split; [|split].
  - intros s1 s2 s3 s4 e. unfold simd_rng_init.
    destruct (negb (s1 =? 0) && negb (s2 =? 0) && negb (s3 =? 0) && negb (s4 =? 0))%bool.
    + intros _. apply simd_init_success_invariant.
    + destruct (rdrand4 e) as [[[[[LL LH] HL] HH]|] e1]; cbn [fst];
        [destruct (rdrand4 e1) as [[[[[LL' LH'] HL'] HH']|] e2]; cbn [fst]|].
      * intros _. apply simd_init_success_invariant.
      * intros E. exfalso. apply E. reflexivity.
      * intros E. exfalso. apply E. reflexivity.
  - intros rng [Hst Hinc]. rewrite simd_rng_next_state.
    destruct (simd_rng_next_partial_keeps rng) as [_ Hi1].
    destruct (simd_rng_next_partial_keeps (snd (simd_rng_next_partial rng))) as [Hs2 Hi2].
    rewrite Hi1 in Hi2.
    split; [|exact Hi2].
    split; [exact Hs2|]. rewrite Hi2. exact Hinc.
  - intros rng mask product.
    destruct (simd_rng_next_partial_keeps rng) as [Hs Hi].
    split; [reflexivity|]. split; [exact Hi|].
    intros [_ Hinc]. split; [exact Hs|]. rewrite Hi. exact Hinc.
Qed.

Lemma simd_invariant_established_and_preserved_witness :
  simd_invariant (fst (simd_rng_init (H := test_utils) 10 20 30 40 []))
  /\ simd_invariant
       (snd (simd_rng_next (fst (simd_rng_init (H := test_utils) 10 20 30 40 [])))).
Proof.
  assert (Hinit : simd_invariant (fst (simd_rng_init (H := test_utils) 10 20 30 40 []))).
  { apply (proj1 (simd_invariant_established_and_preserved (H := test_utils))).
    vm_compute. discriminate. }
  split; [exact Hinit|].
  apply (proj1 (proj2 (simd_invariant_established_and_preserved (H := test_utils)))).
  exact Hinit.
Defined.

(** ** The vector generator against four scalar PCG32i streams *)

Lemma u32_of_u64 (x : Z) : u32 (u64 x) = u32 x.
Proof.
  unfold u32, u64. apply Z.mod_mod_divide.
  exists (2 ^ 32). reflexivity.
Qed.

Lemma u32_lor_1 (x : Z) : Z.lor (u32 x) 1 = u32 (Z.lor x 1).
Proof.
  unfold u32. rewrite <- !Z.land_ones by lia.
  rewrite Z.land_lor_distr_l. reflexivity.
Qed.

Lemma pcg32i_seed_wf (hash : Z -> Z) (seed : Z) : wf32 (pcg32i_seed hash seed).
Proof. unfold wf32, pcg32i_seed. cbn [current increment32]. split; apply u32_range. Qed.

Lemma simd_init_success_lift4 (hash : Z -> Z) (a b c d : Z) :
  simd_init_success
    (_mm256_set_epi64x (hash d) (hash c) (hash b) (hash a))
    (_mm256_set_epi64x (hash (hash d)) (hash (hash c)) (hash (hash b)) (hash (hash a)))
  = lift4 (pcg32i_seed hash a) (pcg32i_seed hash b)
          (pcg32i_seed hash c) (pcg32i_seed hash d).
Proof.
  unfold simd_init_success, lift4, pcg32i_seed, _mm256_and_si256, _mm256_or_si256,
    _mm256_set1_epi64x, _mm256_set_epi64x, map64_2.
  cbn [q0 q1 q2 q3 current increment32].
  change (u64 1) with 1.
  rewrite !land_mask32, !u32_of_u64, !u32_lor_1. reflexivity.
Qed.

Lemma simd_rng_init_lift4 `{RandomUtils} (a b c d : Z) (e : entropy) :
  a <> 0 -> b <> 0 -> c <> 0 -> d <> 0 ->
  simd_rng_init a b c d e
  = (lift4 (pcg32i_seed rng_hash a) (pcg32i_seed rng_hash b)
           (pcg32i_seed rng_hash c) (pcg32i_seed rng_hash d), e).
Proof.
  intros Ha Hb Hc Hd. unfold simd_rng_init.
  destruct (Z.eqb_spec a 0) as [E|_]; [contradiction|].
  destruct (Z.eqb_spec b 0) as [E|_]; [contradiction|].
  destruct (Z.eqb_spec c 0) as [E|_]; [contradiction|].
  destruct (Z.eqb_spec d 0) as [E|_]; [contradiction|].
  cbn [negb andb]. cbv zeta.
  rewrite simd_init_success_lift4. reflexivity.
Qed.

Lemma simd_after_lift4 (t : nat) :
  forall sa sb sc sd,
    wf32 sa -> wf32 sb -> wf32 sc -> wf32 sd ->
    after simd_rng_next t (lift4 sa sb sc sd)
    = lift4 (after pcg32i_next (2 * t) sa) (after pcg32i_next (2 * t) sb)
            (after pcg32i_next (2 * t) sc) (after pcg32i_next (2 * t) sd).
Proof.
  induction t as [|t IH]; intros sa sb sc sd Ha Hb Hc Hd; [reflexivity|].
  rewrite after_succ, simd_rng_next_lift4 by assumption. cbn [snd].
  rewrite IH by (apply pcg32i_after_wf; assumption).
  replace (2 * S t)%nat with (2 + 2 * t)%nat by lia.
  rewrite !after_add. reflexivity.
Qed.

Lemma holds_pair_pack32 (first second : Z) :
  0 <= first < 2 ^ 32 -> 0 <= second < 2 ^ 32 ->
  holds_pair (pack32 first second) first second.
Proof.
  intros Hf Hs. unfold holds_pair.
  split; [reflexivity|]. split; [apply lo32_pack32|apply hi32_pack32]; assumption.
Qed.

Lemma pcg32i_output_range (t : nat) (s : pcg32i) :
  wf32 s -> 0 <= output_at pcg32i_next t s < 2 ^ 32.
Proof.
  intros Hs. unfold output_at.
  apply pcg32i_next_wf. apply pcg32i_after_wf. exact Hs.
Qed.

(** C1: for nonzero seeds [a, b, c, d], call number [t] of [simd_rng_next] on
    the state built by [simd_rng_init a b c d] returns four 64-bit blocks;
    block 0 holds output [2t] of the scalar PCG32i stream seeded from [a]
    (state [(uint32_t) rng_hash a], increment
    [(uint32_t) (rng_hash (rng_hash a) | 1)]) in its low 32 bits and output
    [2t + 1] of that stream in its high 32 bits, and blocks 1, 2, 3 hold the
    same for the streams seeded from [b], [c], [d]. *)
Theorem simd_rng_next_is_four_pcg32i_streams `{RandomUtils}
  (a b c d : Z) (e : entropy) (t : nat) :
  a <> 0 -> b <> 0 -> c <> 0 -> d <> 0 ->
  let out := output_at simd_rng_next t (fst (simd_rng_init a b c d e)) in
  let stream seed i := output_at pcg32i_next i (pcg32i_seed rng_hash seed) in
  holds_pair (q0 out) (stream a (2 * t)%nat) (stream a (2 * t + 1)%nat)
  /\ holds_pair (q1 out) (stream b (2 * t)%nat) (stream b (2 * t + 1)%nat)
  /\ holds_pair (q2 out) (stream c (2 * t)%nat) (stream c (2 * t + 1)%nat)
  /\ holds_pair (q3 out) (stream d (2 * t)%nat) (stream d (2 * t + 1)%nat).
Proof.
  intros Ha Hb Hc Hd out stream.
  assert (Hout : out = mk256 (pack32 (stream a (2 * t)%nat) (stream a (2 * t + 1)%nat))
                             (pack32 (stream b (2 * t)%nat) (stream b (2 * t + 1)%nat))
                             (pack32 (stream c (2 * t)%nat) (stream c (2 * t + 1)%nat))
                             (pack32 (stream d (2 * t)%nat) (stream d (2 * t + 1)%nat))).
  { unfold out, stream, output_at at 1.
    rewrite simd_rng_init_lift4 by assumption. cbn [fst].
    rewrite simd_after_lift4 by apply pcg32i_seed_wf.
    rewrite simd_rng_next_lift4 by (apply pcg32i_after_wf; apply pcg32i_seed_wf).
    cbn [fst]. rewrite !output_at_after.
    replace (2 * t + 0)%nat with (2 * t)%nat by lia. reflexivity. }
  rewrite Hout. cbn [q0 q1 q2 q3]. unfold stream.
  split; [|split; [|split]];
    apply holds_pair_pack32; apply pcg32i_output_range; apply pcg32i_seed_wf.
Qed.

Lemma simd_rng_next_is_four_pcg32i_streams_witness :
  (10 <> 0 /\ 20 <> 0 /\ 30 <> 0 /\ 40 <> 0)
  /\ holds_pair
       (q0 (output_at simd_rng_next 3 (fst (simd_rng_init (H := test_utils) 10 20 30 40 []))))
       (output_at pcg32i_next 6 (pcg32i_seed mix 10))
       (output_at pcg32i_next 7 (pcg32i_seed mix 10)).
Proof.
  split; [repeat split; discriminate|].
  apply (proj1 (simd_rng_next_is_four_pcg32i_streams (H := test_utils) 10 20 30 40 [] 3
                  ltac:(discriminate) ltac:(discriminate)
                  ltac:(discriminate) ltac:(discriminate))).
Defined.

(** ** rng_vndb *)

(** The test macro reads the stream bit it is asked for. *)
Lemma u64_bitarray_test_stream_bit (a : list Z) (i : Z) :
  0 <= i -> u64_bitarray_test a i = stream_bit a i.
Proof.
  intros Hi. unfold u64_bitarray_test, stream_bit.
  pose proof (Z.mod_pos_bound i 64 ltac:(lia)) as Hmod.
  rewrite bit_select by lia.
  destruct (Z.testbit (word_at a i) (i mod 64)); reflexivity.
Qed.

Lemma nth_list_update (f : Z -> Z) (a : list Z) :
  forall i k : nat,
    nth k (list_update a i f) 0
    = if (Nat.eqb k i && Nat.ltb i (length a))%bool then f (nth k a 0) else nth k a 0.
Proof.
  induction a as [|w a IH]; intros i k.
  - cbn [list_update length]. destruct k; cbn [nth]; rewrite andb_false_r; reflexivity.
  - destruct i as [|i]; cbn [list_update].
    + destruct k as [|k]; reflexivity.
    + destruct k as [|k]; cbn [nth]; [reflexivity|].
      rewrite IH. reflexivity.
Qed.

Lemma list_update_length (f : Z -> Z) (a : list Z) :
  forall i, length (list_update a i f) = length a.
Proof.
  induction a as [|w a IH]; intros i; [reflexivity|].
  destruct i as [|i]; cbn [list_update length]; [reflexivity|].
  rewrite IH. reflexivity.
Qed.

Lemma testbit_set_bit (w s t : Z) :
  0 <= s -> 0 <= t ->
  Z.testbit (Z.lor w (Z.shiftl 1 s)) t = (Z.testbit w t || (s =? t))%bool.
Proof.
  intros Hs Ht. rewrite Z.lor_spec, Z.shiftl_1_l.
  rewrite Z.pow2_bits_eqb by exact Hs. reflexivity.
Qed.

Lemma bit_index_eq (i j : Z) :
  i / 64 = j / 64 -> i mod 64 = j mod 64 -> i = j.
Proof.
  intros Hd Hm.
  rewrite (Z.div_mod i 64), (Z.div_mod j 64) by lia. rewrite Hd, Hm. reflexivity.
Qed.

(** Setting bit [p] of a stream changes that bit and no other. *)
Lemma stream_bit_set (dest : list Z) (p j : Z) :
  0 <= p < 64 * Z.of_nat (length dest) -> 0 <= j ->
  stream_bit (u64_bitarray_set dest p) j
  = if j =? p then true else stream_bit dest j.
Proof.
  intros Hp Hj. unfold stream_bit, u64_bitarray_set, word_at.
  pose proof (Z.mod_pos_bound p 64 ltac:(lia)) as Hpm.
  pose proof (Z.mod_pos_bound j 64 ltac:(lia)) as Hjm.
  assert (Hpd : 0 <= p / 64 < Z.of_nat (length dest)).
  { split; [apply Z.div_pos; lia|apply Z.div_lt_upper_bound; lia]. }
  assert (Hjd : 0 <= j / 64) by (apply Z.div_pos; lia).
  rewrite nth_list_update.
  destruct (Nat.ltb_spec (Z.to_nat (p / 64)) (length dest)) as [_|Hge]; [|lia].
  rewrite andb_true_r.
  destruct (Nat.eqb_spec (Z.to_nat (j / 64)) (Z.to_nat (p / 64))) as [Eword|Nword].
  - rewrite testbit_set_bit by lia.
    destruct (Z.eqb_spec (p mod 64) (j mod 64)) as [Ebit|Nbit].
    + rewrite orb_true_r.
      assert (j = p) by (apply bit_index_eq; lia). subst j.
      rewrite Z.eqb_refl. reflexivity.
    + rewrite orb_false_r.
      destruct (Z.eqb_spec j p) as [->|_]; [contradiction Nbit; reflexivity|reflexivity].
  - destruct (Z.eqb_spec j p) as [->|_]; [contradiction Nword; reflexivity|reflexivity].
Qed.

Lemma stream_bit_tail (w : Z) (a : list Z) (j : Z) :
  64 <= j -> stream_bit (w :: a) j = stream_bit a (j - 64).
Proof.
  intros Hj. unfold stream_bit, word_at.
  replace j with ((j - 64) + 1 * 64) at 1 2 by lia.
  rewrite Z.div_add, Z.mod_add by lia.
  assert (0 <= (j - 64) / 64) by (apply Z.div_pos; lia).
  replace (Z.to_nat ((j - 64) / 64 + 1)) with (S (Z.to_nat ((j - 64) / 64))) by lia.
  reflexivity.
Qed.

Lemma stream_bit_head (w : Z) (a : list Z) (j : Z) :
  0 <= j < 64 -> stream_bit (w :: a) j = Z.testbit w j.
Proof.
  intros Hj. unfold stream_bit, word_at.
  rewrite Z.div_small, Z.mod_small by exact Hj. reflexivity.
Qed.

Lemma memset_zero_length (dest : list Z) :
  forall bytes, length (memset_zero dest bytes) = length dest.
Proof.
  induction dest as [|w dest IH]; intros bytes; [reflexivity|].
  cbn [memset_zero]. destruct (bytes <=? 0); [reflexivity|].
  destruct (8 <=? bytes); cbn [length]; [rewrite IH|]; reflexivity.
Qed.

(** [memset] clears every bit of the bytes it covers. *)
Lemma memset_zero_clears (dest : list Z) :
  forall bytes j,
    0 <= j < 8 * bytes -> j < 64 * Z.of_nat (length dest) ->
    stream_bit (memset_zero dest bytes) j = false.
Proof.
  induction dest as [|w dest IH]; intros bytes j Hj Hlen.
  - cbn [length] in Hlen. lia.
  - cbn [memset_zero].
    destruct (Z.leb_spec bytes 0) as [Hle|Hpos]; [lia|].
    destruct (Z.leb_spec 8 bytes) as [Hfull|Hpart].
    + destruct (Z.lt_ge_cases j 64) as [Hlow|Hhigh].
      * rewrite stream_bit_head by lia. apply Z.bits_0.
      * rewrite stream_bit_tail by lia. apply IH; [lia|].
        cbn [length] in Hlen. lia.
    + rewrite stream_bit_head by lia.
      apply Z.shiftl_spec_low. lia.
Qed.

Lemma land_3_bits (x : Z) :
  Z.land x 3 = Z.b2z (Z.testbit x 0) + 2 * Z.b2z (Z.testbit x 1).
Proof.
  change 3 with (Z.ones 2). rewrite Z.land_ones by lia.
  rewrite Z.bit0_mod, (Z.testbit_spec' x 1) by lia.
  change (2 ^ 2) with (2 * 2). rewrite Z.rem_mul_r by lia.
  change (2 ^ 1) with 2. reflexivity.
Qed.

(** The 2-bit value read at an even position is the group's value. *)
Lemma mask_at_group (src : list Z) (g : nat) :
  u64_bitarray_mask_at src (2 * Z.of_nat g) 3
  = Z.b2z (fst (group src g)) + 2 * Z.b2z (snd (group src g)).
Proof.
  unfold u64_bitarray_mask_at, group, stream_bit, word_at. cbn [fst snd].
  set (p := 2 * Z.of_nat g).
  assert (Hp : 0 <= p) by (unfold p; lia).
  pose proof (Z.div_mod p 64 ltac:(lia)) as Hdm.
  pose proof (Z.mod_pos_bound p 64 ltac:(lia)) as Hmod.
  assert (Heven : (p mod 64) mod 2 = 0).
  { rewrite (Z.mod_mod_divide p 64 2) by (exists 32; reflexivity).
    unfold p. rewrite Z.mul_comm. apply Z.mod_mul. lia. }
  assert (Hlt : p mod 64 < 63).
  { destruct (Z.eq_dec (p mod 64) 63) as [E|E]; [rewrite E in Heven; discriminate Heven|lia]. }
  assert (Hword : (p + 1) / 64 = p / 64).
  { symmetry. apply (Z.div_unique (p + 1) 64 (p / 64) (p mod 64 + 1)); lia. }
  assert (Hbit : (p + 1) mod 64 = p mod 64 + 1).
  { symmetry. apply (Z.mod_unique (p + 1) 64 (p / 64) (p mod 64 + 1)); lia. }
  rewrite Hword, Hbit, land_3_bits, !Z.shiftr_spec by lia.
  rewrite Z.add_0_l, (Z.add_comm 1). reflexivity.
Qed.

Lemma nth_app_one (l : list bool) (b : bool) (j : nat) :
  nth j (l ++ [b]) false = if Nat.eqb j (length l) then b else nth j l false.
Proof.
  destruct (Nat.eqb_spec j (length l)) as [->|Hne].
  - rewrite app_nth2 by lia. rewrite Nat.sub_diag. reflexivity.
  - destruct (Nat.lt_ge_cases j (length l)) as [Hlt|Hge].
    + apply app_nth1. exact Hlt.
    + rewrite !nth_overflow; [reflexivity|lia|rewrite length_app; cbn [length]; lia].
Qed.

Lemma emitted_length_mono (src : list Z) (c : nat) :
  forall c', (c' <= c)%nat -> (length (emitted src c') <= length (emitted src c))%nat.
Proof.
  induction c as [|c IH]; intros c' Hc'.
  - replace c' with O by lia. lia.
  - destruct (Nat.eq_dec c' (S c)) as [->|Hne]; [lia|].
    cbn [emitted]. rewrite length_app.
    specialize (IH c' ltac:(lia)). lia.
Qed.

Lemma dest_holds_append_one (dest : list Z) (m : Z) (bits : list bool) :
  dest_holds dest m bits -> dest_holds dest m (bits ++ [false]).
Proof.
  intros Hd j Hj. rewrite nth_app_one, (Hd j Hj).
  destruct (Nat.eqb_spec (Z.to_nat j) (length bits)) as [E|_]; [|reflexivity].
  apply nth_overflow. lia.
Qed.

Lemma dest_holds_set (dest : list Z) (m : Z) (bits : list bool) :
  Z.of_nat (length bits) < m -> m <= 64 * Z.of_nat (length dest) ->
  dest_holds dest m bits ->
  dest_holds (u64_bitarray_set dest (Z.of_nat (length bits))) m (bits ++ [true]).
Proof.
  intros Hlen Hm Hd j Hj.
  rewrite stream_bit_set by lia. rewrite nth_app_one.
  destruct (Z.eqb_spec j (Z.of_nat (length bits))) as [->|Hne].
  - rewrite Nat2Z.id, Nat.eqb_refl. reflexivity.
  - destruct (Nat.eqb_spec (Z.to_nat j) (length bits)) as [E|_]; [lia|].
    apply Hd. exact Hj.
Qed.

Section VonNeumann.
Variables (src : list Z) (n m : Z) (L : nat).
Hypothesis Hn : 0 <= n < 2 ^ 64.
Hypothesis Heven : n mod 2 = 0.
Hypothesis Hm : 1 <= m < 2 ^ 64.
Hypothesis HL : m <= 64 * Z.of_nat L.

(** One 2-bit group: the write cursor moves by the number of bits the group
    emits, and the destination holds the bits emitted so far. *)
Lemma vndb_group_step (c : nat) (dest : list Z) :
  Z.of_nat (length (emitted src c)) < m ->
  dest_holds dest m (emitted src c) -> length dest = L ->
  exists dest1,
    match u64_bitarray_mask_at src (2 * Z.of_nat c) 3 with
    | 1 => (u64_bitarray_set dest (Z.of_nat (length (emitted src c))),
            u64 (Z.of_nat (length (emitted src c)) + 1))
    | 2 => (dest, u64 (Z.of_nat (length (emitted src c)) + 1))
    | _ => (dest, Z.of_nat (length (emitted src c)))
    end = (dest1, Z.of_nat (length (emitted src (S c))))
    /\ dest_holds dest1 m (emitted src (S c)) /\ length dest1 = L.
Proof.
  intros Hlen Hd HdL. rewrite mask_at_group. cbn [emitted].
  rewrite (u64_small (Z.of_nat (length (emitted src c)) + 1)) by lia.
  destruct (group src c) as [[|] [|]]; cbn [fst snd Z.b2z emits].
  - exists dest. rewrite app_nil_r. split; [reflexivity|]. split; assumption.
  - exists (u64_bitarray_set dest (Z.of_nat (length (emitted src c)))).
    rewrite length_app. cbn [length]. rewrite Nat.add_1_r, Nat2Z.inj_succ.
    split; [reflexivity|]. split.
    + apply dest_holds_set; [exact Hlen|rewrite HdL; exact HL|exact Hd].
    + unfold u64_bitarray_set. rewrite list_update_length. exact HdL.
  - exists dest.
    rewrite length_app. cbn [length]. rewrite Nat.add_1_r, Nat2Z.inj_succ.
    split; [reflexivity|]. split; [apply dest_holds_append_one; exact Hd|exact HdL].
  - exists dest. rewrite app_nil_r. split; [reflexivity|]. split; assumption.
Qed.

Lemma rng_vndb_loop_spec (fuel : nat) :
  forall (c : nat) (dest : list Z),
    2 * Z.of_nat c <= n ->
    n - 2 * Z.of_nat c <= 2 * Z.of_nat fuel ->
    (forall c', (c' <= c)%nat -> Z.of_nat (length (emitted src c')) < m) ->
    dest_holds dest m (emitted src c) -> length dest = L ->
    exists (cf : nat) (dest' : list Z),
      rng_vndb_loop fuel src dest n m (2 * Z.of_nat c)
                    (Z.of_nat (length (emitted src c)))
      = (dest', 2 * Z.of_nat cf, Z.of_nat (length (emitted src cf)))
      /\ 2 * Z.of_nat cf <= n
      /\ Z.of_nat (length (emitted src cf)) <= m
      /\ (Z.of_nat (length (emitted src cf)) = m \/ 2 * Z.of_nat cf = n)
      /\ (forall c', (c' < cf)%nat -> Z.of_nat (length (emitted src c')) < m)
      /\ dest_holds dest' m (emitted src cf)
      /\ length dest' = L.
Proof.
  induction fuel as [|fuel IH]; intros c dest Hc Hfuel Hbefore Hd HdL.
  - exists c, dest. cbn [rng_vndb_loop].
    pose proof (Hbefore c ltac:(lia)) as Hlen.
    split; [reflexivity|]. split; [exact Hc|]. split; [lia|]. split; [right; lia|].
    split; [intros c' Hc'; apply Hbefore; lia|]. split; assumption.
  - pose proof (Hbefore c ltac:(lia)) as Hlen.
    cbn [rng_vndb_loop].
    destruct (Z.ltb_spec (2 * Z.of_nat c) n) as [Hlt|Hge].
    + pose proof (Z.div_mod n 2 ltac:(lia)) as Hdm. rewrite Heven in Hdm.
      destruct (vndb_group_step c dest Hlen Hd HdL) as (dest1 & -> & Hd1 & Hd1L).
      rewrite (u64_small (2 * Z.of_nat c + 2)) by lia.
      replace (2 * Z.of_nat c + 2) with (2 * Z.of_nat (S c)) by lia.
      pose proof (emitted_length_mono src (S c) c ltac:(lia)) as Hmono.
      assert (Hstep : Z.of_nat (length (emitted src (S c))) <= m).
      { cbn [emitted]. rewrite length_app.
        assert (length (emits (group src c)) <= 1)%nat
          by (destruct (group src c) as [[|] [|]]; cbn [emits length]; lia).
        lia. }
      destruct (Z.eqb_spec (Z.of_nat (length (emitted src (S c)))) m) as [Hfull|Hnot].
      * exists (S c), dest1.
        split; [reflexivity|]. split; [lia|]. split; [lia|]. split; [left; exact Hfull|].
        split; [intros c' Hc'; apply Hbefore; lia|]. split; assumption.
      * apply IH; try assumption; try lia.
        intros c' Hc'. destruct (Nat.eq_dec c' (S c)) as [->|Hne]; [lia|].
        apply Hbefore. lia.
    + exists c, dest.
      split; [reflexivity|]. split; [exact Hc|]. split; [lia|]. split; [right; lia|].
      split; [intros c' Hc'; apply Hbefore; lia|]. split; assumption.
Qed.

End VonNeumann.

(** C5: for an even [n >= 2] and [m >= 1], [rng_vndb] first clears the [m]
    bits of the destination, then reads the source in 2-bit groups from bit
    0: a group of value 01 emits a 1, a group of value 10 emits a 0, the
    groups 00 and 11 emit nothing.  With [c] the number of groups read,
    [used = 2c] and [filled] is the number of bits those groups emit; the
    destination holds these bits followed by zeros; the pass ends with
    [filled = m] or [used = n], and no earlier group had already filled the
    destination.  A result with [filled < m] is an ordinary return value. *)
Theorem rng_vndb_extracts (src dest : list Z) (n m : Z) :
  2 <= n < 2 ^ 64 -> n mod 2 = 0 -> 1 <= m < 2 ^ 64 ->
  n <= 64 * Z.of_nat (length src) -> m <= 64 * Z.of_nat (length dest) ->
  dest_holds (memset_zero dest ((m - 1) / 8 + 1)) m []
  /\ exists c : nat,
       let dest' := fst (rng_vndb src dest n m) in
       let info := snd (rng_vndb src dest n m) in
       used info = 2 * Z.of_nat c /\ used info <= n
       /\ filled info = Z.of_nat (length (emitted src c)) /\ filled info <= m
       /\ (filled info = m \/ used info = n)
       /\ (forall c', (c' < c)%nat -> Z.of_nat (length (emitted src c')) < m)
       /\ dest_holds dest' m (emitted src c)
       /\ length dest' = length dest.
Proof.
  intros Hn Heven Hm Hsrc Hdest.
  assert (Hzero : dest_holds (memset_zero dest ((m - 1) / 8 + 1)) m []).
  { intros j Hj.
    pose proof (Z.div_mod (m - 1) 8 ltac:(lia)) as Hdm.
    pose proof (Z.mod_pos_bound (m - 1) 8 ltac:(lia)) as Hmod.
    rewrite memset_zero_clears by lia.
    destruct (Z.to_nat j); reflexivity. }
  split; [exact Hzero|].
  destruct (rng_vndb_loop_spec src n m (length dest) ltac:(lia) Heven Hm Hdest
              (Z.to_nat n) O (memset_zero dest ((m - 1) / 8 + 1)))
    as (cf & dest' & Hrun & Hused & Hfilled & Hstop & Hbefore & Hd & HdL).
  - cbn [Z.of_nat]. lia.
  - cbn [Z.of_nat]. lia.
  - intros c' Hc'. replace c' with O by lia. cbn [emitted length Z.of_nat]. lia.
  - exact Hzero.
  - apply memset_zero_length.
  - exists cf. unfold rng_vndb.
    change (2 * Z.of_nat 0) with 0 in Hrun.
    change (Z.of_nat (length (emitted src 0))) with 0 in Hrun.
    rewrite Hrun. cbn [fst snd used filled].
    split; [reflexivity|]. split; [exact Hused|]. split; [reflexivity|].
    split; [exact Hfilled|]. split; [exact Hstop|]. split; [exact Hbefore|].
    split; [exact Hd|exact HdL].
Qed.

Lemma rng_vndb_extracts_witness :
  (2 <= 8 < 2 ^ 64 /\ 8 mod 2 = 0 /\ 1 <= 3 < 2 ^ 64)
  /\ rng_vndb [0x1B] [0xFFFFFFFFFFFFFFFF] 8 3
     = ([0xFFFFFFFFFFFFFF02], {| used := 8; filled := 2 |})
  /\ exists c : nat,
       used (snd (rng_vndb [0x1B] [0xFFFFFFFFFFFFFFFF] 8 3)) = 2 * Z.of_nat c
       /\ filled (snd (rng_vndb [0x1B] [0xFFFFFFFFFFFFFFFF] 8 3))
          = Z.of_nat (length (emitted [0x1B] c)).
Proof.
  split; [split; [lia|split; [reflexivity|lia]]|].
  split; [vm_compute; reflexivity|].
  destruct (proj2 (rng_vndb_extracts [0x1B] [0xFFFFFFFFFFFFFFFF] 8 3
                     ltac:(lia) eq_refl ltac:(lia)
                     ltac:(cbn; lia) ltac:(cbn; lia)))
    as (c & Hu & _ & Hf & _).
  exists c. split; [exact Hu|exact Hf].
Defined.

(** ** The generators permute their state space *)

Lemma mul_inverse_cancel (M Minv N a : Z) :
  0 < N -> (M * Minv) mod N = 1 -> ((a * M) mod N * Minv) mod N = a mod N.
Proof.
  intros HN Hinv.
  rewrite Z.mul_mod_idemp_l by lia.
  rewrite <- Z.mul_assoc, <- Z.mul_mod_idemp_r by lia.
  rewrite Hinv, Z.mul_1_r. reflexivity.
Qed.

Lemma mul_inverse_injective (M Minv N a b : Z) :
  0 < N -> (M * Minv) mod N = 1 -> 0 <= a < N -> 0 <= b < N ->
  (a * M) mod N = (b * M) mod N -> a = b.
Proof.
  intros HN Hinv Ha Hb E.
  rewrite <- (Z.mod_small a N Ha), <- (Z.mod_small b N Hb).
  rewrite <- (mul_inverse_cancel M Minv N a HN Hinv),
          <- (mul_inverse_cancel M Minv N b HN Hinv).
  rewrite E. reflexivity.
Qed.

(** [x ^ (x >> c)] determines [x]: bit [i] of the result is bit [i] of [x]
    xor bit [i + c], so the bits of [x] are recovered from the top down. *)
Lemma xorshift_injective (w c a b : Z) :
  0 <= w -> 0 < c -> 0 <= a < 2 ^ w -> 0 <= b < 2 ^ w ->
  Z.lxor a (Z.shiftr a c) = Z.lxor b (Z.shiftr b c) -> a = b.
Proof.
  intros Hw Hc Ha Hb E.
  assert (Hbits : forall (d : nat) (i : Z),
             w - Z.of_nat d <= i -> Z.testbit a i = Z.testbit b i).
  { induction d as [|d IH]; intros i Hi.
    - rewrite (bits_of_range a w Hw Ha), (bits_of_range b w Hw Hb) by lia. reflexivity.
    - destruct (Z.lt_ge_cases i 0) as [Hneg|Hpos].
      + rewrite !Z.testbit_neg_r by exact Hneg. reflexivity.
      + pose proof (f_equal (fun z => Z.testbit z i) E) as Ei. cbv beta in Ei.
        rewrite !Z.lxor_spec, !Z.shiftr_spec in Ei by exact Hpos.
        rewrite (IH (i + c)) in Ei by lia.
        destruct (Z.testbit a i), (Z.testbit b i), (Z.testbit b (i + c));
          try reflexivity; discriminate Ei. }
  apply Z.bits_inj'. intros i Hi. apply (Hbits (Z.to_nat w)). lia.
Qed.

(** The variable shift [x ^ (x >> ((x >> (w - t)) + base))] with [base >= t]
    leaves the top [t] bits of [x] in place, so the shift amount is read
    back from the result. *)
Lemma var_xorshift_injective (w t base a b : Z) :
  0 < t <= base -> t <= w -> 0 <= a < 2 ^ w -> 0 <= b < 2 ^ w ->
  Z.lxor (Z.shiftr a (Z.shiftr a (w - t) + base)) a
  = Z.lxor (Z.shiftr b (Z.shiftr b (w - t) + base)) b ->
  a = b.
Proof.
  intros Ht Hw Ha Hb E.
  assert (Hsa : 0 <= Z.shiftr a (w - t)) by (apply Z.shiftr_nonneg; lia).
  assert (Hsb : 0 <= Z.shiftr b (w - t)) by (apply Z.shiftr_nonneg; lia).
  assert (Htop : Z.shiftr a (w - t) = Z.shiftr b (w - t)).
  { apply Z.bits_inj'. intros i Hi.
    rewrite !Z.shiftr_spec by exact Hi.
    pose proof (f_equal (fun z => Z.testbit z (i + (w - t))) E) as Ei. cbv beta in Ei.
    rewrite !Z.lxor_spec, !Z.shiftr_spec in Ei by lia.
    rewrite (bits_of_range a w) in Ei by lia.
    rewrite (bits_of_range b w) in Ei by lia.
    exact Ei. }
  rewrite <- Htop in E.
  rewrite (Z.lxor_comm _ a), (Z.lxor_comm _ b) in E.
  apply (xorshift_injective w (Z.shiftr a (w - t) + base)); try assumption; lia.
Qed.

Lemma rng_next_state_inverse (s inc : Z) :
  u64 ((u64 (s * 0x5851F42D4C957F2D + inc) - inc) * 0xC097EF87329E28A5) = u64 s.
Proof.
  unfold u64.
  rewrite <- Z.mul_mod_idemp_l by lia.
  rewrite Zminus_mod_idemp_l.
  replace (s * 0x5851F42D4C957F2D + inc - inc) with (s * 0x5851F42D4C957F2D) by lia.
  apply mul_inverse_cancel; [lia|reflexivity].
Qed.

Lemma rng_prev_state_inverse (s inc : Z) :
  u64 (u64 ((s - inc) * 0xC097EF87329E28A5) * 0x5851F42D4C957F2D + inc) = u64 s.
Proof.
  unfold u64.
  rewrite <- Z.add_mod_idemp_l by lia.
  rewrite (mul_inverse_cancel 0xC097EF87329E28A5 0x5851F42D4C957F2D (2 ^ 64) (s - inc))
    by (lia || reflexivity).
  rewrite Z.add_mod_idemp_l by lia.
  replace (s - inc + inc) with s by lia. reflexivity.
Qed.

(** X1: the state update of [rng_next] is a bijection of the 64-bit states
    for every increment: [rng_prev] undoes one call, and one call undoes
    [rng_prev]. *)
Theorem rng_next_state_bijection (s inc : Z) :
  0 <= s < 2 ^ 64 ->
  rng_prev (snd (rng_next (mk_random s inc))) = mk_random s inc
  /\ snd (rng_next (rng_prev (mk_random s inc))) = mk_random s inc.
Proof.
  intros Hs. unfold rng_prev, rng_next. cbn [snd state increment].
  rewrite rng_next_state_inverse, rng_prev_state_inverse, (u64_small s Hs).
  split; reflexivity.
Qed.

Lemma rng_next_state_bijection_witness :
  0 <= 42 < 2 ^ 64
  /\ rng_prev (snd (rng_next (mk_random 42 7))) = mk_random 42 7.
Proof.
  split; [lia|].
  apply (proj1 (rng_next_state_bijection 42 7 ltac:(lia))).
Defined.

(** The output permutation of [rng_next] is injective on 64-bit states. *)
Lemma rng_next_output_fixes_state (s1 s2 inc1 inc2 : Z) :
  0 <= s1 < 2 ^ 64 -> 0 <= s2 < 2 ^ 64 ->
  fst (rng_next (mk_random s1 inc1)) = fst (rng_next (mk_random s2 inc2)) ->
  s1 = s2.
Proof.
  intros H1 H2 E.
  unfold rng_next in E. cbn [fst state] in E.
  set (v1 := Z.lxor (Z.shiftr s1 (Z.shiftr s1 59 + 5)) s1) in *.
  set (v2 := Z.lxor (Z.shiftr s2 (Z.shiftr s2 59 + 5)) s2) in *.
  assert (Hs1 : 0 <= Z.shiftr s1 59) by (apply Z.shiftr_nonneg; lia).
  assert (Hs2 : 0 <= Z.shiftr s2 59) by (apply Z.shiftr_nonneg; lia).
  assert (Hv1 : 0 <= v1 < 2 ^ 64)
    by (apply lxor_range; [lia|apply shiftr_range; lia|lia]).
  assert (Hv2 : 0 <= v2 < 2 ^ 64)
    by (apply lxor_range; [lia|apply shiftr_range; lia|lia]).
  rewrite (Z.lxor_comm _ (u64 (v1 * _))), (Z.lxor_comm _ (u64 (v2 * _))) in E.
  apply (xorshift_injective 64 43) in E; try lia; try apply u64_range.
  apply (mul_inverse_injective 0xAEF17502108EF2D9 0xD04CA582ACB86D69 (2 ^ 64)) in E;
    try lia; try reflexivity.
  apply (var_xorshift_injective 64 5 5); try lia. exact E.
Qed.

(** X2: the word returned by [rng_next] determines the pre-call state value:
    two generators whose 64-bit states differ return different words,
    whatever their increments. *)
Theorem rng_next_output_injective (s1 s2 inc1 inc2 : Z) :
  0 <= s1 < 2 ^ 64 -> 0 <= s2 < 2 ^ 64 -> s1 <> s2 ->
  fst (rng_next (mk_random s1 inc1)) <> fst (rng_next (mk_random s2 inc2)).
Proof.
  intros H1 H2 Hne E. apply Hne.
  exact (rng_next_output_fixes_state s1 s2 inc1 inc2 H1 H2 E).
Qed.

Lemma rng_next_output_injective_witness :
  (0 <= 1 < 2 ^ 64 /\ 0 <= 2 < 2 ^ 64 /\ 1 <> 2)
  /\ fst (rng_next (mk_random 1 1)) <> fst (rng_next (mk_random 2 1)).
Proof.
  split; [lia|].
  apply (rng_next_output_injective 1 2 1 1); lia.
Defined.

(** X3: the test's seed hash [mix] maps 64-bit values to 64-bit values, is
    injective on them, and sends only 0 to 0: a nonzero seed never hashes to
    the state 0. *)
Theorem mix_injective (x y : Z) :
  0 <= x < 2 ^ 64 -> 0 <= y < 2 ^ 64 ->
  0 <= mix x < 2 ^ 64
  /\ (mix x = mix y -> x = y)
  /\ (mix x = 0 <-> x = 0).
Proof.
  intros Hx Hy.
  assert (Hrange : forall z, 0 <= z < 2 ^ 64 -> 0 <= mix z < 2 ^ 64).
  { intros z Hz. unfold mix. apply lxor_range; [lia|apply u64_range|].
    apply shiftr_range; [apply u64_range|lia]. }
  assert (Hinj : forall a b, 0 <= a < 2 ^ 64 -> 0 <= b < 2 ^ 64 -> mix a = mix b -> a = b).
  { intros a b Ha Hb E. unfold mix in E.
    apply (xorshift_injective 64 31) in E; try lia; try apply u64_range.
    apply (mul_inverse_injective 0x94d049bb133111eb 0x319642B2D24D8EC3 (2 ^ 64)) in E;
      try lia; try reflexivity;
      try (apply lxor_range; [lia|apply u64_range|apply shiftr_range; [apply u64_range|lia]]).
    apply (xorshift_injective 64 27) in E; try lia; try apply u64_range.
    apply (mul_inverse_injective 0xbf58476d1ce4e5b9 0x96DE1B173F119089 (2 ^ 64)) in E;
      try lia; try reflexivity;
      try (apply lxor_range; [lia|lia|apply shiftr_range; lia]).
    apply (xorshift_injective 64 30) in E; try lia; exact E. }
  split; [apply Hrange; exact Hx|]. split; [apply Hinj; assumption|].
  split.
  - intros E. apply Hinj; [exact Hx|lia|]. rewrite E. reflexivity.
  - intros ->. reflexivity.
Qed.

Lemma mix_injective_witness :
  (0 <= 42 < 2 ^ 64 /\ 0 <= 0 < 2 ^ 64)
  /\ 0 <= mix 42 < 2 ^ 64.
Proof.
  split; [lia|].
  apply (proj1 (mix_injective 42 0 ltac:(lia) ltac:(lia))).
Defined.

(** ** What the scalar operations leave alone *)

Lemma keeps_stream_refl (rng : random_t) : keeps_stream rng rng.
Proof. split; [reflexivity|intros H; exact H]. Qed.

Lemma keeps_stream_trans (a b c : random_t) :
  keeps_stream a b -> keeps_stream b c -> keeps_stream a c.
Proof.
  intros [Hi1 Hs1] [Hi2 Hs2]. split.
  - rewrite Hi2. exact Hi1.
  - intros H. apply Hs2, Hs1, H.
Qed.

Lemma rng_next_keeps_stream (rng : random_t) : keeps_stream rng (snd (rng_next rng)).
Proof.
  split; [reflexivity|]. intros _. cbn [rng_next snd state]. apply u64_range.
Qed.

Lemma rng_bias_loop_keeps_stream (n m : Z) (fuel : nat) :
  forall pc accumulator rng,
    keeps_stream rng (snd (rng_bias_loop fuel n m pc accumulator rng)).
Proof.
  induction fuel as [|fuel IH]; intros pc acc rng; cbn [rng_bias_loop].
  - apply keeps_stream_refl.
  - destruct (pc <? m); [|apply keeps_stream_refl].
    pose proof (rng_next_keeps_stream rng) as Hnext.
    destruct (rng_next rng) as [w rng1]. cbn [snd] in Hnext.
    apply (keeps_stream_trans rng rng1); [exact Hnext|apply IH].
Qed.

Lemma rng_bias_keeps_stream (rng : random_t) (n m : Z) :
  keeps_stream rng (snd (rng_bias rng n m)).
Proof. unfold rng_bias. apply rng_bias_loop_keeps_stream. Qed.

Lemma rng_bino_loop_keeps_stream (n m : Z) (fuel : nat) :
  forall rng k success,
    keeps_stream rng (snd (rng_bino_loop fuel rng k n m success)).
Proof.
  induction fuel as [|fuel IH]; intros rng k success; cbn [rng_bino_loop].
  - apply keeps_stream_refl.
  - destruct (k >? 64); [|apply keeps_stream_refl].
    pose proof (rng_bias_keeps_stream rng n m) as Hbias.
    destruct (rng_bias rng n m) as [w rng1]. cbn [snd] in Hbias.
    apply (keeps_stream_trans rng rng1); [exact Hbias|apply IH].
Qed.

Lemma rng_bino_keeps_stream (rng : random_t) (k n m : Z) :
  keeps_stream rng (snd (rng_bino rng k n m)).
Proof.
  unfold rng_bino.
  pose proof (rng_bino_loop_keeps_stream n m (Z.to_nat (k / 64)) rng k 0) as Hloop.
  destruct (rng_bino_loop (Z.to_nat (k / 64)) rng k n m 0) as [[success k'] rng1].
  cbn [snd] in Hloop.
  pose proof (rng_bias_keeps_stream rng1 n m) as Hbias.
  destruct (rng_bias rng1 n m) as [w rng2]. cbn [snd] in Hbias |- *.
  apply (keeps_stream_trans rng rng1); assumption.
Qed.

Lemma rng_rand_loop_keeps_stream (bitmask scaled_max : Z) (fuel : nat) :
  forall rng sample rng',
    rng_rand_loop fuel rng bitmask scaled_max = Some (sample, rng') ->
    keeps_stream rng rng'.
Proof.
  induction fuel as [|fuel IH]; intros rng sample rng' Hrun; [discriminate Hrun|].
  cbn [rng_rand_loop] in Hrun.
  pose proof (rng_next_keeps_stream rng) as Hnext.
  destruct (rng_next rng) as [w rng1]. cbn [snd] in Hnext.
  destruct (Z.land w bitmask >? scaled_max).
  - apply (keeps_stream_trans rng rng1); [exact Hnext|]. apply (IH _ _ _ Hrun).
  - injection Hrun as _ <-. exact Hnext.
Qed.

(** X4: the scalar operations never touch the increment and keep a 64-bit
    state a 64-bit state: a generator whose increment is odd is still one
    with the same odd increment after [rng_next], [rng_bias], [rng_bino] and
    after every [rng_rand] that returns. *)
Theorem scalar_operations_keep_stream
  (rng : random_t) (n m k min max : Z) (fuel : nat) :
  0 <= state rng < 2 ^ 64 -> Z.odd (increment rng) = true ->
  let continued rng' :=
    increment rng' = increment rng /\ Z.odd (increment rng') = true
    /\ 0 <= state rng' < 2 ^ 64 in
  continued (snd (rng_next rng))
  /\ continued (snd (rng_bias rng n m))
  /\ continued (snd (rng_bino rng k n m))
  /\ (forall v rng', rng_rand fuel rng min max = Some (v, rng') -> continued rng').
Proof.
  intros Hstate Hodd continued.
  assert (Hkeep : forall rng', keeps_stream rng rng' -> continued rng').
  { intros rng' [Hinc Hst]. unfold continued.
    split; [exact Hinc|]. split; [rewrite Hinc; exact Hodd|apply Hst; exact Hstate]. }
  split; [apply Hkeep, rng_next_keeps_stream|].
  split; [apply Hkeep, rng_bias_keeps_stream|].
  split; [apply Hkeep, rng_bino_keeps_stream|].
  intros v rng' Hrun. apply Hkeep. unfold rng_rand in Hrun.
  destruct (rng_rand_loop fuel rng (rand_bitmask (u64 (max - min))) (u64 (max - min)))
    as [[sample rng1]|] eqn:Hloop; [|discriminate Hrun].
  injection Hrun as _ <-.
  apply (rng_rand_loop_keeps_stream _ _ _ _ _ _ Hloop).
Qed.

Lemma scalar_operations_keep_stream_witness :
  (0 <= 1 < 2 ^ 64 /\ Z.odd 1 = true)
  /\ increment (snd (rng_bino (mk_random 1 1) 130 3 2)) = 1.
Proof.
  split; [split; [lia|reflexivity]|].
  apply (proj1 (proj1 (proj2 (proj2
           (scalar_operations_keep_stream (mk_random 1 1) 3 2 130 0 0 0
              ltac:(cbn; lia) eq_refl))))).
Defined.

(** ** More on rng_rand *)

Lemma popcountll_ones (b : Z) : 0 <= b -> __builtin_popcountll (Z.ones b) = b.
Proof.
  intros Hb. pattern b. apply natlike_ind; [reflexivity| |exact Hb].
  intros x Hx IH.
  assert (E : Z.ones (Z.succ x) = 2 * Z.ones x + 1).
  { rewrite !Z.ones_equiv, Z.pow_succ_r by exact Hx. lia. }
  rewrite E.
  assert (Hnn : 0 <= Z.ones x).
  { rewrite Z.ones_equiv. assert (0 < 2 ^ x) by (apply Z.pow_pos_nonneg; lia). lia. }
  destruct (Z.ones x) as [|p|p]; [cbn in *; lia| |lia].
  change (2 * Z.pos p + 1) with (Z.pos p~1).
  cbn [__builtin_popcountll pos_popcount] in *. lia.
Qed.

Lemma clzll_ones (b : Z) : 0 < b <= 64 -> __builtin_clzll (Z.ones b) = 64 - b.
Proof.
  intros Hb.
  assert (Hp : 0 < 2 ^ (b - 1)) by (apply Z.pow_pos_nonneg; lia).
  assert (Hpow : 2 ^ b = 2 * 2 ^ (b - 1)).
  { replace b with (Z.succ (b - 1)) at 1 by lia. apply Z.pow_succ_r. lia. }
  assert (Hlog : Z.log2 (Z.ones b) = b - 1).
  { apply Z.log2_unique; [lia|]. rewrite Z.ones_equiv.
    replace (Z.succ (b - 1)) with b by lia. unfold Z.pred. lia. }
  assert (Hpos : 0 < Z.ones b) by (rewrite Z.ones_equiv; unfold Z.pred; lia).
  destruct (Z.ones b) as [|p|p]; try lia.
  cbn [__builtin_clzll]. rewrite pos_bits_log2, Hlog. lia.
Qed.

(** X5: for [min < max] the two "bad mask" assertions of [rng_rand] hold:
    the mask has as many leading zeros as the span, and its population count
    is 64 minus that number. *)
Theorem rng_rand_mask_asserts_hold (min max : Z) :
  0 <= min -> min < max -> max < 2 ^ 64 ->
  rng_rand_mask_asserts min max = true.
Proof.
  intros Hmin Hlt Hmax. unfold rng_rand_mask_asserts.
  rewrite (u64_small (max - min)) by lia.
  set (span := max - min).
  assert (Hspan : 0 < span < 2 ^ 64) by (unfold span; lia).
  destruct (rand_bitmask_covers span Hspan) as [-> _].
  destruct (clzll_bits span Hspan) as [Hc _].
  rewrite clzll_ones, popcountll_ones by lia.
  replace (64 - (64 - __builtin_clzll span)) with (__builtin_clzll span) by lia.
  rewrite !Z.eqb_refl. reflexivity.
Qed.

Lemma rng_rand_mask_asserts_hold_witness :
  (0 <= 5 /\ 5 < 9 /\ 9 < 2 ^ 64) /\ rng_rand_mask_asserts 5 9 = true.
Proof.
  split; [lia|].
  apply (rng_rand_mask_asserts_hold 5 9); lia.
Defined.

(** X6: when the span [max - min] is [2^b - 1] the mask is the span itself,
    no draw is rejected, and [rng_rand] returns after a single call of
    [rng_next] with the low [b] bits of its word plus [min]. *)
Theorem rng_rand_power_of_two_span_never_rejects
  (fuel : nat) (rng : random_t) (min max b : Z) :
  0 <= min -> max < 2 ^ 64 -> 1 <= b <= 64 -> max - min = 2 ^ b - 1 ->
  rng_rand (S fuel) rng min max
  = Some (Z.land (fst (rng_next rng)) (Z.ones b) + min, snd (rng_next rng)).
Proof.
  intros Hmin Hmax Hb Hspan.
  assert (Hp : 0 < 2 ^ (b - 1)) by (apply Z.pow_pos_nonneg; lia).
  assert (Hpow : 2 ^ b = 2 * 2 ^ (b - 1)).
  { replace b with (Z.succ (b - 1)) at 1 by lia. apply Z.pow_succ_r. lia. }
  assert (Hrange : 0 < max - min < 2 ^ 64) by lia.
  unfold rng_rand. rewrite (u64_small (max - min)) by lia.
  destruct (rand_bitmask_covers (max - min) Hrange) as [Hmask _].
  assert (Hclz : __builtin_clzll (max - min) = 64 - b).
  { rewrite Hspan, Z.sub_1_r, <- Z.ones_equiv. apply clzll_ones. lia. }
  rewrite Hmask, Hclz. replace (64 - (64 - b)) with b by lia.
  cbn [rng_rand_loop].
  pose proof (rng_next_output_range rng) as Hw.
  destruct (rng_next rng) as [w rng1]. cbn [fst snd] in *.
  assert (Hland : 0 <= Z.land w (Z.ones b) < 2 ^ b).
  { rewrite Z.land_ones by lia. apply Z.mod_pos_bound. lia. }
  destruct (Z.gtb_spec (Z.land w (Z.ones b)) (max - min)) as [Hrej|_]; [lia|].
  rewrite u64_small by lia. reflexivity.
Qed.

Lemma rng_rand_power_of_two_span_never_rejects_witness :
  (0 <= 0 /\ 2 ^ 64 - 1 < 2 ^ 64 /\ 1 <= 64 <= 64 /\ 2 ^ 64 - 1 - 0 = 2 ^ 64 - 1)
  /\ rng_rand 1 (mk_random 1 1) 0 (2 ^ 64 - 1)
     = Some (Z.land (fst (rng_next (mk_random 1 1))) (Z.ones 64) + 0,
             snd (rng_next (mk_random 1 1))).
Proof.
  split; [lia|].
  apply (rng_rand_power_of_two_span_never_rejects 0 (mk_random 1 1) 0 (2 ^ 64 - 1) 64);
    lia.
Defined.

(** ** More on rng_bias and rng_bino *)

Lemma ctzll_unique (n m j : Z) :
  0 < n < 2 ^ m -> 0 <= m -> 0 <= j ->
  Z.testbit n j = true -> (forall i, 0 <= i < j -> Z.testbit n i = false) ->
  __builtin_ctzll n = j.
Proof.
  intros Hn Hm Hj Hset Hclear.
  destruct (ctzll_lowest_set_bit n m Hn Hm) as (Hc & Hcset & Hcclear).
  destruct (Z.lt_trichotomy (__builtin_ctzll n) j) as [Hlt|[E|Hgt]]; [|exact E|].
  - rewrite Hclear in Hcset by lia. discriminate Hcset.
  - rewrite Hcclear in Hset by lia. discriminate Hset.
Qed.

Lemma pow2_in_range (j m : Z) : 0 <= j < m -> 0 < 2 ^ j < 2 ^ m.
Proof.
  intros Hj. split; [apply Z.pow_pos_nonneg; lia|apply Z.pow_lt_mono_r; lia].
Qed.

Lemma ctzll_pow2 (j m : Z) : 0 <= j < m -> __builtin_ctzll (2 ^ j) = j.
Proof.
  intros Hj. apply (ctzll_unique (2 ^ j) m); try lia.
  - apply pow2_in_range. exact Hj.
  - rewrite Z.pow2_bits_eqb by lia. apply Z.eqb_refl.
  - intros i Hi. rewrite Z.pow2_bits_eqb by lia. apply Z.eqb_neq. lia.
Qed.

(** The numerator with the bits [j .. m-1] set. *)
Lemma high_ones_bits (j m i : Z) :
  0 <= j < m -> 0 <= i ->
  Z.testbit (2 ^ m - 2 ^ j) i = ((j <=? i) && (i <? m))%bool.
Proof.
  intros Hj Hi.
  assert (E : 2 ^ m - 2 ^ j = Z.shiftl (Z.ones (m - j)) j).
  { rewrite Z.shiftl_mul_pow2, Z.ones_equiv by lia. unfold Z.pred.
    rewrite Z.mul_add_distr_r, <- Z.pow_add_r by lia.
    replace (m - j + j) with m by lia. lia. }
  rewrite E, Z.shiftl_spec by exact Hi.
  destruct (Z.leb_spec j i) as [Hle|Hlt]; cbn [andb].
  - destruct (Z.ltb_spec i m) as [Him|Him].
    + apply Z.ones_spec_low. lia.
    + apply Z.ones_spec_high. lia.
  - apply Z.testbit_neg_r. lia.
Qed.

Lemma high_ones_in_range (j m : Z) : 0 <= j < m -> 0 < 2 ^ m - 2 ^ j < 2 ^ m.
Proof. intros Hj. pose proof (pow2_in_range j m Hj). lia. Qed.

Lemma ctzll_high_ones (j m : Z) : 0 <= j < m -> __builtin_ctzll (2 ^ m - 2 ^ j) = j.
Proof.
  intros Hj. apply (ctzll_unique (2 ^ m - 2 ^ j) m); try lia.
  - apply high_ones_in_range. exact Hj.
  - rewrite high_ones_bits by lia.
    destruct (Z.leb_spec j j); [|lia]. destruct (Z.ltb_spec j m); [reflexivity|lia].
  - intros i Hi. rewrite high_ones_bits by lia.
    destruct (Z.leb_spec j i); [lia|reflexivity].
Qed.

Lemma bitcode_fold_all (n : Z) (op : Z -> Z -> Z) (lo hi : Z) (count : nat) :
  (forall pc a w, lo <= pc < hi -> bitcode_step n a (pc, w) = op a w) ->
  forall pc accumulator rng,
    lo <= pc -> pc + Z.of_nat count <= hi ->
    fold_left (bitcode_step n)
              (combine (positions_from pc count) (outputs rng_next count rng))
              accumulator
    = fold_left op (outputs rng_next count rng) accumulator.
Proof.
  intros Hop. induction count as [|count IH]; intros pc acc rng Hlo Hpc; [reflexivity|].
  rewrite outputs_succ. cbn [positions_from combine fold_left].
  rewrite Hop by lia. apply IH; lia.
Qed.

Lemma rng_bias_fold (rng : random_t) (n m : Z) :
  rng_bias rng n m
  = (fold_left (bitcode_step n)
       (combine (positions_from (__builtin_ctzll n) (Z.to_nat (m - __builtin_ctzll n)))
                (outputs rng_next (Z.to_nat (m - __builtin_ctzll n)) rng))
       0,
     after rng_next (Z.to_nat (m - __builtin_ctzll n)) rng).
Proof.
  unfold rng_bias. apply rng_bias_loop_fold; [|lia].
  destruct n as [|p|p]; cbn [__builtin_ctzll]; try lia. apply pos_ctz_nonneg.
Qed.

(** X7: the two extreme bitcodes.  For the numerator [2^j] (probability
    [2^-(m-j)]) [rng_bias] is the AND of the next [m - j] generator words,
    and for the numerator [2^m - 2^j] (probability [1 - 2^-(m-j)]) it is
    their OR; with [j = m - 1] (probability 1/2) it is one call of
    [rng_next]. *)
Theorem rng_bias_and_or_of_words (rng : random_t) (j m : Z) :
  0 <= j < m -> m <= 64 ->
  let calls := Z.to_nat (m - j) in
  rng_bias rng (2 ^ j) m
  = (fold_left Z.land (outputs rng_next (pred calls) (snd (rng_next rng)))
               (fst (rng_next rng)),
     after rng_next calls rng)
  /\ rng_bias rng (2 ^ m - 2 ^ j) m
     = (fold_left Z.lor (outputs rng_next calls rng) 0, after rng_next calls rng)
  /\ (j = m - 1 -> rng_bias rng (2 ^ j) m = rng_next rng).
Proof.
  intros Hj Hm calls.
  assert (Hand : rng_bias rng (2 ^ j) m
                 = (fold_left Z.land (outputs rng_next (pred calls) (snd (rng_next rng)))
                              (fst (rng_next rng)),
                    after rng_next calls rng)).
  { rewrite rng_bias_fold, (ctzll_pow2 j m Hj). fold calls.
    replace calls with (S (pred calls)) at 1 2 by (unfold calls; lia).
    rewrite outputs_succ. cbn [positions_from combine fold_left bitcode_step].
    rewrite Z.pow2_bits_eqb, Z.eqb_refl, Z.lor_0_l by lia.
    rewrite (bitcode_fold_all (2 ^ j) Z.land (j + 1) m);
      [reflexivity| |lia|unfold calls; lia].
    intros pc a w Hpc. cbn [bitcode_step].
    rewrite Z.pow2_bits_eqb by lia.
    destruct (Z.eqb_spec j pc) as [E|_]; [lia|reflexivity]. }
  split; [exact Hand|]. split.
  - rewrite rng_bias_fold, (ctzll_high_ones j m Hj). fold calls.
    rewrite (bitcode_fold_all (2 ^ m - 2 ^ j) Z.lor j m);
      [reflexivity| |lia|unfold calls; lia].
    intros pc a w Hpc. cbn [bitcode_step].
    rewrite high_ones_bits by lia.
    destruct (Z.leb_spec j pc); [|lia]. destruct (Z.ltb_spec pc m); [reflexivity|lia].
  - intros E. rewrite Hand.
    replace calls with 1%nat by (unfold calls; lia).
    cbn [pred outputs fold_left after]. destruct (rng_next rng). reflexivity.
Qed.

Lemma rng_bias_and_or_of_words_witness :
  (0 <= 5 < 8 /\ 8 <= 64)
  /\ rng_bias (mk_random 1 1) (2 ^ 5) 8
     = (fold_left Z.land (outputs rng_next 2 (snd (rng_next (mk_random 1 1))))
                  (fst (rng_next (mk_random 1 1))),
        after rng_next 3 (mk_random 1 1)).
Proof.
  split; [lia|].
  apply (proj1 (rng_bias_and_or_of_words (mk_random 1 1) 5 8 ltac:(lia) ltac:(lia))).
Defined.

Lemma after_compose {St O1 O2 : Type}
  (big : St -> O1 * St) (small : St -> O2 * St) (c : nat) :
  (forall s, snd (big s) = after small c s) ->
  forall t s, after big t s = after small (t * c) s.
Proof.
  intros Hbig. induction t as [|t IH]; intros s; [reflexivity|].
  rewrite after_succ, IH, Hbig.
  change (S t * c)%nat with (c + t * c)%nat.
  rewrite after_add. reflexivity.
Qed.

Lemma rng_bino_final_state (rng : random_t) (k n m : Z) :
  1 <= k < 2 ^ 64 ->
  snd (rng_bino rng k n m)
  = after (bias_step n m) (S (Z.to_nat ((k - 1) / 64))) rng.
Proof.
  intros Hk. set (full := Z.to_nat ((k - 1) / 64)).
  assert (Hq : 0 <= (k - 1) / 64) by (apply Z.div_pos; lia).
  pose proof (Z.div_mod (k - 1) 64 ltac:(lia)) as Hdm.
  pose proof (Z.mod_pos_bound (k - 1) 64 ltac:(lia)) as Hmod.
  assert (Hfuel : (full <= Z.to_nat (k / 64))%nat).
  { assert ((k - 1) / 64 <= k / 64) by (apply Z.div_le_mono; lia). unfold full. lia. }
  pose proof (rng_bino_loop_chunks n m full (Z.to_nat (k / 64)) rng k
                (k - 64 * Z.of_nat full) 0
                ltac:(lia) ltac:(unfold full; lia) ltac:(lia) ltac:(lia)
                ltac:(unfold full; lia) Hfuel) as Hloop.
  unfold rng_bino. rewrite Hloop, after_succ_last.
  replace (snd (bias_step n m (after (bias_step n m) full rng)))
    with (snd (rng_bias (after (bias_step n m) full rng) n m)) by reflexivity.
  destruct (rng_bias (after (bias_step n m) full rng) n m) as [w rng2].
  reflexivity.
Qed.

(** X8: [rng_bino] on [k] trials makes [ceil (k / 64)] calls of [rng_bias],
    each of [m - ctz n] calls of [rng_next]: it leaves the generator advanced
    by exactly [((k - 1) / 64 + 1) * (m - ctz n)] steps, and by the steps of
    a single [rng_bias] when [k <= 64]. *)
Theorem rng_bino_generator_calls (rng : random_t) (k n m : Z) :
  1 <= k < 2 ^ 64 ->
  let chunks := S (Z.to_nat ((k - 1) / 64)) in
  let calls := Z.to_nat (m - __builtin_ctzll n) in
  snd (rng_bino rng k n m) = after rng_next (chunks * calls) rng
  /\ (k <= 64 -> snd (rng_bino rng k n m) = snd (rng_bias rng n m)).
Proof.
  intros Hk chunks calls.
  assert (Hbias : forall s, snd (bias_step n m s) = after rng_next calls s).
  { intros s. unfold bias_step. rewrite rng_bias_fold. reflexivity. }
  split.
  - rewrite rng_bino_final_state by exact Hk.
    apply after_compose. exact Hbias.
  - intros Hle. rewrite rng_bino_final_state by exact Hk.
    replace ((k - 1) / 64) with 0 by (symmetry; apply Z.div_small; lia).
    reflexivity.
Qed.

Lemma rng_bino_generator_calls_witness :
  1 <= 130 < 2 ^ 64
  /\ snd (rng_bino (mk_random 1 1) 130 3 2) = after rng_next (3 * 2) (mk_random 1 1).
Proof.
  split; [lia|].
  apply (proj1 (rng_bino_generator_calls (mk_random 1 1) 130 3 2 ltac:(lia))).
Defined.

(** ** More on rng_vndb *)

Lemma memset_zero_frame (dest : list Z) :
  forall bytes j,
    8 * bytes <= j -> 0 <= j ->
    stream_bit (memset_zero dest bytes) j = stream_bit dest j.
Proof.
  induction dest as [|w dest IH]; intros bytes j Hj Hj0; [reflexivity|].
  cbn [memset_zero].
  destruct (Z.leb_spec bytes 0) as [Hle|Hpos]; [reflexivity|].
  destruct (Z.leb_spec 8 bytes) as [Hfull|Hpart].
  - rewrite !stream_bit_tail by lia. apply IH; lia.
  - destruct (Z.lt_ge_cases j 64) as [Hlow|Hhigh].
    + rewrite !stream_bit_head by lia.
      rewrite Z.shiftl_spec, Z.shiftr_spec by lia.
      f_equal. lia.
    + rewrite !stream_bit_tail by lia. reflexivity.
Qed.

(** One group leaves every bit from [m] on alone and moves the write cursor
    by at most one. *)
Lemma vndb_group_frame (src dest : list Z) (m read_pos write_pos : Z) :
  0 <= write_pos < m -> m < 2 ^ 64 -> m <= 64 * Z.of_nat (length dest) ->
  exists dest1 write_pos1,
    match u64_bitarray_mask_at src read_pos 3 with
    | 1 => (u64_bitarray_set dest write_pos, u64 (write_pos + 1))
    | 2 => (dest, u64 (write_pos + 1))
    | _ => (dest, write_pos)
    end = (dest1, write_pos1)
    /\ write_pos <= write_pos1 <= write_pos + 1
    /\ length dest1 = length dest
    /\ forall j, m <= j -> stream_bit dest1 j = stream_bit dest j.
Proof.
  intros Hw Hm HL.
  assert (Hset : forall j, m <= j ->
             stream_bit (u64_bitarray_set dest write_pos) j = stream_bit dest j).
  { intros j Hj. rewrite stream_bit_set by lia.
    destruct (Z.eqb_spec j write_pos); [lia|reflexivity]. }
  assert (Hlen : length (u64_bitarray_set dest write_pos) = length dest)
    by (unfold u64_bitarray_set; apply list_update_length).
  rewrite (u64_small (write_pos + 1)) by lia.
  destruct (u64_bitarray_mask_at src read_pos 3) as [|[[p|p|]|[p|p|]|]|p];
    try (exists dest, write_pos;
         split; [reflexivity|split; [lia|split; [reflexivity|reflexivity]]]).
  - exists dest, (write_pos + 1).
    split; [reflexivity|split; [lia|split; [reflexivity|reflexivity]]].
  - exists (u64_bitarray_set dest write_pos), (write_pos + 1).
    split; [reflexivity|split; [lia|split; [exact Hlen|exact Hset]]].
Qed.

Lemma rng_vndb_loop_frame (src : list Z) (n m : Z) (fuel : nat) :
  forall dest read_pos write_pos,
    0 <= write_pos < m -> m < 2 ^ 64 -> m <= 64 * Z.of_nat (length dest) ->
    forall j, m <= j ->
      stream_bit (fst (fst (rng_vndb_loop fuel src dest n m read_pos write_pos))) j
      = stream_bit dest j.
Proof.
  induction fuel as [|fuel IH]; intros dest rp wp Hw Hm HL j Hj; [reflexivity|].
  cbn [rng_vndb_loop].
  destruct (rp <? n); [|reflexivity].
  destruct (vndb_group_frame src dest m rp wp Hw Hm HL)
    as (dest1 & wp1 & -> & Hwp1 & Hlen1 & Hframe1).
  destruct (Z.eqb_spec wp1 m) as [E|Hne]; cbn [fst].
  - apply Hframe1. exact Hj.
  - rewrite (IH dest1 _ wp1 ltac:(lia) Hm ltac:(rewrite Hlen1; exact HL) j Hj).
    apply Hframe1. exact Hj.
Qed.

(** X9: [rng_vndb] writes only into the [(m - 1) / 8 + 1] bytes it clears:
    every destination bit from position [8 * ((m - 1) / 8 + 1)] on keeps the
    value it had, and the buffer keeps its length. *)
Theorem rng_vndb_leaves_rest_of_dest (src dest : list Z) (n m : Z) :
  1 <= m < 2 ^ 64 -> m <= 64 * Z.of_nat (length dest) ->
  forall j, 8 * ((m - 1) / 8 + 1) <= j ->
    stream_bit (fst (rng_vndb src dest n m)) j = stream_bit dest j.
Proof.
  intros Hm HL j Hj.
  pose proof (Z.div_mod (m - 1) 8 ltac:(lia)) as Hdm.
  pose proof (Z.mod_pos_bound (m - 1) 8 ltac:(lia)) as Hmod.
  unfold rng_vndb.
  pose proof (rng_vndb_loop_frame src n m (Z.to_nat n)
                (memset_zero dest ((m - 1) / 8 + 1)) 0 0
                ltac:(lia) ltac:(lia)
                ltac:(rewrite memset_zero_length; exact HL) j ltac:(lia)) as Hloop.
  destruct (rng_vndb_loop (Z.to_nat n) src (memset_zero dest ((m - 1) / 8 + 1)) n m 0 0)
    as [[dest1 rp] wp].
  cbn [fst] in *. rewrite Hloop. apply memset_zero_frame; lia.
Qed.

Lemma rng_vndb_leaves_rest_of_dest_witness :
  (1 <= 3 < 2 ^ 64 /\ 3 <= 64 * Z.of_nat (length [0xFFFFFFFFFFFFFFFF])
   /\ 8 * ((3 - 1) / 8 + 1) <= 8)
  /\ stream_bit (fst (rng_vndb [0x1B] [0xFFFFFFFFFFFFFFFF] 8 3)) 8
     = stream_bit [0xFFFFFFFFFFFFFFFF] 8.
Proof.
  split; [cbn; lia|].
  apply (rng_vndb_leaves_rest_of_dest [0x1B] [0xFFFFFFFFFFFFFFFF] 8 3);
    cbn; lia.
Defined.

Lemma emitted_length_le (src : list Z) (c : nat) : (length (emitted src c) <= c)%nat.
Proof.
  induction c as [|c IH]; [cbn; lia|].
  cbn [emitted]. rewrite length_app.
  assert (length (emits (group src c)) <= 1)%nat
    by (destruct (group src c) as [[|] [|]]; cbn [emits length]; lia).
  lia.
Qed.

Lemma emitted_equal_pairs (src : list Z) (c : nat) :
  (forall g, (g < c)%nat ->
     stream_bit src (2 * Z.of_nat g) = stream_bit src (2 * Z.of_nat g + 1)) ->
  emitted src c = [].
Proof.
  induction c as [|c IH]; intros Hpairs; [reflexivity|].
  cbn [emitted]. rewrite IH by (intros g Hg; apply Hpairs; lia).
  unfold group. rewrite (Hpairs c) by lia.
  destruct (stream_bit src (2 * Z.of_nat c + 1)); reflexivity.
Qed.

Lemma rng_vndb_run (src dest : list Z) (n m : Z) :
  0 <= n < 2 ^ 64 -> n mod 2 = 0 -> 1 <= m < 2 ^ 64 ->
  m <= 64 * Z.of_nat (length dest) ->
  exists (c : nat) (dest' : list Z),
    rng_vndb src dest n m
    = (dest', {| used := 2 * Z.of_nat c;
                 filled := Z.of_nat (length (emitted src c)) |})
    /\ 2 * Z.of_nat c <= n
    /\ Z.of_nat (length (emitted src c)) <= m
    /\ (Z.of_nat (length (emitted src c)) = m \/ 2 * Z.of_nat c = n).
Proof.
  intros Hn Heven Hm Hdest.
  assert (Hzero : dest_holds (memset_zero dest ((m - 1) / 8 + 1)) m []).
  { intros j Hj.
    pose proof (Z.div_mod (m - 1) 8 ltac:(lia)) as Hdm.
    pose proof (Z.mod_pos_bound (m - 1) 8 ltac:(lia)) as Hmod.
    rewrite memset_zero_clears by lia.
    destruct (Z.to_nat j); reflexivity. }
  destruct (rng_vndb_loop_spec src n m (length dest) Hn Heven Hm Hdest
              (Z.to_nat n) O (memset_zero dest ((m - 1) / 8 + 1)))
    as (cf & dest' & Hrun & Hused & Hfilled & Hstop & _).
  - cbn [Z.of_nat]. lia.
  - cbn [Z.of_nat]. lia.
  - intros c' Hc'. replace c' with O by lia. cbn [emitted length Z.of_nat]. lia.
  - exact Hzero.
  - apply memset_zero_length.
  - exists cf, dest'. unfold rng_vndb.
    change (2 * Z.of_nat 0) with 0 in Hrun.
    change (Z.of_nat (length (emitted src 0))) with 0 in Hrun.
    rewrite Hrun.
    split; [reflexivity|]. split; [exact Hused|]. split; [exact Hfilled|exact Hstop].
Qed.

(** X10: the yield of one pass.  [rng_vndb] consumes a whole number of 2-bit
    groups, at least one and at most [n] bits, and produces at most one bit
    per group: [2 * filled <= used <= n].  A source in which the two bits of
    every group are equal produces nothing: [filled = 0] and [used = n]. *)
Theorem rng_vndb_yield (src dest : list Z) (n m : Z) :
  2 <= n < 2 ^ 64 -> n mod 2 = 0 -> 1 <= m < 2 ^ 64 ->
  m <= 64 * Z.of_nat (length dest) ->
  let info := snd (rng_vndb src dest n m) in
  used info mod 2 = 0
  /\ 2 <= used info <= n
  /\ 0 <= 2 * filled info <= used info
  /\ filled info <= m
  /\ ((forall g, 0 <= g -> 2 * g + 1 < n ->
         stream_bit src (2 * g) = stream_bit src (2 * g + 1)) ->
      filled info = 0 /\ used info = n).
Proof.
  intros Hn Heven Hm Hdest info.
  destruct (rng_vndb_run src dest n m ltac:(lia) Heven Hm Hdest)
    as (c & dest' & Hrun & Hused & Hfilled & Hstop).
  unfold info. rewrite Hrun. cbn [snd used filled].
  pose proof (emitted_length_le src c) as Hle.
  split; [rewrite Z.mul_comm; apply Z.mod_mul; lia|].
  split; [destruct Hstop; lia|].
  split; [lia|]. split; [exact Hfilled|].
  intros Hpairs.
  assert (Hnone : emitted src c = []).
  { apply emitted_equal_pairs. intros g Hg. apply Hpairs; lia. }
  rewrite Hnone in *. cbn [length Z.of_nat] in *.
  split; [reflexivity|]. destruct Hstop; lia.
Qed.

Lemma rng_vndb_yield_witness :
  (2 <= 8 < 2 ^ 64 /\ 8 mod 2 = 0 /\ 1 <= 3 < 2 ^ 64
   /\ 3 <= 64 * Z.of_nat (length [0xFFFFFFFFFFFFFFFF]))
  /\ 0 <= 2 * filled (snd (rng_vndb [0x1B] [0xFFFFFFFFFFFFFFFF] 8 3))
       <= used (snd (rng_vndb [0x1B] [0xFFFFFFFFFFFFFFFF] 8 3)).
Proof.
  split; [cbn; lia|].
  apply (proj1 (proj2 (proj2
           (rng_vndb_yield [0x1B] [0xFFFFFFFFFFFFFFFF] 8 3
              ltac:(lia) eq_refl ltac:(lia) ltac:(cbn; lia))))).
Defined.

(** ** rng_cycc: the counters and the exact coefficient *)

Lemma count_from_bounds (f : Z -> bool) (len : nat) :
  forall from, 0 <= count_from f from len <= Z.of_nat len.
Proof.
  induction len as [|len IH]; intros from; cbn [count_from]; [lia|].
  specialize (IH (from + 1)). destruct (f from); lia.
Qed.

Lemma count_from_ext (f g : Z -> bool) (len : nat) :
  forall from,
    (forall i, from <= i < from + Z.of_nat len -> f i = g i) ->
    count_from f from len = count_from g from len.
Proof.
  induction len as [|len IH]; intros from Hfg; [reflexivity|].
  cbn [count_from]. rewrite (Hfg from) by lia.
  rewrite (IH (from + 1)); [reflexivity|]. intros i Hi. apply Hfg. lia.
Qed.

Lemma count_from_split (f : Z -> bool) (l1 l2 : nat) :
  forall from,
    count_from f from (l1 + l2)
    = count_from f from l1 + count_from f (from + Z.of_nat l1) l2.
Proof.
  induction l1 as [|l1 IH]; intros from.
  - cbn [count_from Nat.add Z.of_nat]. rewrite Z.add_0_r. reflexivity.
  - change (S l1 + l2)%nat with (S (l1 + l2)). cbn [count_from].
    rewrite IH. replace (from + 1 + Z.of_nat l1) with (from + Z.of_nat (S l1)) by lia.
    lia.
Qed.

Lemma count_from_shift (f : Z -> bool) (d : Z) (len : nat) :
  forall from,
    count_from (fun i => f (i + d)) from len = count_from f (from + d) len.
Proof.
  induction len as [|len IH]; intros from; [reflexivity|].
  cbn [count_from]. rewrite IH.
  replace (from + 1 + d) with (from + d + 1) by lia. reflexivity.
Qed.

Lemma count_from_and_or (f g : Z -> bool) (len : nat) :
  forall from,
    count_from (fun i => f i && g i)%bool from len
    + count_from (fun i => f i || g i)%bool from len
    = count_from f from len + count_from g from len.
Proof.
  induction len as [|len IH]; intros from; [reflexivity|].
  cbn [count_from]. specialize (IH (from + 1)).
  destruct (f from), (g from); cbn [andb orb]; lia.
Qed.

Lemma count_from_le_or (f g : Z -> bool) (len : nat) :
  forall from,
    count_from f from len <= count_from (fun i => f i || g i)%bool from len.
Proof.
  induction len as [|len IH]; intros from; cbn [count_from]; [lia|].
  specialize (IH (from + 1)). destruct (f from), (g from); cbn [orb]; lia.
Qed.

(** Rotating a cyclic stream does not change how many of its bits are set. *)
Lemma count_from_rotate (f : Z -> bool) (n k : Z) :
  0 <= k < n ->
  count_from (fun i => f ((i + k) mod n)) 0 (Z.to_nat n)
  = count_from f 0 (Z.to_nat n).
Proof.
  intros Hk.
  replace (Z.to_nat n) with (Z.to_nat (n - k) + Z.to_nat k)%nat at 1 by lia.
  rewrite count_from_split.
  rewrite (count_from_ext _ (fun i => f (i + k)) (Z.to_nat (n - k)) 0).
  2: { intros i Hi. rewrite Z.mod_small by lia. reflexivity. }
  rewrite (count_from_ext _ (fun i => f (i + (k - n))) (Z.to_nat k)).
  2: { intros i Hi. f_equal.
       symmetry. apply (Z.mod_unique (i + k) n 1 (i + (k - n))); lia. }
  rewrite !count_from_shift.
  replace (0 + Z.of_nat (Z.to_nat (n - k)) + (k - n)) with 0 by lia.
  replace (Z.to_nat n) with (Z.to_nat k + Z.to_nat (n - k))%nat by lia.
  rewrite count_from_split.
  replace (0 + Z.of_nat (Z.to_nat k)) with (0 + k) by lia. lia.
Qed.

(** The loop of [rng_cycc] counts: [x2] the set bits of the stream, [x1]
    those whose partner [k] places on (cyclically) is set as well. *)
Lemma rng_cycc_loop_counts (src : list Z) (n k : Z) (fuel : nat) :
  0 <= k < n -> n <= 2 ^ 63 ->
  forall i x1 x2,
    0 <= i <= n -> n - i <= Z.of_nat fuel ->
    0 <= x1 <= i -> 0 <= x2 <= i ->
    rng_cycc_loop fuel src n k i x1 x2
    = (x1 + count_from (fun j => u64_bitarray_test src j
                                 && u64_bitarray_test src ((j + k) mod n))%bool
                       i (Z.to_nat (n - i)),
       x2 + count_from (u64_bitarray_test src) i (Z.to_nat (n - i))).
Proof.
  intros Hk Hn.
  induction fuel as [|fuel IH]; intros i x1 x2 Hi Hfuel Hx1 Hx2.
  - replace (Z.to_nat (n - i)) with O by lia. cbn [rng_cycc_loop count_from].
    rewrite !Z.add_0_r. reflexivity.
  - cbn [rng_cycc_loop]. destruct (Z.ltb_spec i n) as [Hlt|Hge].
    + replace (Z.to_nat (n - i)) with (S (Z.to_nat (n - (i + 1)))) by lia.
      cbn [count_from].
      rewrite (u64_small (i + k)), (u64_small (i + 1)),
              (u64_small (x1 + 1)), (u64_small (x2 + 1)) by lia.
      destruct (u64_bitarray_test src i); cbn [andb].
      * destruct (u64_bitarray_test src ((i + k) mod n));
          rewrite IH by lia; f_equal; lia.
      * rewrite IH by lia. f_equal; lia.
    + replace (Z.to_nat (n - i)) with O by lia. cbn [count_from].
      rewrite !Z.add_0_r. reflexivity.
Qed.

(** X11: for a stream of [n <= 2^63] bits and a lag [k < n], the counters of
    [rng_cycc] satisfy [0 <= x1 <= x2 <= n] and [2 * x2 - n <= x1], so that
    the numerator [n * x1 - x2^2] lies between minus and plus the
    denominator [n * x2 - x2^2]: in exact arithmetic the coefficient is in
    [-1, 1] whenever the denominator is not zero, and the denominator is
    zero exactly for the all-zeros and the all-ones stream.  With lag 0 the
    two counters agree. *)
Theorem rng_cycc_counts_bound (src : list Z) (n k : Z) :
  0 <= k < n -> n <= 2 ^ 63 ->
  let x1 := fst (rng_cycc_counts src n k) in
  let x2 := snd (rng_cycc_counts src n k) in
  x2 = count_from (u64_bitarray_test src) 0 (Z.to_nat n)
  /\ 0 <= x1 <= x2 /\ x2 <= n /\ 2 * x2 - n <= x1
  /\ - (n * x2 - x2 * x2) <= n * x1 - x2 * x2 <= n * x2 - x2 * x2
  /\ (n * x2 - x2 * x2 = 0 <-> x2 = 0 \/ x2 = n)
  /\ (k = 0 -> x1 = x2).
Proof.
  intros Hk Hn x1 x2.
  set (test := u64_bitarray_test src).
  set (partner := fun j => test ((j + k) mod n)).
  assert (Hrun : rng_cycc_counts src n k
                 = (count_from (fun j => test j && partner j)%bool 0 (Z.to_nat n),
                    count_from test 0 (Z.to_nat n))).
  { unfold rng_cycc_counts.
    rewrite (rng_cycc_loop_counts src n k (Z.to_nat n) Hk Hn 0 0 0) by lia.
    rewrite Z.sub_0_r, !Z.add_0_l. reflexivity. }
  unfold x1, x2. rewrite Hrun. cbn [fst snd].
  pose proof (count_from_bounds (fun j => test j && partner j)%bool (Z.to_nat n) 0) as Hb1.
  pose proof (count_from_bounds test (Z.to_nat n) 0) as Hb2.
  pose proof (count_from_bounds (fun j => test j || partner j)%bool (Z.to_nat n) 0) as Hbor.
  pose proof (count_from_and_or test partner (Z.to_nat n) 0) as Hio.
  pose proof (count_from_rotate test n k Hk) as Hrot. fold partner in Hrot.
  rewrite Hrot in Hio.
  set (a := count_from (fun j => test j && partner j)%bool 0 (Z.to_nat n)) in *.
  set (b := count_from test 0 (Z.to_nat n)) in *.
  set (u := count_from (fun j => test j || partner j)%bool 0 (Z.to_nat n)) in *.
  pose proof (count_from_le_or test partner (Z.to_nat n) 0) as Hbu.
  fold b u in Hbu.
  assert (Hab : a <= b) by lia.
  split; [reflexivity|]. split; [lia|]. split; [lia|]. split; [lia|].
  split; [split; nia|]. split.
  - split; [intros E; nia|intros [E|E]; rewrite E; lia].
  - intros ->. unfold a, b.
    apply count_from_ext. intros i Hi. unfold partner.
    rewrite Z.add_0_r, Z.mod_small by lia. apply andb_diag.
Qed.

Lemma rng_cycc_counts_bound_witness :
  (0 <= 1 < 3 /\ 3 <= 2 ^ 63)
  /\ - (3 * snd (rng_cycc_counts [5] 3 1)
        - snd (rng_cycc_counts [5] 3 1) * snd (rng_cycc_counts [5] 3 1))
     <= 3 * fst (rng_cycc_counts [5] 3 1)
        - snd (rng_cycc_counts [5] 3 1) * snd (rng_cycc_counts [5] 3 1)
     <= 3 * snd (rng_cycc_counts [5] 3 1)
        - snd (rng_cycc_counts [5] 3 1) * snd (rng_cycc_counts [5] 3 1).
Proof.
  split; [lia|].
  apply (proj1 (proj2 (proj2 (proj2 (proj2
           (rng_cycc_counts_bound [5] 3 1 ltac:(lia) ltac:(lia))))))).
Defined.

(** ** rng_cycc on the alternating stream of the test suite *)

Lemma alternating_word_bits (j : Z) :
  0 <= j < 64 -> Z.testbit 0xAAAAAAAAAAAAAAAA j = Z.odd j.
Proof.
  intros Hj.
  assert (H : forallb (fun j => Bool.eqb (Z.testbit 0xAAAAAAAAAAAAAAAA j) (Z.odd j))
                      (map Z.of_nat (seq 0 64)) = true)
    by (vm_compute; reflexivity).
  rewrite forallb_forall in H. apply eqb_prop, H.
  apply in_map_iff. exists (Z.to_nat j). split; [lia|apply in_seq; lia].
Qed.

Lemma odd_mod_even (a n : Z) : 0 < n -> n mod 2 = 0 -> Z.odd (a mod n) = Z.odd a.
Proof.
  intros Hn Heven.
  rewrite (Z.div_mod a n) at 2 by lia.
  rewrite (Z.div_mod n 2) at 2 by lia. rewrite Heven, Z.add_0_r.
  replace (2 * (n / 2) * (a / n) + a mod n)
    with (a mod n + 2 * (n / 2 * (a / n))) by lia.
  rewrite Z.odd_add_mul_2. reflexivity.
Qed.

Lemma alternating_stream_bit (words : nat) (i : Z) :
  0 <= i < 64 * Z.of_nat words ->
  u64_bitarray_test (alternating_stream words) i = Z.odd i.
Proof.
  intros Hi. rewrite u64_bitarray_test_stream_bit by lia.
  unfold stream_bit, word_at, alternating_stream.
  rewrite (nth_indep _ 0 0xAAAAAAAAAAAAAAAA).
  2: { rewrite repeat_length.
       assert (i / 64 < Z.of_nat words) by (apply Z.div_lt_upper_bound; lia).
       assert (0 <= i / 64) by (apply Z.div_pos; lia). lia. }
  rewrite nth_repeat.
  rewrite alternating_word_bits by (apply Z.mod_pos_bound; lia).
  apply odd_mod_even; [lia|reflexivity].
Qed.

Lemma count_from_none (len : nat) :
  forall from, count_from (fun _ => false) from len = 0.
Proof.
  induction len as [|len IH]; intros from; cbn [count_from]; [reflexivity|].
  rewrite IH. reflexivity.
Qed.

Lemma count_from_odd (h : nat) :
  forall from, Z.even from = true -> count_from Z.odd from (2 * h) = Z.of_nat h.
Proof.
  induction h as [|h IH]; intros from Heven; [reflexivity|].
  replace (2 * S h)%nat with (S (S (2 * h))) by lia. cbn [count_from].
  rewrite IH.
  2: { replace (from + 1 + 1) with (from + 2 * 1) by lia.
       rewrite Z.even_add_mul_2. exact Heven. }
  rewrite <- Z.negb_even, Heven.
  replace (from + 1) with (Z.succ from) by lia.
  rewrite Z.odd_succ, Heven. cbn [negb]. lia.
Qed.

Lemma rng_cycc_quotient_counts (src : list Z) (n k : Z) :
  rng_cycc_quotient src n k
  = ddiv (cycc_numerator n (fst (rng_cycc_counts src n k))
                         (snd (rng_cycc_counts src n k)))
         (cycc_denominator n (snd (rng_cycc_counts src n k))).
Proof.
  unfold rng_cycc_quotient, rng_cycc_counts.
  destruct (rng_cycc_loop (Z.to_nat n) src n k 0 0 0) as [x1 x2]. reflexivity.
Qed.

(** X12: on a stream of words [0xAAAAAAAAAAAAAAAA] of even length [n], half
    the bits are set, and the bits that are set together with their partner
    [k] places on are all of these when [k] is even and none when [k] is odd.
    At the length the test suite uses, [n = 6400000], the call returns
    exactly [1.0] for every even lag and exactly [-1.0] for every odd lag, and
    both assertions on the result hold. *)
Theorem rng_cycc_alternating_stream (words : nat) (n k : Z) :
  0 <= k < n -> n mod 2 = 0 -> n <= 64 * Z.of_nat words -> n <= 2 ^ 63 ->
  rng_cycc_counts (alternating_stream words) n k
  = (if Z.even k then n / 2 else 0, n / 2)
  /\ (n = 6400000 ->
      rng_cycc (alternating_stream words) n k
      = Returned (if Z.even k then d_one else d_minus_one)).
Proof.
  intros Hk Heven Hwords Hn.
  assert (Hhalf : Z.to_nat n = (2 * Z.to_nat (n / 2))%nat).
  { pose proof (Z.div_mod n 2 ltac:(lia)). lia. }
  assert (Hcounts : rng_cycc_counts (alternating_stream words) n k
                    = (if Z.even k then n / 2 else 0, n / 2)).
  { unfold rng_cycc_counts.
    rewrite (rng_cycc_loop_counts _ n k (Z.to_nat n) Hk Hn 0 0 0) by lia.
    rewrite Z.sub_0_r, !Z.add_0_l.
    assert (Hset : count_from (u64_bitarray_test (alternating_stream words)) 0
                              (Z.to_nat n) = n / 2).
    { rewrite (count_from_ext _ Z.odd).
      2: { intros i Hi. apply alternating_stream_bit. lia. }
      rewrite Hhalf, count_from_odd by reflexivity.
      pose proof (Z.div_mod n 2 ltac:(lia)). lia. }
    rewrite Hset. f_equal.
    destruct (Z.even k) eqn:Ek.
    - rewrite <- Hset. apply count_from_ext. intros i Hi.
      rewrite !alternating_stream_bit.
      2: { pose proof (Z.mod_pos_bound (i + k) n ltac:(lia)). lia. }
      2: lia.
      rewrite odd_mod_even by lia.
      rewrite Z.odd_add, <- (Z.negb_even k), Ek. cbn [negb].
      destruct (Z.odd i); reflexivity.
    - transitivity (count_from (fun _ => false) 0 (Z.to_nat n));
        [|apply count_from_none].
      apply count_from_ext.
      intros i Hi.
      rewrite !alternating_stream_bit.
      2: { pose proof (Z.mod_pos_bound (i + k) n ltac:(lia)). lia. }
      2: lia.
      rewrite odd_mod_even by lia.
      rewrite Z.odd_add, <- (Z.negb_even k), Ek. cbn [negb].
      destruct (Z.odd i); reflexivity. }
  split; [exact Hcounts|].
  intros Hsize. unfold rng_cycc.
  rewrite rng_cycc_quotient_counts, Hcounts. cbn [fst snd].
  rewrite Hsize. destruct (Z.even k); vm_compute; reflexivity.
Qed.

Lemma rng_cycc_alternating_stream_witness :
  (0 <= 3 < 6400000 /\ 6400000 mod 2 = 0
   /\ 6400000 <= 64 * Z.of_nat (Z.to_nat 100000) /\ 6400000 <= 2 ^ 63)
  /\ rng_cycc (alternating_stream (Z.to_nat 100000)) 6400000 3
     = Returned d_minus_one.
Proof.
  split; [split; [lia|split; [reflexivity|split; lia]]|].
  apply (proj2 (rng_cycc_alternating_stream (Z.to_nat 100000) 6400000 3
                  ltac:(lia) ltac:(reflexivity) ltac:(lia) ltac:(lia))).
  reflexivity.
Defined.

(** ** The vector generator on arbitrary blocks *)

Lemma lo32_lxor (a b : Z) : lo32 (Z.lxor a b) = Z.lxor (lo32 a) (lo32 b).
Proof.
  unfold lo32, u32. rewrite <- !Z.land_ones by lia.
  apply Z.bits_inj'. intros i Hi.
  rewrite Z.lxor_spec, !Z.land_spec, Z.lxor_spec.
  destruct (Z.testbit (Z.ones 32) i);
    rewrite ?andb_true_r, ?andb_false_r; reflexivity.
Qed.

Lemma hi32_range (x : Z) : 0 <= hi32 x < 2 ^ 32.
Proof. apply u32_range. Qed.

Lemma each32_2_pack_r (g : Z -> Z -> Z) (x lo hi : Z) :
  0 <= lo < 2 ^ 32 -> 0 <= hi < 2 ^ 32 ->
  each32_2 g x (pack32 lo hi) = pack32 (g (lo32 x) lo) (g (hi32 x) hi).
Proof.
  intros Hlo Hhi. unfold each32_2.
  rewrite lo32_pack32, hi32_pack32 by assumption. reflexivity.
Qed.

Lemma lane_xorshift_low (x : Z) :
  lo32 (Z.lxor x
          (each32_2 (fun v c => if c <? 32 then Z.shiftr v c else 0) x
             (each32_2 (fun a b => u32 (a + b))
                (each32 (fun v => Z.shiftr v 28) x) (pack32 4 4))))
  = Z.lxor (lo32 x) (Z.shiftr (lo32 x) (Z.shiftr (lo32 x) 28 + 4)).
Proof.
  pose proof (u32_range x) as Hlo. fold (lo32 x) in Hlo.
  pose proof (hi32_range x) as Hhi.
  pose proof (shiftr28_small _ Hlo) as Hl28.
  pose proof (shiftr28_small _ Hhi) as Hh28.
  rewrite lo32_lxor. f_equal.
  unfold each32.
  rewrite (each32_2_pack_r (fun a b => u32 (a + b))) by lia.
  rewrite lo32_pack32, hi32_pack32 by lia.
  rewrite !(u32_small (Z.shiftr _ 28 + 4)) by lia.
  rewrite (each32_2_pack_r (fun v c => if c <? 32 then Z.shiftr v c else 0)) by lia.
  destruct (Z.ltb_spec (Z.shiftr (lo32 x) 28 + 4) 32) as [_|Hge]; [|lia].
  apply lo32_pack32. apply shiftr_range; lia.
Qed.

(** Whatever the upper half of a block holds, the partial step computes the
    output of the reference PCG32i on the lower half. *)
Lemma lane_out_low (x i : Z) :
  lane_out x = fst (pcg32i_next {| current := lo32 x; increment32 := i |}).
Proof.
  rewrite <- (lane_out_pcg32i {| current := lo32 x; increment32 := i |})
    by apply u32_range.
  cbn [current].
  pose proof (u32_range x) as Hlo. fold (lo32 x) in Hlo.
  unfold lane_out.
  change (28 >? 31) with false. change (22 >? 31) with false. cbv iota.
  change (u32 4) with 4.
  rewrite (lane_xorshift_low x), (lane_xorshift_low (lo32 x)).
  rewrite (lo32_small (lo32 x)) by exact Hlo. reflexivity.
Qed.

Lemma lane_step_low (s i : Z) :
  lane_step s i
  = current (snd (pcg32i_next {| current := lo32 s; increment32 := lo32 i |})).
Proof.
  unfold lane_step, pcg32i_next. cbn [snd current increment32].
  change (lo32 (u64 0x2C9277B5)) with 747796405.
  rewrite !land_mask32, u32_of_u64. unfold lo32, u32.
  rewrite Z.add_mod_idemp_l by lia. rewrite Z.add_mod_idemp_r by lia. reflexivity.
Qed.

Lemma lane_stream_wf (rng : simd_random_t) (lane : m256i -> Z) :
  wf32 (lane_stream rng lane).
Proof. split; apply u32_range. Qed.

Lemma pcg32i_next_eta (x i : Z) :
  {| current := lo32 (current (snd (pcg32i_next {| current := x; increment32 := i |})));
     increment32 := i |}
  = snd (pcg32i_next {| current := x; increment32 := i |}).
Proof.
  unfold pcg32i_next. cbn [snd current increment32].
  rewrite lo32_small by apply u32_range. reflexivity.
Qed.

(** A partial step does not look at the upper halves: it returns what it
    returns on the cleared generator, and the generators stay in step. *)
Lemma simd_rng_next_partial_low (rng : simd_random_t) :
  fst (simd_rng_next_partial rng) = fst (simd_rng_next_partial (low_halves rng))
  /\ low_halves (snd (simd_rng_next_partial rng))
     = snd (simd_rng_next_partial (low_halves rng)).
Proof.
  destruct rng as [[s0 s1 s2 s3] [i0 i1 i2 i3]].
  unfold low_halves at 1 3.
  rewrite simd_rng_next_partial_lift4 by apply lane_stream_wf.
  rewrite simd_rng_next_partial_lanes.
  unfold low_halves, lane_stream, lift4, map64, map64_2.
  cbn [fst snd simd_state simd_increment q0 q1 q2 q3].
  rewrite (lane_out_low s0 (lo32 i0)), (lane_out_low s1 (lo32 i1)),
          (lane_out_low s2 (lo32 i2)), (lane_out_low s3 (lo32 i3)).
  split; [reflexivity|].
  rewrite !lane_step_low, !pcg32i_next_eta. reflexivity.
Qed.

Lemma simd_rng_next_low (rng : simd_random_t) :
  fst (simd_rng_next rng) = fst (simd_rng_next (low_halves rng))
  /\ low_halves (snd (simd_rng_next rng)) = snd (simd_rng_next (low_halves rng)).
Proof.
  destruct (simd_rng_next_partial_low rng) as [Ho1 Hs1].
  destruct (simd_rng_next_partial_low (snd (simd_rng_next_partial rng))) as [Ho2 Hs2].
  rewrite Hs1 in Ho2, Hs2.
  unfold simd_rng_next.
  destruct (simd_rng_next_partial rng) as [lower rng1].
  destruct (simd_rng_next_partial (low_halves rng)) as [lower' rng1'].
  cbn [fst snd] in *.
  destruct (simd_rng_next_partial rng1) as [upper rng2].
  destruct (simd_rng_next_partial rng1') as [upper' rng2'].
  cbn [fst snd] in *. subst lower' upper'. split; [reflexivity|exact Hs2].
Qed.

Lemma simd_after_low (t : nat) :
  forall rng,
    low_halves (after simd_rng_next t rng)
    = after simd_rng_next t (low_halves rng).
Proof.
  induction t as [|t IH]; intros rng; [reflexivity|].
  rewrite !after_succ, IH. f_equal. apply simd_rng_next_low.
Qed.

Lemma simd_output_low (t : nat) (rng : simd_random_t) :
  output_at simd_rng_next t rng = output_at simd_rng_next t (low_halves rng).
Proof.
  unfold output_at. rewrite <- simd_after_low. apply simd_rng_next_low.
Qed.

(** X13: [simd_rng_next] never looks at the upper half of a block.  From
    any state whatsoever, call number [t] returns what it returns from the
    state with all upper halves cleared, and block [q] of the result packs
    outputs [2t] and [2t + 1] of the scalar PCG32i stream held in the low
    halves of block [q] of the state and of the increment. *)
Theorem simd_rng_next_uses_low_halves_only (rng : simd_random_t) (t : nat) :
  let out := output_at simd_rng_next t rng in
  let stream lane i := output_at pcg32i_next i (lane_stream rng lane) in
  out = output_at simd_rng_next t (low_halves rng)
  /\ holds_pair (q0 out) (stream q0 (2 * t)%nat) (stream q0 (2 * t + 1)%nat)
  /\ holds_pair (q1 out) (stream q1 (2 * t)%nat) (stream q1 (2 * t + 1)%nat)
  /\ holds_pair (q2 out) (stream q2 (2 * t)%nat) (stream q2 (2 * t + 1)%nat)
  /\ holds_pair (q3 out) (stream q3 (2 * t)%nat) (stream q3 (2 * t + 1)%nat).
Proof.
  intros out stream.
  assert (Hlow : out = output_at simd_rng_next t (low_halves rng))
    by apply simd_output_low.
  split; [exact Hlow|].
  assert (Hout : out = mk256 (pack32 (stream q0 (2 * t)%nat) (stream q0 (2 * t + 1)%nat))
                             (pack32 (stream q1 (2 * t)%nat) (stream q1 (2 * t + 1)%nat))
                             (pack32 (stream q2 (2 * t)%nat) (stream q2 (2 * t + 1)%nat))
                             (pack32 (stream q3 (2 * t)%nat) (stream q3 (2 * t + 1)%nat))).
  { rewrite Hlow. unfold stream, output_at at 1, low_halves.
    rewrite simd_after_lift4 by apply lane_stream_wf.
    rewrite simd_rng_next_lift4 by (apply pcg32i_after_wf; apply lane_stream_wf).
    cbn [fst]. rewrite !output_at_after.
    replace (2 * t + 0)%nat with (2 * t)%nat by lia. reflexivity. }
  rewrite Hout. cbn [q0 q1 q2 q3]. unfold stream.
  split; [|split; [|split]];
    apply holds_pair_pack32; apply pcg32i_output_range; apply lane_stream_wf.
Qed.

(** ** What the outputs give away *)

Lemma add_mod_injective (N A i j : Z) :
  0 < N -> 0 <= i < N -> 0 <= j < N ->
  (A + i) mod N = (A + j) mod N -> i = j.
Proof.
  intros HN Hi Hj E.
  rewrite <- (Z.mod_small i N Hi), <- (Z.mod_small j N Hj).
  replace i with (A + i - A) at 1 by lia. replace j with (A + j - A) at 1 by lia.
  rewrite <- (Zminus_mod_idemp_l (A + i)), <- (Zminus_mod_idemp_l (A + j)), E.
  reflexivity.
Qed.

Lemma pcg32i_next_state_inverse (s inc : Z) :
  u32 ((u32 (s * 747796405 + inc) - inc) * 0xCC2BFE9D) = u32 s.
Proof.
  unfold u32.
  rewrite <- Z.mul_mod_idemp_l by lia.
  rewrite Zminus_mod_idemp_l.
  replace (s * 747796405 + inc - inc) with (s * 747796405) by lia.
  apply mul_inverse_cancel; [lia|reflexivity].
Qed.

Lemma pcg32i_prev_state_inverse (s inc : Z) :
  u32 (u32 ((s - inc) * 0xCC2BFE9D) * 747796405 + inc) = u32 s.
Proof.
  unfold u32.
  rewrite <- Z.add_mod_idemp_l by lia.
  rewrite (mul_inverse_cancel 0xCC2BFE9D 747796405 (2 ^ 32) (s - inc))
    by (lia || reflexivity).
  rewrite Z.add_mod_idemp_l by lia.
  f_equal. lia.
Qed.

(** The output permutation of PCG32i is injective on 32-bit states. *)
Lemma pcg32i_output_injective (s1 s2 : pcg32i) :
  wf32 s1 -> wf32 s2 ->
  fst (pcg32i_next s1) = fst (pcg32i_next s2) -> current s1 = current s2.
Proof.
  intros [H1 _] [H2 _] E.
  unfold pcg32i_next in E. cbn [fst] in E.
  set (x1 := current s1) in *. set (x2 := current s2) in *.
  set (v1 := Z.lxor (Z.shiftr x1 (Z.shiftr x1 28 + 4)) x1) in *.
  set (v2 := Z.lxor (Z.shiftr x2 (Z.shiftr x2 28 + 4)) x2) in *.
  assert (Hs1 : 0 <= Z.shiftr x1 28) by (apply Z.shiftr_nonneg; lia).
  assert (Hs2 : 0 <= Z.shiftr x2 28) by (apply Z.shiftr_nonneg; lia).
  assert (Hv1 : 0 <= v1 < 2 ^ 32)
    by (apply lxor_range; [lia|apply shiftr_range; lia|lia]).
  assert (Hv2 : 0 <= v2 < 2 ^ 32)
    by (apply lxor_range; [lia|apply shiftr_range; lia|lia]).
  rewrite (Z.lxor_comm _ (u32 (v1 * _))), (Z.lxor_comm _ (u32 (v2 * _))) in E.
  apply (xorshift_injective 32 22) in E; try lia; try apply u32_range.
  apply (mul_inverse_injective 277803737 0xACB86D69 (2 ^ 32)) in E;
    try lia; try reflexivity.
  apply (var_xorshift_injective 32 4 4); try lia. exact E.
Qed.

(** Two successive outputs of a PCG32i stream fix its state and its
    increment. *)
Lemma pcg32i_two_outputs (s1 s2 : pcg32i) :
  wf32 s1 -> wf32 s2 ->
  output_at pcg32i_next 0 s1 = output_at pcg32i_next 0 s2 ->
  output_at pcg32i_next 1 s1 = output_at pcg32i_next 1 s2 ->
  s1 = s2.
Proof.
  intros Hw1 Hw2 E0 E1.
  unfold output_at in E0, E1. cbn [after] in E0, E1.
  apply pcg32i_output_injective in E0; [|assumption|assumption].
  apply pcg32i_output_injective in E1;
    [|apply pcg32i_next_wf; assumption|apply pcg32i_next_wf; assumption].
  destruct s1 as [x1 i1], s2 as [x2 i2], Hw1 as [Hx1 Hi1], Hw2 as [Hx2 Hi2].
  unfold pcg32i_next in E1. cbn [snd current increment32] in *.
  subst x2. f_equal.
  apply (add_mod_injective (2 ^ 32) (x1 * 747796405)); try lia. exact E1.
Qed.

(** X14: the reference generator [pcg32i_next] of the test suite walks a
    bijection of the 32-bit states, inverted by [pcg32i_prev]; its output is
    an injective function of the pre-call state, and two successive outputs
    fix the state and the increment, that is the whole stream. *)
Theorem pcg32i_next_bijection (s1 s2 : pcg32i) :
  wf32 s1 -> wf32 s2 ->
  pcg32i_prev (snd (pcg32i_next s1)) = s1
  /\ snd (pcg32i_next (pcg32i_prev s1)) = s1
  /\ (fst (pcg32i_next s1) = fst (pcg32i_next s2) -> current s1 = current s2)
  /\ (output_at pcg32i_next 0 s1 = output_at pcg32i_next 0 s2 ->
      output_at pcg32i_next 1 s1 = output_at pcg32i_next 1 s2 ->
      s1 = s2).
Proof.
  intros Hw1 Hw2.
  split; [|split; [|split]].
  - destruct s1 as [x i], Hw1 as [Hx _].
    unfold pcg32i_prev, pcg32i_next. cbn [snd current increment32] in *.
    rewrite pcg32i_next_state_inverse, (u32_small x Hx). reflexivity.
  - destruct s1 as [x i], Hw1 as [Hx _].
    unfold pcg32i_prev, pcg32i_next. cbn [snd current increment32] in *.
    rewrite pcg32i_prev_state_inverse, (u32_small x Hx). reflexivity.
  - apply pcg32i_output_injective; assumption.
  - apply pcg32i_two_outputs; assumption.
Qed.

Lemma pcg32i_next_bijection_witness :
  (wf32 (mk_pcg32i 42 7) /\ wf32 (mk_pcg32i 43 7))
  /\ pcg32i_prev (snd (pcg32i_next (mk_pcg32i 42 7))) = mk_pcg32i 42 7.
Proof.
  assert (Hw1 : wf32 (mk_pcg32i 42 7)) by (unfold wf32; cbn [current increment32]; lia).
  assert (Hw2 : wf32 (mk_pcg32i 43 7)) by (unfold wf32; cbn [current increment32]; lia).
  split; [split; assumption|].
  apply (proj1 (pcg32i_next_bijection (mk_pcg32i 42 7) (mk_pcg32i 43 7) Hw1 Hw2)).
Defined.

Lemma mk256_inj (a b c d a' b' c' d' : Z) :
  mk256 a b c d = mk256 a' b' c' d' -> a = a' /\ b = b' /\ c = c' /\ d = d'.
Proof. intros E. injection E as -> -> -> ->. split; [|split; [|split]]; reflexivity. Qed.

Lemma pack32_inj (l h l' h' : Z) :
  0 <= l < 2 ^ 32 -> 0 <= h < 2 ^ 32 -> 0 <= l' < 2 ^ 32 -> 0 <= h' < 2 ^ 32 ->
  pack32 l h = pack32 l' h' -> l = l' /\ h = h'.
Proof.
  intros Hl Hh Hl' Hh' E. split.
  - rewrite <- (lo32_pack32 l h Hl), <- (lo32_pack32 l' h' Hl'), E. reflexivity.
  - rewrite <- (hi32_pack32 l h Hl Hh), <- (hi32_pack32 l' h' Hl' Hh'), E. reflexivity.
Qed.

Lemma packed_outputs_determine_stream (s1 s2 : pcg32i) :
  wf32 s1 -> wf32 s2 ->
  pack32 (output_at pcg32i_next 0 s1) (output_at pcg32i_next 1 s1)
  = pack32 (output_at pcg32i_next 0 s2) (output_at pcg32i_next 1 s2) ->
  s1 = s2.
Proof.
  intros Hw1 Hw2 E.
  apply pack32_inj in E; try (apply pcg32i_output_range; assumption).
  destruct E as [E0 E1]. apply pcg32i_two_outputs; assumption.
Qed.

(** X15: one 256-bit result of [simd_rng_next] gives the generator away.
    Two vector generators that return the same result on one call hold the
    same low halves in every block of their state and increment, and so
    return the same results on every later call. *)
Theorem simd_rng_next_output_determines_state (rng1 rng2 : simd_random_t) :
  fst (simd_rng_next rng1) = fst (simd_rng_next rng2) ->
  low_halves rng1 = low_halves rng2
  /\ forall t, output_at simd_rng_next t rng1 = output_at simd_rng_next t rng2.
Proof.
  intros E.
  assert (Hlow : low_halves rng1 = low_halves rng2).
  { rewrite (proj1 (simd_rng_next_low rng1)), (proj1 (simd_rng_next_low rng2)) in E.
    unfold low_halves in E.
    rewrite !simd_rng_next_lift4 in E by apply lane_stream_wf.
    cbn [fst] in E. apply mk256_inj in E. destruct E as (E0 & E1 & E2 & E3).
    apply packed_outputs_determine_stream in E0; try apply lane_stream_wf.
    apply packed_outputs_determine_stream in E1; try apply lane_stream_wf.
    apply packed_outputs_determine_stream in E2; try apply lane_stream_wf.
    apply packed_outputs_determine_stream in E3; try apply lane_stream_wf.
    unfold low_halves. rewrite E0, E1, E2, E3. reflexivity. }
  split; [exact Hlow|].
  intros t. rewrite (simd_output_low t rng1), (simd_output_low t rng2), Hlow.
  reflexivity.
Qed.

Lemma simd_rng_next_output_determines_state_witness :
  low_halves (mk_simd (mk256 (2 ^ 32 + 5) 6 7 8) (mk256 1 3 5 7))
  = low_halves (mk_simd (mk256 5 6 7 8) (mk256 1 3 5 (2 ^ 33 + 7))).
Proof.
  apply (proj1 (simd_rng_next_output_determines_state
                  (mk_simd (mk256 (2 ^ 32 + 5) 6 7 8) (mk256 1 3 5 7))
                  (mk_simd (mk256 5 6 7 8) (mk256 1 3 5 (2 ^ 33 + 7)))
                  ltac:(vm_compute; reflexivity))).
Defined.

(** X16: two successive words of [rng_next] fix the generator.  Two scalar
    generators with 64-bit state and increment that return the same word on
    a first and on a second call have the same state and the same
    increment. *)
Theorem rng_next_two_words_determine_generator (rng1 rng2 : random_t) :
  0 <= state rng1 < 2 ^ 64 -> 0 <= increment rng1 < 2 ^ 64 ->
  0 <= state rng2 < 2 ^ 64 -> 0 <= increment rng2 < 2 ^ 64 ->
  output_at rng_next 0 rng1 = output_at rng_next 0 rng2 ->
  output_at rng_next 1 rng1 = output_at rng_next 1 rng2 ->
  rng1 = rng2.
Proof.
  destruct rng1 as [s1 i1], rng2 as [s2 i2]. cbn [state increment].
  intros Hs1 Hi1 Hs2 Hi2 E0 E1.
  unfold output_at in E0, E1. cbn [after] in E0, E1.
  apply rng_next_output_fixes_state in E0; [|assumption|assumption].
  subst s2.
  change (snd (rng_next (mk_random s1 i1)))
    with (mk_random (u64 (s1 * 0x5851F42D4C957F2D + i1)) i1) in E1.
  change (snd (rng_next (mk_random s1 i2)))
    with (mk_random (u64 (s1 * 0x5851F42D4C957F2D + i2)) i2) in E1.
  apply rng_next_output_fixes_state in E1; try apply u64_range.
  f_equal.
  apply (add_mod_injective (2 ^ 64) (s1 * 0x5851F42D4C957F2D)); try lia. exact E1.
Qed.

Lemma rng_next_two_words_determine_generator_witness :
  mk_random 42 7 = mk_random 42 7.
Proof.
  apply (rng_next_two_words_determine_generator (mk_random 42 7) (mk_random 42 7));
    cbn [state increment]; try lia; reflexivity.
Defined.

(** ** Every word is returned by some state *)

Lemma shiftr_out (a n : Z) : 0 <= a < 2 ^ 64 -> 64 <= n -> Z.shiftr a n = 0.
Proof.
  intros Ha Hn. rewrite Z.shiftr_div_pow2 by lia. apply Z.div_small.
  pose proof (Z.pow_le_mono_r 2 64 n ltac:(lia) Hn). lia.
Qed.

Lemma unxorshift_range (t v : Z) (k : nat) :
  0 <= t -> 0 <= v < 2 ^ 64 -> 0 <= unxorshift k t v < 2 ^ 64.
Proof.
  intros Ht Hv. induction k as [|k IH]; cbn [unxorshift]; [exact Hv|].
  apply lxor_range; [lia|exact Hv|]. apply shiftr_range; [exact IH|exact Ht].
Qed.

(** Round [k + 1] changes no bit from position [64 - (k + 1) * t] on. *)
Lemma unxorshift_stable (t v : Z) :
  0 < t -> 0 <= v < 2 ^ 64 ->
  forall (k : nat) (i : Z),
    0 <= i -> 64 - (Z.of_nat k + 1) * t <= i ->
    Z.testbit (unxorshift (S k) t v) i = Z.testbit (unxorshift k t v) i.
Proof.
  intros Ht Hv. induction k as [|k IH]; intros i Hi Hbound.
  - cbn [unxorshift]. rewrite Z.lxor_spec, Z.shiftr_spec by lia.
    rewrite (bits_of_range v 64 ltac:(lia) Hv (i + t)) by lia. apply xorb_false_r.
  - change (unxorshift (S (S k)) t v)
      with (Z.lxor v (Z.shiftr (unxorshift (S k) t v) t)).
    change (unxorshift (S k) t v)
      with (Z.lxor v (Z.shiftr (unxorshift k t v) t)) at 2.
    rewrite !Z.lxor_spec, !Z.shiftr_spec by lia.
    rewrite IH by nia. reflexivity.
Qed.

Lemma unxorshift_fixpoint (t v : Z) :
  5 <= t -> 0 <= v < 2 ^ 64 ->
  unxorshift 12 t v = Z.lxor v (Z.shiftr (unxorshift 12 t v) t).
Proof.
  intros Ht Hv.
  change (Z.lxor v (Z.shiftr (unxorshift 12 t v) t)) with (unxorshift 13 t v).
  apply Z.bits_inj'. intros i Hi. symmetry.
  apply (unxorshift_stable t v ltac:(lia) Hv 12 i Hi).
  change (Z.of_nat 12) with 12. lia.
Qed.

Lemma lxor_cancel_l (a b : Z) : Z.lxor a (Z.lxor b a) = b.
Proof.
  rewrite (Z.lxor_comm b a), <- Z.lxor_assoc, Z.lxor_nilpotent. apply Z.lxor_0_l.
Qed.

(** [unxorshift] undoes the variable xorshift of [rng_next]. *)
Lemma unxorshift_inverts (v : Z) :
  0 <= v < 2 ^ 64 ->
  let x := unxorshift 12 (Z.shiftr v 59 + 5) v in
  0 <= x < 2 ^ 64 /\ Z.lxor (Z.shiftr x (Z.shiftr x 59 + 5)) x = v.
Proof.
  intros Hv x.
  assert (Hv59 : 0 <= Z.shiftr v 59) by (apply Z.shiftr_nonneg; lia).
  set (t := Z.shiftr v 59 + 5) in *.
  assert (Hx : 0 <= x < 2 ^ 64) by (apply unxorshift_range; lia).
  assert (Hfix : x = Z.lxor v (Z.shiftr x t)) by (apply unxorshift_fixpoint; lia).
  split; [exact Hx|].
  assert (Htop : Z.shiftr x 59 = Z.shiftr v 59).
  { rewrite Hfix at 1. rewrite Z.shiftr_lxor, Z.shiftr_shiftr by lia.
    rewrite (shiftr_out x (t + 59)) by lia. apply Z.lxor_0_r. }
  rewrite Htop. fold t. rewrite Hfix at 2. apply lxor_cancel_l.
Qed.

Lemma rng_unpermute_inverts (w inc : Z) :
  0 <= w < 2 ^ 64 ->
  0 <= rng_unpermute w < 2 ^ 64
  /\ fst (rng_next (mk_random (rng_unpermute w) inc)) = w.
Proof.
  intros Hw. unfold rng_unpermute.
  set (fx := Z.lxor w (Z.shiftr w 43)).
  assert (Hfx : 0 <= fx < 2 ^ 64)
    by (apply lxor_range; [lia|exact Hw|apply shiftr_range; lia]).
  set (v := u64 (fx * 0xD04CA582ACB86D69)).
  assert (Hv : 0 <= v < 2 ^ 64) by apply u64_range.
  destruct (unxorshift_inverts v Hv) as [Hx Hinv].
  split; [exact Hx|].
  unfold rng_next. cbn [fst state]. rewrite Hinv.
  assert (Hmul : u64 (v * 0xAEF17502108EF2D9) = fx).
  { unfold v, u64.
    rewrite (mul_inverse_cancel 0xD04CA582ACB86D69 0xAEF17502108EF2D9 (2 ^ 64) fx)
      by (lia || reflexivity).
    apply Z.mod_small. exact Hfx. }
  rewrite Hmul. unfold fx at 1.
  rewrite Z.shiftr_lxor, Z.shiftr_shiftr by lia.
  rewrite (shiftr_out w (43 + 43)) by lia. rewrite Z.lxor_0_r.
  unfold fx. apply lxor_cancel_l.
Qed.

(** X17: the output permutation of [rng_next] is onto: for every 64-bit
    word [w] the state [rng_unpermute w] is a 64-bit state on which
    [rng_next] returns [w], whatever the increment, and it is the only such
    state. *)
Theorem rng_next_output_onto (w s inc : Z) :
  0 <= w < 2 ^ 64 -> 0 <= s < 2 ^ 64 ->
  0 <= rng_unpermute w < 2 ^ 64
  /\ fst (rng_next (mk_random (rng_unpermute w) inc)) = w
  /\ rng_unpermute (fst (rng_next (mk_random s inc))) = s.
Proof.
  intros Hw Hs.
  destruct (rng_unpermute_inverts w inc Hw) as [Hr Ho].
  split; [exact Hr|]. split; [exact Ho|].
  pose proof (rng_next_output_range (mk_random s inc)) as Hout.
  destruct (rng_unpermute_inverts (fst (rng_next (mk_random s inc))) inc) as [Hr' Ho'].
  { apply Hout. }
  apply (rng_next_output_fixes_state _ s inc inc Hr' Hs Ho').
Qed.

Lemma rng_next_output_onto_witness :
  (0 <= 12345 < 2 ^ 64 /\ 0 <= 42 < 2 ^ 64)
  /\ fst (rng_next (mk_random (rng_unpermute 12345) 7)) = 12345.
Proof.
  split; [lia|].
  apply (proj1 (proj2 (rng_next_output_onto 12345 42 7 ltac:(lia) ltac:(lia)))).
Defined.

(** X18: [rng_rand] can return every value of its range.  For
    [min <= r <= max] the generator in state [rng_unpermute (r - min)]
    makes [rng_rand] return [r] on its first draw. *)
Theorem rng_rand_reaches_every_value (fuel : nat) (min max r inc : Z) :
  0 <= min -> min < max -> max < 2 ^ 64 -> min <= r <= max ->
  rng_rand (S fuel) (mk_random (rng_unpermute (r - min)) inc) min max
  = Some (r, snd (rng_next (mk_random (rng_unpermute (r - min)) inc))).
Proof.
  intros Hmin Hlt Hmax Hr.
  destruct (rng_unpermute_inverts (r - min) inc ltac:(lia)) as [_ Hout].
  destruct (rand_bitmask_covers (max - min) ltac:(lia)) as [Hmask Hcover].
  destruct (clzll_bits (max - min) ltac:(lia)) as [Hclz _].
  unfold rng_rand. rewrite (u64_small (max - min)) by lia.
  cbn [rng_rand_loop].
  destruct (rng_next (mk_random (rng_unpermute (r - min)) inc)) as [w rng'].
  cbn [fst snd] in *. subst w.
  assert (Hland : Z.land (r - min) (rand_bitmask (max - min)) = r - min).
  { rewrite Hmask, Z.land_ones by lia. apply Z.mod_small.
    rewrite Hmask, Z.ones_equiv in Hcover. lia. }
  rewrite Hland.
  destruct (Z.gtb_spec (r - min) (max - min)) as [Hgt|_]; [lia|].
  rewrite u64_small by lia. repeat f_equal. lia.
Qed.

Lemma rng_rand_reaches_every_value_witness :
  (0 <= 5 /\ 5 < 9 /\ 9 < 2 ^ 64 /\ 5 <= 7 <= 9)
  /\ rng_rand 1 (mk_random (rng_unpermute (7 - 5)) 1) 5 9
     = Some (7, snd (rng_next (mk_random (rng_unpermute (7 - 5)) 1))).
Proof.
  split; [lia|].
  apply (rng_rand_reaches_every_value 0 5 9 7 1); lia.
Defined.

(** ** simd_rng_init: one zero seed *)

(** X19: a single zero among the four seeds of [simd_rng_init] makes the
    function ignore all four: the result, and the entropy left over, are
    those of the call with four zero seeds.  With four nonzero seeds the
    entropy source is not touched. *)
Theorem simd_rng_init_zero_seed_discards_seeds `{RandomUtils}
  (s1 s2 s3 s4 : Z) (e : entropy) :
  (s1 = 0 \/ s2 = 0 \/ s3 = 0 \/ s4 = 0 ->
   simd_rng_init s1 s2 s3 s4 e = simd_rng_init 0 0 0 0 e)
  /\ (s1 <> 0 -> s2 <> 0 -> s3 <> 0 -> s4 <> 0 ->
      snd (simd_rng_init s1 s2 s3 s4 e) = e).
Proof.
  split.
  - intros Hzero. unfold simd_rng_init.
    assert (Hcond : (negb (s1 =? 0) && negb (s2 =? 0)
                     && negb (s3 =? 0) && negb (s4 =? 0))%bool = false).
    { destruct Hzero as [E|[E|[E|E]]]; rewrite E; cbn [Z.eqb negb andb];
        rewrite ?andb_false_r; reflexivity. }
    rewrite Hcond. reflexivity.
  - intros H1 H2 H3 H4. rewrite simd_rng_init_lift4 by assumption. reflexivity.
Qed.

Lemma simd_rng_init_zero_seed_discards_seeds_witness :
  (10 = 0 \/ 20 = 0 \/ 0 = 0 \/ 40 = 0)
  /\ simd_rng_init (H := test_utils) 10 20 0 40 [Some 1; Some 2]
     = simd_rng_init (H := test_utils) 0 0 0 0 [Some 1; Some 2].
Proof.
  assert (Hzero : 10 = 0 \/ 20 = 0 \/ 0 = 0 \/ 40 = 0)
    by (right; right; left; reflexivity).
  split; [exact Hzero|].
  apply (proj1 (simd_rng_init_zero_seed_discards_seeds (H := test_utils)
                  10 20 0 40 [Some 1; Some 2]) Hzero).
Defined.

